(** * CesiumGltfComponent: the per-primitive mesh builder

    A shallow embedding of the geometry pipeline of
    [Source/CesiumRuntime/Private/CesiumGltfComponent.cpp]: index
    normalisation, vertex duplication, colour conversion, texture-coordinate
    consolidation, winding reversal, bounds and collision triangles.

    Conventions of the embedding.
    - [TArray] and accessor views are lists; positions inside them are [nat],
      the integers stored in them are [Z] with their wrap-around written out.
    - A computation returns [option]: [None] stands for an execution that leaves
      defined behaviour (a bounds check of [TArray] or of the accessor view
      fires, a negative [SetNum], a float-to-integer cast out of range).
    - [float] and [double] values are IEEE-754 data ([spec_float]) compared
      and multiplied by the operations of [SpecFloat].
    - Both physics configurations are embedded ([PHYSICS_INTERFACE_PHYSX] and
      Chaos); the bounding box is the double-precision one of
      [ENGINE_MAJOR_VERSION >= 5].
    - The functions of Unreal, mikktspace and the texture loader that the
      file calls are the fields of a record [Engine]; the typed accessor
      views of cesium-native are fields of [Model].

    Besides the builder the file embeds the names of the material
    parameters ([constrainLength], [createSafeName]) and the traversal of
    the scene graph ([loadMesh], [loadNode], [applyGltfUpAxisTransform],
    [loadModelAnyThreadPart]).
    - A [std::string] is a list of 8-bit characters; [size_t] arithmetic is
      modulo 2^64.
    - The recursion of [loadNode] is not bounded by the source.  Its
      embedding takes the recursion depth it may use and returns a [Run]:
      a result, undefined behaviour, or the depth used up.
    - The matrices and quaternions of glm and the transforms of
      cesium-native are the fields of a record [Glm]. *)

From Stdlib Require Import ZArith List Bool Lia.
From Stdlib Require Import Floats.SpecFloat.
From stdpp Require Import base option list gmap strings pretty.

Set Default Proof Using "Type".

(** ** Loops *)

(** [for (i = start; i < bound; i += step) body], threading the state and
    stopping at the first failing step.  The recursion is on [fuel]; a loop
    with a positive step needs at most [bound - start] rounds. *)
Fixpoint for_step {St : Type} (fuel i bound step : nat)
    (body : nat → St → option St) (s : St) : option St :=
  match fuel with
  | O => Some s
  | S fuel' =>
      if decide (i < bound)
      then s' ← body i s; for_step fuel' (i + step) bound step body s'
      else Some s
  end.

Definition for_loop {St : Type} (start bound step : nat)
    (body : nat → St → option St) (s : St) : option St :=
  for_step (bound - start) start bound step body s.

(** ** Arrays *)

(** [a[i] = x] on a [TArray]: the write is range-checked. *)
Definition array_set {A : Type} (a : list A) (i : nat) (x : A) : option (list A) :=
  if decide (i < length a) then Some (<[i:=x]> a) else None.

(** [TArray::SetNum(n)] on a fresh array: [n] default-constructed elements;
    a negative count is a failed check. *)
Definition SetNum {A : Type} (dflt : A) (n : Z) : option (list A) :=
  if decide (0 ≤ n)%Z then Some (replicate (Z.to_nat n) dflt) else None.

(** Conversion of an integer to [uint32]. *)
Definition uint32 (z : Z) : Z := (z mod 2 ^ 32)%Z.

(** Conversion of an integer to [int32] (two's complement). *)
Definition int32 (z : Z) : Z := ((z + 2 ^ 31) mod 2 ^ 32 - 2 ^ 31)%Z.

(** Conversion of an integer to [uint16]. *)
Definition uint16 (z : Z) : Z := (z mod 2 ^ 16)%Z.

(** [std::numeric_limits<uint16>::max()]. *)
Definition UINT16_MAX : Z := 65535%Z.

(** ** Floating-point data *)

(** Single and double precision values.  A [float] widens to [double]
    without change, so both are the same IEEE-754 datum. *)
Definition float := spec_float.
Definition double := spec_float.

Definition float_mul : float → float → float := SFmul 24 128.

(** [std::numeric_limits<double>::max()] and [lowest()]. *)
Definition DBL_MAX : double := SFmax_float 53 1024.
Definition DBL_LOWEST : double := SFopp DBL_MAX.

(** [glm::min] and [glm::max]: [(y < x) ? y : x] and [(x < y) ? y : x]. *)
Definition glm_min (x y : double) : double := if SFltb y x then y else x.
Definition glm_max (x y : double) : double := if SFltb x y then y else x.

(** The integer part of a float, rounding toward zero; [None] on NaN and
    infinities. *)
Definition float_trunc (f : float) : option Z :=
  match f with
  | S754_zero _ => Some 0%Z
  | S754_finite s m e =>
      let a := match e with
               | Zneg p => Z.shiftr (Zpos m) (Zpos p)
               | _ => Z.shiftl (Zpos m) e
               end in
      Some (if s then - a else a)%Z
  | _ => None
  end.

(** [uint8_t(f)]: the truncated value when it is representable, undefined
    otherwise. *)
Definition float_to_uint8 (f : float) : option Z :=
  t ← float_trunc f;
  if decide (0 ≤ t ≤ 255)%Z then Some t else None.

Definition float_zero : float := S754_zero false.
Definition float_255 : float := S754_finite false 16711680 (-16).

(** ** Vectors, colours and build vertices *)

Record TMeshVector2 := MkVector2 { v2X : float; v2Y : float }.
Record TMeshVector3 := MkVector3 { vX : float; vY : float; vZ : float }.
Record TMeshVector4 :=
  MkVector4 { v4X : float; v4Y : float; v4Z : float; v4W : float }.
Record dvec3 := MkDvec3 { dx : double; dy : double; dz : double }.

Record FColor := MkColor { cR : Z; cG : Z; cB : Z; cA : Z }.

Definition zero2 : TMeshVector2 := MkVector2 float_zero float_zero.
Definition zero3 : TMeshVector3 := MkVector3 float_zero float_zero float_zero.

(** The engine's number of UV slots per build vertex. *)
Definition MAX_STATIC_TEXCOORDS : nat := 8.

Record FStaticMeshBuildVertex := MkVertex {
  Position : TMeshVector3;
  TangentX : TMeshVector3;
  TangentY : TMeshVector3;
  TangentZ : TMeshVector3;
  UVs : list TMeshVector2;
  Color : FColor;
}.

(** A vertex as [SetNum] leaves it; the fields that the builder leaves
    unwritten are taken as zero. *)
Definition defaultVertex : FStaticMeshBuildVertex :=
  MkVertex zero3 zero3 zero3 zero3
    (replicate MAX_STATIC_TEXCOORDS zero2) (MkColor 0 0 0 0).

Definition set_Position (p : TMeshVector3) (w : FStaticMeshBuildVertex) :=
  MkVertex p (TangentX w) (TangentY w) (TangentZ w) (UVs w) (Color w).
Definition set_TangentX (t : TMeshVector3) (w : FStaticMeshBuildVertex) :=
  MkVertex (Position w) t (TangentY w) (TangentZ w) (UVs w) (Color w).
Definition set_TangentY (t : TMeshVector3) (w : FStaticMeshBuildVertex) :=
  MkVertex (Position w) (TangentX w) t (TangentZ w) (UVs w) (Color w).
Definition set_TangentZ (t : TMeshVector3) (w : FStaticMeshBuildVertex) :=
  MkVertex (Position w) (TangentX w) (TangentY w) t (UVs w) (Color w).
Definition set_Color (c : FColor) (w : FStaticMeshBuildVertex) :=
  MkVertex (Position w) (TangentX w) (TangentY w) (TangentZ w) (UVs w) c.

(** [vertex.UVs[k] = uv]; the slot array has a fixed capacity. *)
Definition set_UV (k : nat) (uv : TMeshVector2) (w : FStaticMeshBuildVertex)
    : option FStaticMeshBuildVertex :=
  uvs ← array_set (UVs w) k uv;
  Some (MkVertex (Position w) (TangentX w) (TangentY w) (TangentZ w) uvs (Color w)).

(** ** Accessor views *)

Inductive AccessorViewStatus :=
  | Valid | InvalidAccessorIndex | InvalidBufferViewIndex | InvalidBufferIndex
  | BufferViewTooSmall | BufferTooSmall | WrongSizeT.

Global Instance AccessorViewStatus_eq_dec : EqDecision AccessorViewStatus.
Proof. solve_decision. Defined.

(** A typed read view: its status and, when valid, its elements.
    [operator[]] is range-checked. *)
Record AccessorView (T : Type) := MkView {
  status : AccessorViewStatus;
  elements : list T;
}.
Arguments MkView {T} _ _.
Arguments status {T} _.
Arguments elements {T} _.

Definition view_size {T} (view : AccessorView T) : Z :=
  Z.of_nat (length (elements view)).

Definition view_at {T} (view : AccessorView T) (i : Z) : option T :=
  if decide (0 ≤ i)%Z then elements view !! Z.to_nat i else None.
(** ** Index normalisation (loadPrimitive, "copy TRIANGLE indices" and
    "copy TRIANGLE_STRIP indices") *)

(** [CesiumGltf::MeshPrimitive::Mode]. *)
Inductive Mode :=
  | POINTS | LINES | LINE_LOOP | LINE_STRIP
  | TRIANGLES | TRIANGLE_STRIP | TRIANGLE_FAN.

Global Instance Mode_eq_dec : EqDecision Mode.
Proof. solve_decision. Defined.

Definition copyTriangleIndices (indicesView : list Z) : option (list Z) :=
  indices ← SetNum 0%Z (Z.of_nat (length indicesView));
  for_loop 0 (length indicesView) 1
    (λ i indices, v ← indicesView !! i; array_set indices i (uint32 v))
    indices.

Definition copyTriangleStripIndices (indicesView : list Z) : option (list Z) :=
  indices ← SetNum 0%Z (3 * (Z.of_nat (length indicesView) - 2));
  for_loop 0 (length indicesView - 2) 1
    (λ i indices,
       v0 ← indicesView !! i;
       v1 ← indicesView !! (i + 1);
       v2 ← indicesView !! (i + 2);
       if decide (i mod 2 ≠ 0) then
         indices ← array_set indices (3 * i) (uint32 v0);
         indices ← array_set indices (3 * i + 1) (uint32 v2);
         array_set indices (3 * i + 2) (uint32 v1)
       else
         indices ← array_set indices (3 * i) (uint32 v0);
         indices ← array_set indices (3 * i + 1) (uint32 v1);
         array_set indices (3 * i + 2) (uint32 v2))
    indices.

(** ** The glTF model as the builder reads it *)

Record TextureInfo := MkTextureInfo { index : Z; texCoord : Z }.
Record Texture := MkTexture { source : Z }.

Record MaterialPBRMetallicRoughness := MkPbr {
  baseColorTexture : option TextureInfo;
  metallicRoughnessTexture : option TextureInfo;
}.

Record Material := MkMaterial {
  pbrMetallicRoughness : option MaterialPBRMetallicRoughness;
  normalTexture : option TextureInfo;
  occlusionTexture : option TextureInfo;
  emissiveTexture : option TextureInfo;
}.

Definition defaultPbrMetallicRoughness : MaterialPBRMetallicRoughness :=
  MkPbr None None.
Definition defaultMaterial : Material := MkMaterial None None None None.

(** [Accessor::ComponentType] and [Accessor::Type]. *)
Inductive ComponentType :=
  | BYTE | UNSIGNED_BYTE | SHORT | UNSIGNED_SHORT | UNSIGNED_INT | FLOAT.

(** One component of an accessor element, tagged with its C++ type. *)
Inductive Component :=
  | CInt8 (z : Z) | CUInt8 (z : Z) | CInt16 (z : Z) | CUInt16 (z : Z)
  | CUInt32 (z : Z) | CFloat (f : float).

(** One element of an accessor, tagged with its [AccessorTypes] shape. *)
Inductive Element :=
  | SCALAR (c : Component)
  | VEC2 (c0 c1 : Component)
  | VEC3 (c0 c1 c2 : Component)
  | VEC4 (c0 c1 c2 c3 : Component)
  | MAT2 (cs : list Component)
  | MAT3 (cs : list Component)
  | MAT4 (cs : list Component).

(** What [createAccessorView] hands to its visitor: the [nullptr_t] view for
    an accessor it cannot type, a typed view otherwise. *)
Inductive AnyAccessorView :=
  | NullView
  | TypedView (view : AccessorView Element).

(** [CesiumUtility::JsonValue], as far as the builder inspects it. *)
Inductive JsonValue :=
  | JsonNull | JsonBool (b : bool) | JsonInt64 (z : Z) | JsonUint64 (z : Z)
  | JsonDouble (d : double) | JsonString (s : string) | JsonOther.

Record Accessor := MkAccessor {
  componentType : option ComponentType;
  min : list double;
  max : list double;
}.

(** The parsed model.  The typed views are what the accessor layer resolves
    for an accessor id; decoding them from buffers is outside this file. *)
Record Model := MkModel {
  accessors : list Accessor;
  textures : list Texture;
  images : list unit;
  materials : list Material;
  viewVector2 : Z → AccessorView TMeshVector2;
  viewVector3 : Z → AccessorView TMeshVector3;
  viewVector4 : Z → AccessorView TMeshVector4;
  viewIndices : Z → AccessorView Z;
  viewAny : Z → AnyAccessorView;
}.

Record MeshPrimitive := MkPrimitive {
  attributes : gmap string Z;
  indices_id : Z;
  material : Z;
  mode : Mode;
  extras : gmap string JsonValue;
}.

(** [Model::getSafe]. *)
Definition getSafe {A} (items : list A) (i : Z) : option A :=
  if decide (0 ≤ i)%Z then items !! Z.to_nat i else None.

(** The index source of the templated builder: an accessor view of one of
    the integer component types, or the synthetic [std::vector<uint32_t>]. *)
Inductive IndexAccessor :=
  | IndexView (view : AccessorView Z)
  | IndexVector (v : list Z).

Definition index_elements (ix : IndexAccessor) : list Z :=
  match ix with IndexView view => elements view | IndexVector v => v end.

(** ** Functions of the engine and of the libraries the builder calls *)

Record FBox := MkBox { BoxMin : dvec3; BoxMax : dvec3 }.

Record FBoxSphereBounds := MkBounds {
  Origin : dvec3;
  BoxExtent : dvec3;
  SphereRadius : float;
}.

(** One [m_setTSpaceBasic] callback: tangent, bitangent sign, face, corner. *)
Record TSpaceCall := MkTSpaceCall {
  tsTangent : TMeshVector3;
  tsSign : float;
  tsFace : nat;
  tsVert : nat;
}.

Record Engine := MkEngine {
  (** [TMeshVector3::CrossProduct], [operator-], [operator*] by a scalar and
      [GetSafeNormal]. *)
  CrossProduct : TMeshVector3 → TMeshVector3 → TMeshVector3;
  vsub : TMeshVector3 → TMeshVector3 → TMeshVector3;
  vscale : float → TMeshVector3 → TMeshVector3;
  GetSafeNormal : TMeshVector3 → TMeshVector3;
  (** [FBox::GetCenterAndExtents]. *)
  GetCenterAndExtents : FBox → dvec3 * dvec3;
  (** [FMath::Max((Position - Origin).Size(), SphereRadius)]. *)
  growRadius : TMeshVector3 → dvec3 → float → float;
  (** [genTangSpaceDefault]: from the face count and the three getters to the
      sequence of [m_setTSpaceBasic] callbacks it makes. *)
  genTangSpaceDefault :
    nat → (nat → nat) →
    (nat → nat → option TMeshVector3) →
    (nat → nat → option TMeshVector3) →
    (nat → nat → option TMeshVector2) → list TSpaceCall;
  (** [CesiumTextureUtility::loadTextureAnyThreadPart]: whether a texture
      loads. *)
  loadTextureAnyThreadPart : Model → Texture → bool;
}.

(** ** ColorVisitor *)

(** [convertElement(value, out)]: the overloads for [float], [uint8_t] and
    [uint16_t] write [out] and return [true]; the generic template returns
    [false] and leaves [out] alone. *)
Definition convertElement (value : Component) (out : Z) : option (bool * Z) :=
  match value with
  | CFloat f => o ← float_to_uint8 (float_mul f float_255); Some (true, o)
  | CUInt8 z => Some (true, z)
  | CUInt16 z => Some (true, (Z.quot z 256) mod 2 ^ 8)%Z
  | _ => Some (false, out)
  end.

(** [convertColor(color, out)], with the short-circuit of [&&]. *)
Definition convertColor (color : Element) (out : FColor) : option (bool * FColor) :=
  match color with
  | VEC3 c0 c1 c2 =>
      let out := MkColor (cR out) (cG out) (cB out) 255 in
      '(ok, r) ← convertElement c0 (cR out);
      let out := MkColor r (cG out) (cB out) (cA out) in
      if negb ok then Some (false, out) else
      '(ok, g) ← convertElement c1 (cG out);
      let out := MkColor (cR out) g (cB out) (cA out) in
      if negb ok then Some (false, out) else
      '(ok, b) ← convertElement c2 (cB out);
      Some (ok, MkColor (cR out) (cG out) b (cA out))
  | VEC4 c0 c1 c2 c3 =>
      '(ok, r) ← convertElement c0 (cR out);
      let out := MkColor r (cG out) (cB out) (cA out) in
      if negb ok then Some (false, out) else
      '(ok, g) ← convertElement c1 (cG out);
      let out := MkColor (cR out) g (cB out) (cA out) in
      if negb ok then Some (false, out) else
      '(ok, b) ← convertElement c2 (cB out);
      let out := MkColor (cR out) (cG out) b (cA out) in
      if negb ok then Some (false, out) else
      '(ok, a) ← convertElement c3 (cA out);
      Some (ok, MkColor (cR out) (cG out) (cB out) a)
  | _ => Some (false, out)
  end.

(** [ColorVisitor::operator()].  The loops run while [success] holds: once it
    is false the remaining rounds do nothing. *)
Definition ColorVisitor (duplicateVertices : bool)
    (StaticMeshBuildVertices : list FStaticMeshBuildVertex) (indices : list Z)
    (colorView : AnyAccessorView)
    : option (bool * list FStaticMeshBuildVertex) :=
  match colorView with
  | NullView => Some (false, StaticMeshBuildVertices)
  | TypedView colorView =>
      if decide (status colorView ≠ Valid)
      then Some (false, StaticMeshBuildVertices)
      else if duplicateVertices then
        for_loop 0 (length indices) 1
          (λ i '(success, vertices),
             if negb success then Some (success, vertices) else
             vertex ← vertices !! i;
             vertexIndex ← indices !! i;
             if decide (view_size colorView ≤ vertexIndex)%Z
             then Some (false, vertices)
             else
               color ← view_at colorView vertexIndex;
               '(ok, c) ← convertColor color (Color vertex);
               vertices ← array_set vertices i (set_Color c vertex);
               Some (ok, vertices))
          (true, StaticMeshBuildVertices)
      else
        for_loop 0 (length StaticMeshBuildVertices) 1
          (λ i '(success, vertices),
             if negb success then Some (success, vertices) else
             vertex ← vertices !! i;
             if decide (view_size colorView ≤ Z.of_nat i)%Z
             then Some (false, vertices)
             else
               color ← view_at colorView (Z.of_nat i);
               '(ok, c) ← convertColor color (Color vertex);
               vertices ← array_set vertices i (set_Color c vertex);
               Some (ok, vertices))
          (true, StaticMeshBuildVertices)
  end.

(** ** updateTextureCoordinates *)

(** The result of one consolidation: the returned index, the vertices and
    the accessor-id-to-channel map after the call. *)
Definition updateTextureCoordinates (model : Model) (primitive : MeshPrimitive)
    (duplicateVertices : bool) (vertices : list FStaticMeshBuildVertex)
    (indices : list Z) (attributeName : string)
    (textureCoordinateMap : gmap Z Z)
    : option (Z * list FStaticMeshBuildVertex * gmap Z Z) :=
  match attributes primitive !! attributeName with
  | None => Some (0%Z, vertices, textureCoordinateMap)
  | Some uvAccessorID =>
      match textureCoordinateMap !! uint32 uvAccessorID with
      | Some channel => Some (channel, vertices, textureCoordinateMap)
      | None =>
          let textureCoordinateIndex := size textureCoordinateMap in
          let textureCoordinateMap :=
            <[uint32 uvAccessorID := uint32 (Z.of_nat textureCoordinateIndex)]>
              textureCoordinateMap in
          let uvAccessor := viewVector2 model uvAccessorID in
          if decide (status uvAccessor ≠ Valid)
          then Some (0%Z, vertices, textureCoordinateMap)
          else
            vertices ←
              (if duplicateVertices then
                 for_loop 0 (length indices) 1
                   (λ i vertices,
                      vertex ← vertices !! i;
                      vertexIndex ← indices !! i;
                      uv ← (if decide (0 ≤ vertexIndex < view_size uvAccessor)%Z
                            then view_at uvAccessor vertexIndex
                            else Some zero2);
                      vertex ← set_UV textureCoordinateIndex uv vertex;
                      array_set vertices i vertex)
                   vertices
               else
                 for_loop 0 (length vertices) 1
                   (λ i vertices,
                      vertex ← vertices !! i;
                      uv ← (if decide (0 ≤ Z.of_nat i < view_size uvAccessor)%Z
                            then view_at uvAccessor (Z.of_nat i)
                            else Some zero2);
                      vertex ← set_UV textureCoordinateIndex uv vertex;
                      array_set vertices i vertex)
                   vertices);
            Some (uint32 (Z.of_nat textureCoordinateIndex), vertices,
                  textureCoordinateMap)
      end
  end.

(** The overload for an optional texture: the attribute is
    ["TEXCOORD_" + std::to_string(texCoord)]. *)
Definition updateTextureCoordinates_texture (model : Model)
    (primitive : MeshPrimitive) (duplicateVertices : bool)
    (vertices : list FStaticMeshBuildVertex) (indices : list Z)
    (texture : option TextureInfo) (textureCoordinateMap : gmap Z Z)
    : option (Z * list FStaticMeshBuildVertex * gmap Z Z) :=
  match texture with
  | None => Some (0%Z, vertices, textureCoordinateMap)
  | Some t =>
      updateTextureCoordinates model primitive duplicateVertices vertices
        indices ("TEXCOORD_" +:+ pretty (texCoord t)) textureCoordinateMap
  end.

(** ** Tangent space through the mikktspace callbacks *)

Definition mikkGetNumFaces (vertices : list FStaticMeshBuildVertex) : nat :=
  length vertices / 3.

Definition mikkGetNumVertsOfFace (vertices : list FStaticMeshBuildVertex)
    (FaceIdx : nat) : nat :=
  if decide (FaceIdx < length vertices / 3) then 3 else 0.

Definition mikkGetPosition (vertices : list FStaticMeshBuildVertex)
    (FaceIdx VertIdx : nat) : option TMeshVector3 :=
  Position <$> vertices !! (FaceIdx * 3 + VertIdx).

Definition mikkGetNormal (vertices : list FStaticMeshBuildVertex)
    (FaceIdx VertIdx : nat) : option TMeshVector3 :=
  TangentZ <$> vertices !! (FaceIdx * 3 + VertIdx).

Definition mikkGetTexCoord (vertices : list FStaticMeshBuildVertex)
    (FaceIdx VertIdx : nat) : option TMeshVector2 :=
  vertex ← vertices !! (FaceIdx * 3 + VertIdx); UVs vertex !! 0.

Definition mikkSetTSpaceBasic (E : Engine)
    (vertices : list FStaticMeshBuildVertex) (call : TSpaceCall)
    : option (list FStaticMeshBuildVertex) :=
  let k := tsFace call * 3 + tsVert call in
  vertex ← vertices !! k;
  let vertex := set_TangentX (tsTangent call) vertex in
  let vertex :=
    set_TangentY
      (vscale E (tsSign call)
         (CrossProduct E (TangentZ vertex) (TangentX vertex))) vertex in
  array_set vertices k vertex.

Definition computeTangentSpace (E : Engine)
    (vertices : list FStaticMeshBuildVertex)
    : option (list FStaticMeshBuildVertex) :=
  foldl (λ acc call, vs ← acc; mikkSetTSpaceBasic E vs call) (Some vertices)
    (genTangSpaceDefault E (mikkGetNumFaces vertices)
       (mikkGetNumVertsOfFace vertices) (mikkGetPosition vertices)
       (mikkGetNormal vertices) (mikkGetTexCoord vertices)).

(** ** computeFlatNormals *)

Definition computeFlatNormals (E : Engine) (indices : list Z)
    (vertices : list FStaticMeshBuildVertex)
    : option (list FStaticMeshBuildVertex) :=
  for_loop 0 (length indices) 3
    (λ i vertices,
       v0 ← vertices !! i;
       v1 ← vertices !! (i + 1);
       v2 ← vertices !! (i + 2);
       let v01 := vsub E (Position v1) (Position v0) in
       let v02 := vsub E (Position v2) (Position v0) in
       let normal := CrossProduct E v01 v02 in
       let flat w :=
         set_TangentZ (GetSafeNormal E normal)
           (set_TangentY zero3 (set_TangentX zero3 w)) in
       vertices ← array_set vertices i (flat v0);
       vertices ← array_set vertices (i + 1) (flat v1);
       array_set vertices (i + 2) (flat v2))
    vertices.

(** ** loadTexture and applyWaterMask *)

(** [loadTexture]: whether the returned pointer is non-null. *)
Definition loadTexture (E : Engine) (model : Model)
    (gltfTexture : option TextureInfo) : bool :=
  match gltfTexture with
  | None => false
  | Some t =>
      match getSafe (textures model) (index t) with
      | None => false
      | Some texture => loadTextureAnyThreadPart E model texture
      end
  end.

Definition isBool (j : JsonValue) : bool :=
  match j with JsonBool _ => true | _ => false end.
Definition getBoolOrDefault (j : JsonValue) (d : bool) : bool :=
  match j with JsonBool b => b | _ => d end.
Definition isInt64 (j : JsonValue) : bool :=
  match j with JsonInt64 _ => true | _ => false end.
Definition getInt64OrDefault (j : JsonValue) (d : Z) : Z :=
  match j with JsonInt64 z => z | _ => d end.

Record WaterMask := MkWaterMask {
  wm_onlyWater : bool;
  wm_onlyLand : bool;
  wm_waterMaskTexture : bool;
  wm_trace : list string;
}.

(** [applyWaterMask], up to the three fields the builder reads back.  The
    water-mask texture of a fresh result is null. *)
Definition applyWaterMask (E : Engine) (model : Model)
    (primitive : MeshPrimitive) : WaterMask :=
  match extras primitive !! "OnlyWater", extras primitive !! "OnlyLand" with
  | Some ow, Some ol =>
      if isBool ow && isBool ol then
        let onlyWater := getBoolOrDefault ow false in
        let onlyLand := getBoolOrDefault ol true in
        let texture :=
          if negb onlyWater && negb onlyLand then
            match extras primitive !! "WaterMaskTex" with
            | Some j =>
                if isInt64 j then
                  let waterMaskTextureId := int32 (getInt64OrDefault j (-1)) in
                  if decide (0 ≤ waterMaskTextureId
                             < Z.of_nat (length (textures model)))%Z
                  then loadTexture E model
                         (Some (MkTextureInfo waterMaskTextureId 0))
                  else false
                else false
            | None => false
            end
          else false in
        MkWaterMask onlyWater onlyLand texture ["water mask"]
      else MkWaterMask false true false []
  | _, _ => MkWaterMask false true false []
  end.

(** ** Stages of loadPrimitive *)

(** "compute AA bounding box": the declared bounds when both have three
    components, the running minimum and maximum over the view otherwise. *)
Definition computeAABox (positionAccessor : Accessor)
    (positionView : AccessorView TMeshVector3) : option FBox :=
  let minPosition := MkDvec3 DBL_MAX DBL_MAX DBL_MAX in
  let maxPosition := MkDvec3 DBL_LOWEST DBL_LOWEST DBL_LOWEST in
  if decide (length (min positionAccessor) ≠ 3 ∨
             length (max positionAccessor) ≠ 3)
  then
    '(minPosition, maxPosition) ←
      for_loop 0 (length (elements positionView)) 1
        (λ i '(minPosition, maxPosition),
           p ← view_at positionView (Z.of_nat i);
           Some (MkDvec3 (glm_min (dx minPosition) (vX p))
                         (glm_min (dy minPosition) (vY p))
                         (glm_min (dz minPosition) (vZ p)),
                 MkDvec3 (glm_max (dx maxPosition) (vX p))
                         (glm_max (dy maxPosition) (vY p))
                         (glm_max (dz maxPosition) (vZ p))))
        (minPosition, maxPosition);
    Some (MkBox minPosition maxPosition)
  else
    match min positionAccessor, max positionAccessor with
    | [min0; min1; min2], [max0; max1; max2] =>
        Some (MkBox (MkDvec3 min0 min1 min2) (MkDvec3 max0 max1 max2))
    | _, _ => None
    end.

(** "copy TRIANGLE indices" or "copy TRIANGLE_STRIP indices"; every other
    mode was rejected before. *)
Definition copyIndices (m : Mode) (indicesView : list Z) : option (list Z) :=
  if decide (m = TRIANGLES) then copyTriangleIndices indicesView
  else copyTriangleStripIndices indicesView.

(** "copy duplicated positions" and "copy positions".  The state is the
    vertex array and the running sphere radius. *)
Definition copyPositions (E : Engine) (duplicateVertices : bool)
    (positionView : AccessorView TMeshVector3) (indices : list Z)
    (origin : dvec3) (StaticMeshBuildVertices : list FStaticMeshBuildVertex)
    : option (list FStaticMeshBuildVertex * float) :=
  if duplicateVertices then
    for_loop 0 (length indices) 1
      (λ i '(vertices, radius),
         vertex ← vertices !! i;
         vertexIndex ← indices !! i;
         p ← view_at positionView vertexIndex;
         let vertex := set_Position p vertex in
         vertex ← set_UV 0 zero2 vertex;
         vertex ← set_UV 2 zero2 vertex;
         vertices ← array_set vertices i vertex;
         Some (vertices, growRadius E (Position vertex) origin radius))
      (StaticMeshBuildVertices, float_zero)
  else
    for_loop 0 (length StaticMeshBuildVertices) 1
      (λ i '(vertices, radius),
         vertex ← vertices !! i;
         p ← view_at positionView (Z.of_nat i);
         let vertex := set_Position p vertex in
         vertex ← set_UV 0 zero2 vertex;
         vertex ← set_UV 2 zero2 vertex;
         vertices ← array_set vertices i vertex;
         Some (vertices, growRadius E (Position vertex) origin radius))
      (StaticMeshBuildVertices, float_zero).

(** "copy normals for duplicated vertices" and "copy normals". *)
Definition copyNormals (duplicateVertices : bool)
    (normalAccessor : AccessorView TMeshVector3) (indices : list Z)
    (StaticMeshBuildVertices : list FStaticMeshBuildVertex)
    : option (list FStaticMeshBuildVertex) :=
  let store vertex n :=
    set_TangentZ n (set_TangentY zero3 (set_TangentX zero3 vertex)) in
  if duplicateVertices then
    for_loop 0 (length indices) 1
      (λ i vertices,
         vertex ← vertices !! i;
         vertexIndex ← indices !! i;
         n ← view_at normalAccessor vertexIndex;
         array_set vertices i (store vertex n))
      StaticMeshBuildVertices
  else
    for_loop 0 (length StaticMeshBuildVertices) 1
      (λ i vertices,
         vertex ← vertices !! i;
         n ← view_at normalAccessor (Z.of_nat i);
         array_set vertices i (store vertex n))
      StaticMeshBuildVertices.

(** "copy tangents for duplicated vertices" and "copy tangents". *)
Definition copyTangents (E : Engine) (duplicateVertices : bool)
    (tangentAccessor : AccessorView TMeshVector4) (indices : list Z)
    (StaticMeshBuildVertices : list FStaticMeshBuildVertex)
    : option (list FStaticMeshBuildVertex) :=
  let store vertex (tangent : TMeshVector4) :=
    let vertex :=
      set_TangentX (MkVector3 (v4X tangent) (v4Y tangent) (v4Z tangent))
        vertex in
    set_TangentY
      (vscale E (v4W tangent)
         (CrossProduct E (TangentZ vertex) (TangentX vertex))) vertex in
  if duplicateVertices then
    for_loop 0 (length indices) 1
      (λ i vertices,
         vertex ← vertices !! i;
         vertexIndex ← indices !! i;
         tangent ← view_at tangentAccessor vertexIndex;
         array_set vertices i (store vertex tangent))
      StaticMeshBuildVertices
  else
    for_loop 0 (length StaticMeshBuildVertices) 1
      (λ i vertices,
         vertex ← vertices !! i;
         tangent ← view_at tangentAccessor (Z.of_nat i);
         array_set vertices i (store vertex tangent))
      StaticMeshBuildVertices.

(** "reverse winding order of duplicated vertices" and "reverse winding
    order". *)
Definition reverseWinding (duplicateVertices : bool) (indices : list Z)
    : option (list Z) :=
  if duplicateVertices then
    for_loop 2 (length indices) 3
      (λ i indices,
         indices ← array_set indices (i - 2) (Z.of_nat i);
         indices ← array_set indices (i - 1) (Z.of_nat (i - 1));
         array_set indices i (Z.of_nat (i - 2)))
      indices
  else
    for_loop 2 (length indices) 3
      (λ i indices,
         a ← indices !! (i - 2);
         b ← indices !! i;
         indices ← array_set indices (i - 2) b;
         array_set indices i a)
      indices.

(** ** Collision meshes *)

Inductive PhysicsInterface :=
  | PhysX (pPhysXCooking : bool)
  | Chaos.

Inductive IndexWidth := Narrow16 | Wide32.

Inductive CollisionMesh :=
  | PhysXTriMesh (vertices : list TMeshVector3)
      (physicsIndices : list (Z * Z * Z))
  | ChaosTriMesh (particles : list TMeshVector3) (width : IndexWidth)
      (triangles : list (Z * Z * Z)) (materials : list Z)
      (faceRemap : list Z).

(** [BuildPhysXTriangleMeshes]: the vertex and triangle arrays handed to
    [CreateTriMesh]; nothing is built without a cooker. *)
Definition BuildPhysXTriangleMeshes (pPhysXCooking : bool)
    (vertexData : list FStaticMeshBuildVertex) (indices : list Z)
    : option (option CollisionMesh) :=
  if pPhysXCooking then
    let vertexCount := length vertexData in
    let triangleCount := length indices / 3 in
    vertices ←
      for_loop 0 vertexCount 1
        (λ i vertices, w ← vertexData !! i; array_set vertices i (Position w))
        (replicate vertexCount zero3);
    physicsIndices ←
      for_loop 0 triangleCount 1
        (λ i tris,
           v0 ← indices !! (3 * i);
           v1 ← indices !! (3 * i + 1);
           v2 ← indices !! (3 * i + 2);
           array_set tris i (int32 v0, int32 v1, int32 v2))
        (replicate triangleCount (0, 0, 0)%Z);
    Some (Some (PhysXTriMesh vertices physicsIndices))
  else Some None.

(** [fillTriangles<TIndex>]; [cast] is the conversion to [TIndex], which
    also applies to the loop counter and to [index0]. *)
Definition fillTriangles (cast : Z → Z) (indices : list Z)
    (triangleCount : Z) : option (list (Z * Z * Z)) :=
  for_loop 0 (Z.to_nat (cast triangleCount)) 1
    (λ i triangles,
       let index0 := cast (3 * Z.of_nat i)%Z in
       a ← indices !! Z.to_nat (index0 + 1);
       b ← indices !! Z.to_nat index0;
       c ← indices !! Z.to_nat (index0 + 2);
       Some (triangles ++ [(cast a, cast b, cast c)]))
    [].

Definition BuildChaosTriangleMeshes
    (vertexData : list FStaticMeshBuildVertex) (indices : list Z)
    : option CollisionMesh :=
  let vertexCount := length vertexData in
  let triangleCount := length indices / 3 in
  vertices ←
    for_loop 0 vertexCount 1
      (λ i vertices, w ← vertexData !! i; array_set vertices i (Position w))
      (replicate vertexCount zero3);
  let materials := replicate triangleCount 0%Z in
  faceRemap ←
    for_loop 0 triangleCount 1
      (λ i faceRemap, array_set faceRemap i (Z.of_nat i))
      (replicate triangleCount 0%Z);
  if decide (Z.of_nat vertexCount < UINT16_MAX)%Z then
    triangles ← fillTriangles uint16 indices (Z.of_nat triangleCount);
    Some (ChaosTriMesh vertices Narrow16 triangles materials faceRemap)
  else
    triangles ← fillTriangles int32 indices (Z.of_nat triangleCount);
    Some (ChaosTriMesh vertices Wide32 triangles materials faceRemap).

(** ** loadPrimitive *)

Record CreateModelOptions := MkOptions {
  alwaysIncludeTangents : bool;
  physics : PhysicsInterface;
  (** The size of [overlayTextureCoordinateIDToUVIndex]. *)
  overlaySlots : nat;
}.

Inductive IndexBufferStride := Force16Bit | Force32Bit.

Inductive SkipReason :=
  | UnsupportedMode | InvalidPositionBuffer | InvalidIndicesBuffer
  | NoPositionAttribute | NoPositionAccessor | UnsupportedIndexType.

(** What the builder leaves in [LoadPrimitiveResult] and in the render data
    it owns.  The name, the transform, the loaded material textures and the
    metadata are left out: no geometry depends on them. *)
Record LoadPrimitiveResult := MkResult {
  res_onlyWater : bool;
  res_onlyLand : bool;
  res_waterMaskTexture : bool;
  res_Bounds : FBoxSphereBounds;
  res_vertices : list FStaticMeshBuildVertex;
  res_hasColorVertexData : bool;
  res_numTexCoords : nat;
  res_textureCoordinateParameters : gmap string Z;
  res_overlayTextureCoordinateIDToUVIndex : list Z;
  res_NumTriangles : nat;
  res_MaxVertexIndex : Z;
  res_indices : list Z;
  res_stride : IndexBufferStride;
  res_pCollisionMesh : option CollisionMesh;
  (** The [CESIUM_TRACE] scopes entered, in order. *)
  res_trace : list string;
}.

Inductive LoadOutcome :=
  | Skipped (why : SkipReason)
  | Loaded (r : LoadPrimitiveResult).

(** A default-constructed view. *)
Definition noView {T} : AccessorView T := MkView InvalidAccessorIndex [].

Definition normalAccessor (model : Model) (primitive : MeshPrimitive)
    : AccessorView TMeshVector3 :=
  match attributes primitive !! "NORMAL" with
  | Some normalAccessorID => viewVector3 model normalAccessorID
  | None => noView
  end.

Definition hasNormals (model : Model) (primitive : MeshPrimitive) : bool :=
  match attributes primitive !! "NORMAL" with
  | Some _ => bool_decide (status (normalAccessor model primitive) = Valid)
  | None => false
  end.

Definition tangentAccessor (model : Model) (primitive : MeshPrimitive)
    : AccessorView TMeshVector4 :=
  match attributes primitive !! "TANGENT" with
  | Some tangentAccessorID => viewVector4 model tangentAccessorID
  | None => noView
  end.

Definition hasTangents (model : Model) (primitive : MeshPrimitive) : bool :=
  match attributes primitive !! "TANGENT" with
  | Some _ => bool_decide (status (tangentAccessor model primitive) = Valid)
  | None => false
  end.

Definition primitiveMaterial (model : Model) (primitive : MeshPrimitive)
    : Material :=
  default defaultMaterial (getSafe (materials model) (material primitive)).

Definition hasNormalMap (model : Model) (primitive : MeshPrimitive) : bool :=
  match normalTexture (primitiveMaterial model primitive) with
  | None => false
  | Some t =>
      match getSafe (textures model) (index t) with
      | None => false
      | Some pTexture => bool_decide (is_Some (getSafe (images model) (source pTexture)))
      end
  end.

Definition needsTangents (E : Engine) (options : CreateModelOptions)
    (model : Model) (primitive : MeshPrimitive) : bool :=
  let needsTangents :=
    hasNormalMap model primitive || alwaysIncludeTangents options in
  let wm := applyWaterMask E model primitive in
  if wm_onlyWater wm || wm_waterMaskTexture wm then true else needsTangents.

Definition duplicateVertices (E : Engine) (options : CreateModelOptions)
    (model : Model) (primitive : MeshPrimitive) : bool :=
  negb (hasNormals model primitive)
  || (needsTangents E options model primitive
      && negb (hasTangents model primitive)).

(** The five material slots in the order they are consolidated. *)
Definition materialSlots (model : Model) (primitive : MeshPrimitive)
    : list (string * option TextureInfo) :=
  let material := primitiveMaterial model primitive in
  let pbr := default defaultPbrMetallicRoughness (pbrMetallicRoughness material) in
  [ ("baseColorTextureCoordinateIndex", baseColorTexture pbr);
    ("metallicRoughnessTextureCoordinateIndex", metallicRoughnessTexture pbr);
    ("normalTextureCoordinateIndex", normalTexture material);
    ("occlusionTextureCoordinateIndex", occlusionTexture material);
    ("emissiveTextureCoordinateIndex", emissiveTexture material) ].

(** The state threaded through the consolidation block. *)
Record UvState := MkUvState {
  uv_vertices : list FStaticMeshBuildVertex;
  uv_map : gmap Z Z;
  uv_parameters : gmap string Z;
  uv_overlay : list Z;
}.

Definition updateMaterialSlot (model : Model) (primitive : MeshPrimitive)
    (dup : bool) (indices : list Z) (s : UvState)
    (slot : string * option TextureInfo) : option UvState :=
  '(k, vertices, m) ←
    updateTextureCoordinates_texture model primitive dup (uv_vertices s)
      indices slot.2 (uv_map s);
  Some (MkUvState vertices m (<[slot.1 := k]> (uv_parameters s)) (uv_overlay s)).

Definition updateOverlaySlot (model : Model) (primitive : MeshPrimitive)
    (dup : bool) (indices : list Z) (i : nat) (s : UvState) : option UvState :=
  let attributeName := "_CESIUMOVERLAY_" +:+ pretty i in
  match attributes primitive !! attributeName with
  | Some _ =>
      '(k, vertices, m) ←
        updateTextureCoordinates model primitive dup (uv_vertices s) indices
          attributeName (uv_map s);
      overlay ← array_set (uv_overlay s) i k;
      Some (MkUvState vertices m (uv_parameters s) overlay)
  | None =>
      overlay ← array_set (uv_overlay s) i 0%Z;
      Some (MkUvState (uv_vertices s) (uv_map s) (uv_parameters s) overlay)
  end.

(** The block traced as "updateTextureCoordinates". *)
Definition consolidateTextureCoordinates (model : Model)
    (primitive : MeshPrimitive) (dup : bool) (indices : list Z)
    (overlays : nat) (vertices : list FStaticMeshBuildVertex)
    : option UvState :=
  s ← foldl (λ acc slot, s ← acc; updateMaterialSlot model primitive dup indices s slot)
        (Some (MkUvState vertices ∅ ∅ (replicate overlays 0%Z)))
        (materialSlots model primitive);
  for_loop 0 overlays 1 (updateOverlaySlot model primitive dup indices) s.

(** The indices after topology normalisation, before winding reversal. *)
Definition normalizedIndices (primitive : MeshPrimitive)
    (indicesView : IndexAccessor) : option (list Z) :=
  copyIndices (mode primitive) (index_elements indicesView).

(** The vertex array after every per-vertex pass (positions, colours,
    texture coordinates, normals, tangents), with the flag for vertex
    colours, the consolidation state and the sphere radius. *)
Definition buildVertices (E : Engine) (options : CreateModelOptions)
    (model : Model) (primitive : MeshPrimitive)
    (positionView : AccessorView TMeshVector3) (origin : dvec3)
    (indices : list Z)
    : option (bool * UvState * float) :=
  let dup := duplicateVertices E options model primitive in
  StaticMeshBuildVertices ←
    SetNum defaultVertex
      (if dup then Z.of_nat (length indices) else view_size positionView);
  '(StaticMeshBuildVertices, radius) ←
    copyPositions E dup positionView indices origin StaticMeshBuildVertices;
  '(hasVertexColors, StaticMeshBuildVertices) ←
    match attributes primitive !! "COLOR_0" with
    | Some colorAccessorID =>
        ColorVisitor dup StaticMeshBuildVertices indices
          (viewAny model colorAccessorID)
    | None => Some (false, StaticMeshBuildVertices)
    end;
  uv ←
    consolidateTextureCoordinates model primitive dup indices
      (overlaySlots options) StaticMeshBuildVertices;
  StaticMeshBuildVertices ←
    (if hasNormals model primitive
     then copyNormals dup (normalAccessor model primitive) indices
            (uv_vertices uv)
     else computeFlatNormals E indices (uv_vertices uv));
  StaticMeshBuildVertices ←
    (if hasTangents model primitive
     then copyTangents E dup (tangentAccessor model primitive) indices
            StaticMeshBuildVertices
     else Some StaticMeshBuildVertices);
  StaticMeshBuildVertices ←
    (if needsTangents E options model primitive
        && negb (hasTangents model primitive)
     then computeTangentSpace E StaticMeshBuildVertices
     else Some StaticMeshBuildVertices);
  Some (hasVertexColors,
        MkUvState StaticMeshBuildVertices (uv_map uv) (uv_parameters uv)
          (uv_overlay uv),
        radius).

(** The collision mesh cooked from the final vertices and the final
    (winding-reversed) indices. *)
Definition buildCollisionMesh (options : CreateModelOptions)
    (StaticMeshBuildVertices : list FStaticMeshBuildVertex)
    (indices : list Z) : option (option CollisionMesh) :=
  if decide (length StaticMeshBuildVertices ≠ 0 ∧ length indices ≠ 0) then
    match physics options with
    | PhysX pPhysXCooking =>
        BuildPhysXTriangleMeshes pPhysXCooking StaticMeshBuildVertices indices
    | Chaos => Some <$> BuildChaosTriangleMeshes StaticMeshBuildVertices indices
    end
  else Some None.

Definition loadTrace (E : Engine) (options : CreateModelOptions)
    (model : Model) (primitive : MeshPrimitive) (cooked : bool)
    : list string :=
  let dup := duplicateVertices E options model primitive in
  ["loadPrimitive<T>"]
  ++ wm_trace (applyWaterMask E model primitive)
  ++ ["compute AA bounding box"]
  ++ [if decide (mode primitive = TRIANGLES) then "copy TRIANGLE indices"
      else "copy TRIANGLE_STRIP indices"]
  ++ [if dup then "copy duplicated positions" else "copy positions"]
  ++ (if decide (is_Some (attributes primitive !! "COLOR_0"))
      then ["copy colors"] else [])
  ++ ["loadTextures"; "updateTextureCoordinates"]
  ++ [if hasNormals model primitive
      then (if dup then "copy normals for duplicated vertices"
            else "copy normals")
      else "compute flat normals"]
  ++ (if hasTangents model primitive
      then [if dup then "copy tangents for duplicated vertices"
            else "copy tangents"]
      else [])
  ++ (if needsTangents E options model primitive
         && negb (hasTangents model primitive)
      then ["compute tangents"] else [])
  ++ ["init buffers"]
  ++ [if dup then "reverse winding order of duplicated vertices"
      else "reverse winding order"]
  ++ ["SetIndices"]
  ++ (if cooked
      then [match physics options with
            | PhysX _ => "PhysX cook" | Chaos => "Chaos cook" end]
      else []).

(** [loadPrimitive<TIndexAccessor>]. *)
Definition loadPrimitive (E : Engine) (options : CreateModelOptions)
    (model : Model) (primitive : MeshPrimitive)
    (positionAccessor : Accessor) (positionView : AccessorView TMeshVector3)
    (indicesView : IndexAccessor) : option LoadOutcome :=
  if decide (mode primitive ≠ TRIANGLES ∧ mode primitive ≠ TRIANGLE_STRIP)
  then Some (Skipped UnsupportedMode)
  else if decide (status positionView ≠ Valid)
  then Some (Skipped InvalidPositionBuffer)
  else if match indicesView with
          | IndexView view => bool_decide (status view ≠ Valid)
          | IndexVector _ => false
          end
  then Some (Skipped InvalidIndicesBuffer)
  else
    let wm := applyWaterMask E model primitive in
    aaBox ← computeAABox positionAccessor positionView;
    let '(origin, extent) := GetCenterAndExtents E aaBox in
    indices ← normalizedIndices primitive indicesView;
    '(hasVertexColors, uv, radius) ←
      buildVertices E options model primitive positionView origin indices;
    let StaticMeshBuildVertices := uv_vertices uv in
    let NumTriangles := length indices / 3 in
    indices ← reverseWinding (duplicateVertices E options model primitive) indices;
    let stride :=
      if decide (UINT16_MAX ≤ Z.of_nat (length StaticMeshBuildVertices))%Z
      then Force32Bit else Force16Bit in
    pCollisionMesh ← buildCollisionMesh options StaticMeshBuildVertices indices;
    Some (Loaded
      {| res_onlyWater := wm_onlyWater wm;
         res_onlyLand := wm_onlyLand wm;
         res_waterMaskTexture := wm_waterMaskTexture wm;
         res_Bounds := MkBounds origin extent radius;
         res_vertices := StaticMeshBuildVertices;
         res_hasColorVertexData := hasVertexColors;
         res_numTexCoords :=
           if decide (size (uv_map uv) = 0) then 1 else size (uv_map uv);
         res_textureCoordinateParameters := uv_parameters uv;
         res_overlayTextureCoordinateIDToUVIndex := uv_overlay uv;
         res_NumTriangles := NumTriangles;
         res_MaxVertexIndex := Z.of_nat (length StaticMeshBuildVertices) - 1;
         res_indices := indices;
         res_stride := stride;
         res_pCollisionMesh := pCollisionMesh;
         res_trace :=
           loadTrace E options model primitive
             (bool_decide (length StaticMeshBuildVertices ≠ 0
                           ∧ length indices ≠ 0)) |}).

(** [loadIndexedPrimitive]: the index view is typed by the component type
    of the index accessor; any other component type loads nothing. *)
Definition loadIndexedPrimitive (E : Engine) (options : CreateModelOptions)
    (model : Model) (primitive : MeshPrimitive)
    (positionAccessor : Accessor) (positionView : AccessorView TMeshVector3)
    : option LoadOutcome :=
  indexAccessorGltf ← getSafe (accessors model) (indices_id primitive);
  match componentType indexAccessorGltf with
  | Some (BYTE | UNSIGNED_BYTE | SHORT | UNSIGNED_SHORT | UNSIGNED_INT) =>
      loadPrimitive E options model primitive positionAccessor positionView
        (IndexView (viewIndices model (indices_id primitive)))
  | _ => Some (Skipped UnsupportedIndexType)
  end.

(** [loadPrimitive(result, transform, options)]: the entry point for one
    mesh primitive. *)
Definition loadMeshPrimitive (E : Engine) (options : CreateModelOptions)
    (model : Model) (primitive : MeshPrimitive) : option LoadOutcome :=
  match attributes primitive !! "POSITION" with
  | None => Some (Skipped NoPositionAttribute)
  | Some positionAccessorID =>
      match getSafe (accessors model) positionAccessorID with
      | None => Some (Skipped NoPositionAccessor)
      | Some pPositionAccessor =>
          let positionView := viewVector3 model positionAccessorID in
          if decide (indices_id primitive < 0
                     ∨ Z.of_nat (length (accessors model)) ≤ indices_id primitive)%Z
          then
            let syntheticIndexBuffer :=
              Z.of_nat <$> seq 0 (length (elements positionView)) in
            loadPrimitive E options model primitive pPositionAccessor
              positionView (IndexVector syntheticIndexBuffer)
          else
            loadIndexedPrimitive E options model primitive pPositionAccessor
              positionView
      end
  end.

(** ** Names (constrainLength, createSafeName) *)

(** A [std::string] is a sequence of characters.  [size_t] arithmetic is
    modulo 2^64. *)
Definition std_string : Type := list Ascii.ascii.

Definition size_t (z : Z) : Z := (z mod 2 ^ 64)%Z.

(** [s.length()]. *)
Definition str_length (s : std_string) : Z := Z.of_nat (length s).

(** [s.substr(pos, n)]: the characters from [pos] on, at most [n] of them; a
    start behind the end throws [std::out_of_range]. *)
Definition substr (s : std_string) (pos n : Z) : option (std_string) :=
  if decide (pos ≤ str_length s)%Z
  then Some (take (Z.to_nat n) (drop (Z.to_nat pos) s))
  else None.

Definition ellipsis : std_string := String.list_ascii_of_string "...".

(** [constrainLength(s, maxLength)]. *)
Definition constrainLength (s : std_string) (maxLength : Z)
    : option (std_string) :=
  if decide (str_length s ≤ maxLength)%Z then Some s
  else if decide (maxLength ≤ 3)%Z then substr s 0 maxLength
  else
    let prefixLength :=
      (size_t (size_t (maxLength - str_length ellipsis) + 1) / 2)%Z in
    let suffixLength := (size_t (maxLength - str_length ellipsis) / 2)%Z in
    prefix ← substr s 0 prefixLength;
    suffix ← substr s (size_t (str_length s - suffixLength)) suffixLength;
    Some ((prefix ++ ellipsis) ++ suffix).

(** [s.c_str()] read as a C string: the characters before the first NUL. *)
Fixpoint c_str (s : std_string) : std_string :=
  match s with
  | [] => []
  | c :: s => if decide (c = Ascii.zero) then [] else c :: c_str s
  end.

(** [createSafeName(prefix, suffix, maxLength)]: the characters that the
    [FName] is made of. *)
Definition createSafeName (prefix suffix : std_string) (maxLength : Z)
    : option (std_string) :=
  constrainedPrefix ←
    constrainLength prefix (size_t (maxLength - str_length suffix));
  let combined := constrainedPrefix ++ suffix in
  Some (c_str combined).

(** ** The scene graph (loadMesh, loadNode, loadModelAnyThreadPart) *)

Record Mesh := MkMesh { primitives : list MeshPrimitive }.

Record Node := MkNode {
  matrix : list double;
  translation : list double;
  rotation : list double;
  scale : list double;
  mesh : Z;
  children : list Z;
}.

Record Scene := MkScene { scene_nodes : list Z }.

(** What the traversal reads of the model besides the accessors, textures
    and materials of [Model]. *)
Record SceneGraph := MkSceneGraph {
  graph_model : Model;
  meshes : list Mesh;
  nodes : list Node;
  scenes : list Scene;
  scene : Z;
  model_extras : gmap string JsonValue;
}.

(** The glm and cesium-native operations on transforms that the traversal
    calls. *)
Record Glm := MkGlm {
  dmat4x4 : Type;
  dquat : Type;
  (** [operator*] on matrices. *)
  mat_mul : dmat4x4 → dmat4x4 → dmat4x4;
  (** [glm::dmat4(1.0)]. *)
  mat_identity : dmat4x4;
  (** The matrix of four column vectors, from its sixteen numbers. *)
  mat_of_columns : list double → dmat4x4;
  (** [m[3] = glm::dvec4(x, y, z, w)]. *)
  mat_set_column3 : dmat4x4 → double → double → double → double → dmat4x4;
  (** [m[0].x = x; m[1].y = y; m[2].z = z]. *)
  mat_set_diagonal : dmat4x4 → double → double → double → dmat4x4;
  (** [glm::dquat(w, x, y, z)], [q[i] = v] and [glm::dmat4(q)]. *)
  quat : double → double → double → double → dquat;
  quat_set : dquat → nat → double → dquat;
  mat4_cast : dquat → dmat4x4;
  (** [GltfContent::applyRtcCenter]. *)
  applyRtcCenter : SceneGraph → dmat4x4 → dmat4x4;
  (** [CesiumGeometry::AxisTransforms] and the numbers of
      [CesiumGeometry::Axis]. *)
  X_UP_TO_Z_UP : dmat4x4;
  Y_UP_TO_Z_UP : dmat4x4;
  Axis_X : Z;
  Axis_Y : Z;
  Axis_Z : Z;
  (** [JsonValue::getSafeNumberOrDefault<int>]. *)
  getSafeNumberOrDefault : JsonValue → Z → Z;
}.

Definition double_zero : double := S754_zero false.
Definition double_one : double := S754_finite false 4503599627370496 (-52).

Definition identityMatrix : list double :=
  [ double_one; double_zero; double_zero; double_zero;
    double_zero; double_one; double_zero; double_zero;
    double_zero; double_zero; double_one; double_zero;
    double_zero; double_zero; double_zero; double_one ].

(** [std::equal] over two ranges of doubles, the second at least as long as
    the first. *)
Fixpoint std_equal (l1 l2 : list double) : bool :=
  match l1, l2 with
  | [], _ => true
  | x :: l1, y :: l2 => SFeqb x y && std_equal l1 l2
  | _ :: _, [] => false
  end.

(** The transform of a node: its parent's transform times its matrix when
    that has sixteen numbers and is not the identity, times its
    translation, rotation and scale otherwise. *)
Definition nodeTransform (G : Glm) (transform : dmat4x4 G) (node : Node)
    : dmat4x4 G :=
  let isIdentityMatrix :=
    if decide (length (matrix node) = 16)
    then std_equal (matrix node) identityMatrix else false in
  if bool_decide (length (matrix node) = 16) && negb isIdentityMatrix then
    mat_mul G transform (mat_of_columns G (matrix node))
  else
    let translation :=
      match translation node with
      | [t0; t1; t2] => mat_set_column3 G (mat_identity G) t0 t1 t2 double_one
      | _ => mat_identity G
      end in
    let rotationQuat :=
      let q := quat G double_one double_zero double_zero double_zero in
      match rotation node with
      | [r0; r1; r2; r3] =>
          quat_set G (quat_set G (quat_set G (quat_set G q 0 r0) 1 r1) 2 r2) 3 r3
      | _ => q
      end in
    let scale :=
      match scale node with
      | [s0; s1; s2] => mat_set_diagonal G (mat_identity G) s0 s1 s2
      | _ => mat_identity G
      end in
    mat_mul G
      (mat_mul G (mat_mul G transform translation) (mat4_cast G rotationQuat))
      scale.

(** The run of a function whose recursion the source does not bound: it
    returns, leaves defined behaviour, or has not returned within the
    recursion depth it was given. *)
Inductive Run (A : Type) :=
  | Returned (a : A)
  | Undefined
  | OutOfFuel.
Arguments Returned {A} _.
Arguments Undefined {A}.
Arguments OutOfFuel {A}.

Definition run_bind {A B} (m : Run A) (k : A → Run B) : Run B :=
  match m with
  | Returned a => k a
  | Undefined => Undefined
  | OutOfFuel => OutOfFuel
  end.

Definition run_option {A} (o : option A) : Run A :=
  match o with Some a => Returned a | None => Undefined end.

Global Instance Run_ret : MRet Run := λ A a, Returned a.
Global Instance Run_bind : MBind Run := λ A B k m, run_bind m k.
Global Instance Run_fmap : FMap Run := λ A B f m, run_bind m (λ a, Returned (f a)).

(** One entry of [LoadMeshResult::primitiveResults]: the outcome for a
    primitive and the transform the builder was given for it. *)
Record PrimitiveSlot (G : Glm) := MkSlot {
  slot_transform : dmat4x4 G;
  slot_outcome : LoadOutcome;
}.
Arguments MkSlot {G} _ _.
Arguments slot_transform {G} _.
Arguments slot_outcome {G} _.

Record LoadNodeResult (G : Glm) := MkNodeResult {
  meshResult : option (list (PrimitiveSlot G));
}.
Arguments MkNodeResult {G} _.
Arguments meshResult {G} _.

(** [loadMesh]: one entry per primitive of the mesh, loaded or not. *)
Definition loadMesh (E : Engine) (G : Glm) (options : CreateModelOptions)
    (graph : SceneGraph) (transform : dmat4x4 G) (m : Mesh)
    : option (list (PrimitiveSlot G)) :=
  mapM (λ primitive,
          outcome ← loadMeshPrimitive E options (graph_model graph) primitive;
          Some (MkSlot transform outcome))
    (primitives m).

(** [loadNode].  The results of the node come first, then those of its
    children in order; a child id outside the nodes of the model is passed
    over. *)
Fixpoint loadNode (fuel : nat) (E : Engine) (G : Glm)
    (options : CreateModelOptions) (graph : SceneGraph)
    (loadNodeResults : list (LoadNodeResult G)) (transform : dmat4x4 G)
    (node : Node) : Run (list (LoadNodeResult G)) :=
  match fuel with
  | O => OutOfFuel
  | S fuel =>
      let nodeTransform := nodeTransform G transform node in
      let meshId := mesh node in
      meshResult ←
        (if decide (0 ≤ meshId < Z.of_nat (length (meshes graph)))%Z then
           m ← run_option (meshes graph !! Z.to_nat meshId);
           Some <$> run_option (loadMesh E G options graph nodeTransform m)
         else Returned None);
      foldl
        (λ acc childNodeId,
           loadNodeResults ← acc;
           if decide (0 ≤ childNodeId < Z.of_nat (length (nodes graph)))%Z
           then
             child ← run_option (nodes graph !! Z.to_nat childNodeId);
             loadNode fuel E G options graph loadNodeResults nodeTransform
               child
           else Returned loadNodeResults)
        (Returned (loadNodeResults ++ [MkNodeResult meshResult]))
        (children node)
  end.

(** [applyGltfUpAxisTransform]: an up-axis that is none of the three leaves
    the transform as it is, like the Z axis. *)
Definition applyGltfUpAxisTransform (G : Glm) (graph : SceneGraph)
    (rootTransform : dmat4x4 G) : dmat4x4 G :=
  match model_extras graph !! "gltfUpAxis" with
  | None => mat_mul G rootTransform (Y_UP_TO_Z_UP G)
  | Some gltfUpAxis =>
      let gltfUpAxisValue := getSafeNumberOrDefault G gltfUpAxis 1 in
      if decide (gltfUpAxisValue = Axis_X G)
      then mat_mul G rootTransform (X_UP_TO_Z_UP G)
      else if decide (gltfUpAxisValue = Axis_Y G)
      then mat_mul G rootTransform (Y_UP_TO_Z_UP G)
      else if decide (gltfUpAxisValue = Axis_Z G)
      then rootTransform
      else rootTransform
  end.

(** The loop over the root nodes of a scene; [model.nodes[nodeId]] is not
    range-checked. *)
Definition loadSceneNodes (fuel : nat) (E : Engine) (G : Glm)
    (options : CreateModelOptions) (graph : SceneGraph)
    (rootTransform : dmat4x4 G) (defaultScene : Scene)
    : Run (list (LoadNodeResult G)) :=
  foldl
    (λ acc nodeId,
       nodeResults ← acc;
       node ← run_option (if decide (0 ≤ nodeId)%Z
                          then nodes graph !! Z.to_nat nodeId else None);
       loadNode fuel E G options graph nodeResults rootTransform node)
    (Returned []) (scene_nodes defaultScene).

(** [loadModelAnyThreadPart]: the default scene, else the first scene, else
    the first node, else every mesh under a node result of its own. *)
Definition loadModelAnyThreadPart (fuel : nat) (E : Engine) (G : Glm)
    (options : CreateModelOptions) (graph : SceneGraph)
    (transform : dmat4x4 G) : Run (list (LoadNodeResult G)) :=
  let rootTransform := applyRtcCenter G graph transform in
  let rootTransform := applyGltfUpAxisTransform G graph rootTransform in
  if decide (0 ≤ scene graph < Z.of_nat (length (scenes graph)))%Z then
    defaultScene ← run_option (scenes graph !! Z.to_nat (scene graph));
    loadSceneNodes fuel E G options graph rootTransform defaultScene
  else
    match scenes graph, nodes graph with
    | defaultScene :: _, _ =>
        loadSceneNodes fuel E G options graph rootTransform defaultScene
    | [], node :: _ =>
        loadNode fuel E G options graph [] rootTransform node
    | [], [] =>
        foldl
          (λ acc m,
             nodeResults ← acc;
             slots ← run_option (loadMesh E G options graph rootTransform m);
             Returned (nodeResults ++ [MkNodeResult (Some slots)]))
          (Returned []) (meshes graph)
    end.

(** ** Vocabulary of the statements *)

(** [same_on f vs vs'] : the pass from [vs] to [vs'] changed neither the
    number of vertices nor the field [f] of any vertex. *)
Definition same_on {A} (f : FStaticMeshBuildVertex → A)
    (vs vs' : list FStaticMeshBuildVertex) : Prop :=
  f <$> vs' = f <$> vs.

(** What the passes after the colour pass leave alone. *)
Definition vertex_base (w : FStaticMeshBuildVertex) : TMeshVector3 * FColor :=
  (Position w, Color w).

Abbreviation same_positions := (same_on Position).
Abbreviation same_base := (same_on vertex_base).






(** A finite single-precision number: a zero, or a mantissa and exponent
    within the bounds of binary32. *)
Definition finite_float (x : float) : Prop :=
  match x with
  | S754_zero _ => True
  | S754_finite _ m e => bounded 24 128 m e = true
  | _ => False
  end.

Definition finite_position (p : TMeshVector3) : Prop :=
  finite_float (vX p) ∧ finite_float (vY p) ∧ finite_float (vZ p).

(** [m] is the least (greatest) value of the coordinate [coord] over the
    positions [ps]: some position has it and none is below (above) it. *)
Definition is_axis_min (coord : TMeshVector3 → float)
    (ps : list TMeshVector3) (m : double) : Prop :=
  (∃ p, p ∈ ps ∧ coord p = m) ∧ ∀ p, p ∈ ps → SFleb m (coord p) = true.
Definition is_axis_max (coord : TMeshVector3 → float)
    (ps : list TMeshVector3) (m : double) : Prop :=
  (∃ p, p ∈ ps ∧ coord p = m) ∧ ∀ p, p ∈ ps → SFleb (coord p) m = true.

(** The components and the element shapes that [ColorVisitor] converts.
    A view has one component type, so the type of an element is that of its
    first component. *)
Definition supported_component (c : Component) : bool :=
  match c with CFloat _ | CUInt8 _ | CUInt16 _ => true | _ => false end.

Definition supported_shape (e : Element) : bool :=
  match e with
  | VEC3 c0 _ _ | VEC4 c0 _ _ _ => supported_component c0
  | _ => false
  end.

(** The normal-map texture of the primitive's material resolves to a
    texture of the model and that texture to an image of the model. *)
Definition normal_map_resolves (model : Model) (primitive : MeshPrimitive)
    : Prop :=
  ∃ info texture image,
    normalTexture (primitiveMaterial model primitive) = Some info ∧
    getSafe (textures model) (index info) = Some texture ∧
    getSafe (images model) (source texture) = Some image.

(** ** Sample inputs *)

(** An engine with trivial vector arithmetic and a tangent generator that
    makes no callback. *)
Definition sampleEngine : Engine :=
  MkEngine (λ a b, a) (λ a b, a) (λ s a, a) (λ a, a)
    (λ b, (BoxMin b, BoxMax b)) (λ p o r, r)
    (λ n nv gp gn gt, []) (λ m t, true).

Definition float_one : float := S754_finite false 8388608 (-23).
Definition float_half : float := S754_finite false 8388608 (-24).

(** Positions (0,0,0), (1,0,0), (0,1,0), and no position at all. *)
Definition samplePositions : AccessorView TMeshVector3 :=
  MkView Valid
    [ MkVector3 float_zero float_zero float_zero;
      MkVector3 float_one float_zero float_zero;
      MkVector3 float_zero float_one float_zero ].

Definition noPositions : AccessorView TMeshVector3 := MkView Valid [].

(** Three positions whose x coordinate is positive infinity. *)
Definition infinitePositions : AccessorView TMeshVector3 :=
  MkView Valid
    [ MkVector3 (S754_infinity false) float_zero float_zero;
      MkVector3 (S754_infinity false) float_one float_zero;
      MkVector3 (S754_infinity false) float_zero float_one ].

Definition sampleNormals : AccessorView TMeshVector3 :=
  MkView Valid
    [ MkVector3 float_zero float_zero float_one;
      MkVector3 float_zero float_zero float_one;
      MkVector3 float_zero float_zero float_one ].

Definition sampleAccessor : Accessor := MkAccessor (Some FLOAT) [] [].
Definition sampleIndices : IndexAccessor := IndexVector [0; 1; 2]%Z.

(** Accessor 0 holds the positions, accessor 1 the normals, accessor 2 a
    valid UV set; every other accessor id resolves to an invalid view. *)
Definition sampleModel : Model :=
  MkModel [sampleAccessor; sampleAccessor; sampleAccessor; sampleAccessor]
    [] [] []
    (λ i, if decide (i = 2)%Z
          then MkView Valid [zero2; MkVector2 float_one float_zero;
                             MkVector2 float_zero float_one]
          else noView)
    (λ i, if decide (i = 0)%Z then samplePositions
          else if decide (i = 1)%Z then sampleNormals else noView)
    (λ _, noView) (λ _, noView) (λ _, NullView).

(** A material whose base-colour texture reads TEXCOORD_0 and whose
    metallic-roughness and normal textures both read TEXCOORD_1. *)
Definition sampleMaterial : Material :=
  MkMaterial
    (Some (MkPbr (Some (MkTextureInfo 0 0)) (Some (MkTextureInfo 0 1))))
    (Some (MkTextureInfo 0 1)) None None.

Definition texturedModel : Model :=
  MkModel (accessors sampleModel) [] [] [sampleMaterial]
    (viewVector2 sampleModel) (viewVector3 sampleModel)
    (viewVector4 sampleModel) (viewIndices sampleModel) (viewAny sampleModel).

(** A colour accessor of scalars. *)
Definition scalarColors : AnyAccessorView :=
  TypedView (MkView Valid [SCALAR (CFloat float_one);
                           SCALAR (CFloat float_one);
                           SCALAR (CFloat float_one)]).

Definition colorModel : Model :=
  MkModel (accessors sampleModel) [] [] []
    (viewVector2 sampleModel) (viewVector3 sampleModel)
    (viewVector4 sampleModel) (viewIndices sampleModel) (λ _, scalarColors).

(** A triangle with positions only, one with positions and normals, a
    strip, a triangle whose TEXCOORD_0 is accessor 2 (a valid UV set) and
    whose TEXCOORD_1 is accessor 3 (an invalid view), and a triangle with a
    colour attribute. *)
Definition flatPrimitive : MeshPrimitive :=
  MkPrimitive {["POSITION" := 0%Z]} (-1) (-1) TRIANGLES ∅.
Definition smoothPrimitive : MeshPrimitive :=
  MkPrimitive (<["NORMAL" := 1%Z]> {["POSITION" := 0%Z]}) (-1) (-1) TRIANGLES ∅.
Definition stripPrimitive : MeshPrimitive :=
  MkPrimitive {["POSITION" := 0%Z]} (-1) (-1) TRIANGLE_STRIP ∅.
Definition stripIndices : IndexAccessor :=
  IndexView (MkView Valid [10; 11; 12; 13; 14]%Z).
Definition texturedPrimitive : MeshPrimitive :=
  MkPrimitive
    (<["TEXCOORD_1" := 3%Z]> (<["TEXCOORD_0" := 2%Z]>
       (<["NORMAL" := 1%Z]> {["POSITION" := 0%Z]})))
    (-1) 0 TRIANGLES ∅.
Definition colorPrimitive : MeshPrimitive :=
  MkPrimitive (<["COLOR_0" := 4%Z]> {["POSITION" := 0%Z]})
    (-1) (-1) TRIANGLES ∅.

Definition chaosOptions : CreateModelOptions := MkOptions false Chaos 3.
Definition tangentOptions : CreateModelOptions := MkOptions true Chaos 3.

(** The results of loading the samples. *)
Definition emptyResult : LoadPrimitiveResult :=
  MkResult false true false
    (MkBounds (MkDvec3 float_zero float_zero float_zero)
       (MkDvec3 float_zero float_zero float_zero) float_zero)
    [] false 1 ∅ [] 0 (-1) [] Force16Bit None [].

Definition loaded (o : option LoadOutcome) : LoadPrimitiveResult :=
  match o with Some (Loaded r) => r | _ => emptyResult end.

Definition flatResult : LoadPrimitiveResult :=
  Eval vm_compute in
    loaded (loadPrimitive sampleEngine chaosOptions sampleModel flatPrimitive
              sampleAccessor samplePositions sampleIndices).
Definition smoothResult : LoadPrimitiveResult :=
  Eval vm_compute in
    loaded (loadPrimitive sampleEngine chaosOptions sampleModel smoothPrimitive
              sampleAccessor samplePositions sampleIndices).
Definition tangentResult : LoadPrimitiveResult :=
  Eval vm_compute in
    loaded (loadPrimitive sampleEngine tangentOptions sampleModel flatPrimitive
              sampleAccessor samplePositions sampleIndices).
Definition texturedResult : LoadPrimitiveResult :=
  Eval vm_compute in
    loaded (loadPrimitive sampleEngine chaosOptions texturedModel
              texturedPrimitive sampleAccessor samplePositions sampleIndices).
Definition scalarColorResult : LoadPrimitiveResult :=
  Eval vm_compute in
    loaded (loadPrimitive sampleEngine chaosOptions colorModel colorPrimitive
              sampleAccessor samplePositions sampleIndices).
Definition emptyColorResult : LoadPrimitiveResult :=
  Eval vm_compute in
    loaded (loadPrimitive sampleEngine chaosOptions colorModel colorPrimitive
              sampleAccessor noPositions (IndexVector [])).

(** ** Vocabulary and samples of the further properties *)

(** The normal of the face through three positions, as [computeFlatNormals]
    computes it. *)
Definition faceNormal (E : Engine) (p0 p1 p2 : TMeshVector3) : TMeshVector3 :=
  GetSafeNormal E (CrossProduct E (vsub E p1 p0) (vsub E p2 p0)).

(** A vertex with the face normal [n] and no tangent. *)
Definition flatVertex (n : TMeshVector3) (w : FStaticMeshBuildVertex)
    : FStaticMeshBuildVertex :=
  set_TangentZ n (set_TangentY zero3 (set_TangentX zero3 w)).

(** Every channel in the accessor-id-to-channel map is one of the channels
    in use. *)
Definition channels_below (m : gmap Z Z) : Prop :=
  ∀ key channel, m !! key = Some channel →
    (0 ≤ channel < Z.of_nat (size m))%Z.

(** An index the material may be told: channel 0 or a channel in use. *)
Definition channel_in_use (m : gmap Z Z) (k : Z) : Prop :=
  (0 ≤ k < Z.max 1 (Z.of_nat (size m)))%Z.

(** The accessors in the map and the channels in use correspond one to
    one. *)
Definition channels_bijective (m : gmap Z Z) : Prop :=
  (∀ a b channel, m !! a = Some channel → m !! b = Some channel → a = b) ∧
  (∀ channel, (0 ≤ channel < Z.of_nat (size m))%Z →
     ∃ a, m !! a = Some channel).

(** The consolidation state after at most [n] queries. *)
Definition uv_ok (n : nat) (s : UvState) : Prop :=
  channels_below (uv_map s) ∧
  size (uv_map s) ≤ n ∧
  (∀ name k, uv_parameters s !! name = Some k → channel_in_use (uv_map s) k) ∧
  Forall (channel_in_use (uv_map s)) (uv_overlay s) ∧
  ((Z.of_nat n ≤ 2 ^ 32)%Z → channels_bijective (uv_map s)).

(** The material parameters that carry a texture-coordinate index. *)
Definition textureCoordinateParameterNames : list string :=
  [ "baseColorTextureCoordinateIndex";
    "metallicRoughnessTextureCoordinateIndex";
    "normalTextureCoordinateIndex";
    "occlusionTextureCoordinateIndex";
    "emissiveTextureCoordinateIndex" ].

(** The vertex [w] with [uv] stored in its UV slot [k]. *)
Definition withUV (k : nat) (uv : TMeshVector2) (w : FStaticMeshBuildVertex)
    : FStaticMeshBuildVertex :=
  MkVertex (Position w) (TangentX w) (TangentY w) (TangentZ w)
    (<[k:=uv]> (UVs w)) (Color w).

(** What the tangent passes never touch. *)
Definition vertex_frame (w : FStaticMeshBuildVertex)
    : TMeshVector3 * TMeshVector3 * list TMeshVector2 * FColor :=
  (Position w, TangentZ w, UVs w, Color w).

(** The vertex that a [m_setTSpaceBasic] callback addresses. *)
Definition tsTarget (call : TSpaceCall) : nat :=
  tsFace call * 3 + tsVert call.

(** The vertex [w] after the callback [call]. *)
Definition withTSpace (E : Engine) (call : TSpaceCall)
    (w : FStaticMeshBuildVertex) : FStaticMeshBuildVertex :=
  MkVertex (Position w) (tsTangent call)
    (vscale E (tsSign call) (CrossProduct E (TangentZ w) (tsTangent call)))
    (TangentZ w) (UVs w) (Color w).

(** The callbacks that [genTangSpaceDefault] makes for a vertex array. *)
Definition tangentCallbacks (E : Engine)
    (vertices : list FStaticMeshBuildVertex) : list TSpaceCall :=
  genTangSpaceDefault E (mikkGetNumFaces vertices)
    (mikkGetNumVertsOfFace vertices) (mikkGetPosition vertices)
    (mikkGetNormal vertices) (mikkGetTexCoord vertices).

(** An engine whose tangent generator answers a non-empty mesh with three
    callbacks, the last of them for the vertex of the first. *)
Definition sampleCallbacks : list TSpaceCall :=
  [ MkTSpaceCall (MkVector3 float_one float_zero float_zero) float_one 0 0;
    MkTSpaceCall (MkVector3 float_one float_zero float_zero) float_one 0 1;
    MkTSpaceCall (MkVector3 float_zero float_one float_zero) float_half 0 0 ].

Definition tangentEngine : Engine :=
  MkEngine (λ a b, b) (λ a b, a) (λ s a, a) (λ a, a)
    (λ b, (BoxMin b, BoxMax b)) (λ p o r, r)
    (λ n nv gp gn gt, if decide (0 < n) then sampleCallbacks else [])
    (λ m t, true).

(** The flat triangle loaded with tangents required, by the engine whose
    tangent generator makes callbacks. *)
Definition generatedTangentResult : LoadPrimitiveResult :=
  Eval vm_compute in
    loaded (loadPrimitive tangentEngine tangentOptions sampleModel
              flatPrimitive sampleAccessor samplePositions sampleIndices).

(** The first three components of a tangent. *)
Definition tangentXYZ (tangent : TMeshVector4) : TMeshVector3 :=
  MkVector3 (v4X tangent) (v4Y tangent) (v4Z tangent).

(** A triangle with normals and tangents: accessor 1 holds the normals,
    accessor 3 the tangents. *)
Definition tangentModel : Model :=
  MkModel (accessors sampleModel) [] [] []
    (viewVector2 sampleModel) (viewVector3 sampleModel)
    (λ i, if decide (i = 3)%Z
          then MkView Valid
                 [ MkVector4 float_one float_zero float_zero float_one;
                   MkVector4 float_one float_zero float_zero float_one;
                   MkVector4 float_zero float_one float_zero float_half ]
          else noView)
    (viewIndices sampleModel) (viewAny sampleModel).

Definition tangentPrimitive : MeshPrimitive :=
  MkPrimitive
    (<["TANGENT" := 3%Z]> (<["NORMAL" := 1%Z]> {["POSITION" := 0%Z]}))
    (-1) (-1) TRIANGLES ∅.

Definition copiedTangentResult : LoadPrimitiveResult :=
  Eval vm_compute in
    loaded (loadPrimitive sampleEngine chaosOptions tangentModel
              tangentPrimitive sampleAccessor samplePositions sampleIndices).

(** The sphere radius after the positions [ps], grown around [origin]. *)
Definition sphereRadius (E : Engine) (origin : dvec3)
    (ps : list TMeshVector3) : float :=
  foldl (λ radius p, growRadius E p origin radius) float_zero ps.

(** A box none of whose six bounds is a NaN. *)
Definition box_without_nan (box : FBox) : Prop :=
  dx (BoxMin box) ≠ S754_nan ∧ dy (BoxMin box) ≠ S754_nan ∧
  dz (BoxMin box) ≠ S754_nan ∧ dx (BoxMax box) ≠ S754_nan ∧
  dy (BoxMax box) ≠ S754_nan ∧ dz (BoxMax box) ≠ S754_nan.

(** The suffixes of the three material parameters of an overlay
    ([AttachRasterTile]), and the default limit of a name. *)
Definition overlaySuffixes : list std_string :=
  [ String.list_ascii_of_string "_Texture";
    String.list_ascii_of_string "_TranslationScale";
    String.list_ascii_of_string "_TextureCoordinateIndex" ].

Definition defaultMaxLength : Z := 256.

(** Transforms that carry no information, for the samples. *)
Definition sampleGlm : Glm :=
  MkGlm unit unit (λ _ _, tt) tt (λ _, tt) (λ _ _ _ _ _, tt) (λ _ _ _ _, tt)
    (λ _ _ _ _, tt) (λ _ _ _, tt) (λ _, tt) (λ _ _, tt) tt tt 0 1 2 (λ _ d, d).

Definition emptyNode : Node := MkNode [] [] [] [] (-1) [].

(** A node that lists itself as its child. *)
Definition selfNode : Node := MkNode [] [] [] [] (-1) [0%Z].

Definition cyclicGraph : SceneGraph :=
  MkSceneGraph sampleModel [] [selfNode] [MkScene [0%Z]] 0 ∅.

(** A root with the flat triangle as mesh and two children, the second of
    which has a child of its own; the child id 7 is no node. *)
Definition treeGraph : SceneGraph :=
  MkSceneGraph sampleModel [MkMesh [flatPrimitive]]
    [ MkNode [] [] [] [] 0 [1; 7; 2]%Z;
      emptyNode;
      MkNode [] [] [] [] (-1) [3%Z];
      emptyNode ]
    [MkScene [0%Z]] 0 ∅.

(** The depth of the nodes of [treeGraph] below them. *)
Definition treeDepth (id : nat) : nat :=
  match id with 0 => 2 | 2 => 1 | _ => 0 end.

(** One round of the loop over the children of a node. *)
Definition loadChild (fuel : nat) (E : Engine) (G : Glm)
    (options : CreateModelOptions) (graph : SceneGraph)
    (nodeTransform : dmat4x4 G) (acc : Run (list (LoadNodeResult G)))
    (childNodeId : Z) : Run (list (LoadNodeResult G)) :=
  loadNodeResults ← acc;
  if decide (0 ≤ childNodeId < Z.of_nat (length (nodes graph)))%Z
  then
    child ← run_option (nodes graph !! Z.to_nat childNodeId);
    loadNode fuel E G options graph loadNodeResults nodeTransform child
  else Returned loadNodeResults.

(** The scene whose roots are loaded: the default scene, or the first
    scene when [scene] is not an index of a scene. *)
Definition shownScene (graph : SceneGraph) : option Scene :=
  if decide (0 ≤ scene graph < Z.of_nat (length (scenes graph)))%Z
  then scenes graph !! Z.to_nat (scene graph)
  else head (scenes graph).

(** The transform at the roots. *)
Definition rootTransform (G : Glm) (graph : SceneGraph)
    (transform : dmat4x4 G) : dmat4x4 G :=
  applyGltfUpAxisTransform G graph (applyRtcCenter G graph transform).

(** A model with meshes only. *)
Definition meshGraph : SceneGraph :=
  MkSceneGraph sampleModel [MkMesh [flatPrimitive]; MkMesh []] [] [] (-1) ∅.

(** The mesh of a node, loaded. *)
Definition loadNodeMesh (E : Engine) (G : Glm) (options : CreateModelOptions)
    (graph : SceneGraph) (nodeTransform : dmat4x4 G) (node : Node)
    : Run (option (list (PrimitiveSlot G))) :=
  if decide (0 ≤ mesh node < Z.of_nat (length (meshes graph)))%Z then
    m ← run_option (meshes graph !! Z.to_nat (mesh node));
    Some <$> run_option (loadMesh E G options graph nodeTransform m)
  else Returned None.

(** * Properties *)

(** ** Loop rules *)

Section LoopRules.
Context {St : Type}.
Implicit Types (body : nat → St → option St) (P : nat → St → Prop).

(** Total correctness: a body that keeps the invariant and never fails
    under it makes the whole loop succeed, with the invariant at exit. *)
Lemma for_step_total P body bound step fuel i s :
  0 < step →
  bound ≤ i + fuel →
  P i s →
  (∀ j t, i ≤ j → j < bound → P j t →
     ∃ t', body j t = Some t' ∧ P (j + step) t') →
  ∃ j s', for_step fuel i bound step body s = Some s' ∧
          i ≤ j ∧ bound ≤ j ∧ P j s'.
Proof.
  intros Hstep. revert i s.
  induction fuel as [|fuel IH]; intros i s Hfuel HP Hbody; simpl.
  - exists i, s. repeat split; [lia | lia | done].
  - destruct (decide (i < bound)) as [Hlt|Hge].
    + destruct (Hbody i s) as (t' & Ht' & HP'); [lia | done | done |].
      rewrite Ht'. simpl.
      destruct (IH (i + step) t') as (j & s' & Hrun & Hij & Hbj & HPj);
        [lia | done | |].
      * intros j t Hj1 Hj2 HPt. apply Hbody; [lia | done | done].
      * exists j, s'. repeat split; [done | lia | done | done].
    + exists i, s. repeat split; [lia | lia | done].
Qed.

(** Partial correctness: whatever a successful run returns satisfies the
    invariant at an index past the bound. *)
Lemma for_step_partial P body bound step fuel i s s' :
  0 < step →
  bound ≤ i + fuel →
  P i s →
  (∀ j t t', i ≤ j → j < bound → P j t → body j t = Some t' →
     P (j + step) t') →
  for_step fuel i bound step body s = Some s' →
  ∃ j, i ≤ j ∧ bound ≤ j ∧ P j s'.
Proof.
  intros Hstep. revert i s.
  induction fuel as [|fuel IH]; intros i s Hfuel HP Hbody; simpl.
  - intros [= <-]. exists i. repeat split; [lia | lia | done].
  - destruct (decide (i < bound)) as [Hlt|Hge].
    + destruct (body i s) as [t'|] eqn:Ht'; simpl; [|done].
      intros Hrun.
      destruct (IH (i + step) t') as (j & Hij & Hbj & HPj);
        [lia | by eapply Hbody | | done |].
      * intros j t t2 Hj1 Hj2 HPt Hb.
        eapply Hbody; [| | done | done]; lia.
      * exists j. repeat split; [lia | done | done].
    + intros [= <-]. exists i. repeat split; [lia | lia | done].
Qed.

(** A relation that every step respects holds between the entry and the
    exit state. *)
Lemma for_step_preserves (R : St → St → Prop) body bound step fuel i s s' :
  (∀ t, R t t) →
  (∀ t1 t2 t3, R t1 t2 → R t2 t3 → R t1 t3) →
  (∀ j t t', body j t = Some t' → R t t') →
  for_step fuel i bound step body s = Some s' → R s s'.
Proof.
  intros Hrefl Htrans Hbody. revert i s.
  induction fuel as [|fuel IH]; intros i s; simpl.
  - intros [= <-]. apply Hrefl.
  - destruct (decide (i < bound)); [|intros [= <-]; apply Hrefl].
    destruct (body i s) as [t'|] eqn:Ht'; simpl; [|done].
    intros Hrun. eapply Htrans; [by eapply Hbody | by eapply IH].
Qed.

(** More fuel than the loop needs changes nothing: [for_loop] gives every
    loop with a positive step enough of it. *)
Lemma for_step_fuel body bound step fuel1 fuel2 i s :
  0 < step → bound ≤ i + fuel1 → bound ≤ i + fuel2 →
  for_step fuel1 i bound step body s = for_step fuel2 i bound step body s.
Proof.
  intros Hstep. revert fuel2 i s.
  induction fuel1 as [|fuel1 IH]; intros fuel2 i s H1 H2.
  - destruct fuel2 as [|fuel2]; simpl; [done|].
    destruct (decide (i < bound)); [lia | done].
  - destruct fuel2 as [|fuel2]; simpl.
    + destruct (decide (i < bound)); [lia | done].
    + destruct (decide (i < bound)); [|done].
      destruct (body i s) as [t|]; simpl; [|done].
      apply IH; lia.
Qed.

Lemma for_loop_total P body start bound step s :
  0 < step →
  P start s →
  (∀ j t, start ≤ j → j < bound → P j t →
     ∃ t', body j t = Some t' ∧ P (j + step) t') →
  ∃ j s', for_loop start bound step body s = Some s' ∧
          start ≤ j ∧ bound ≤ j ∧ P j s'.
Proof. intros. apply for_step_total; [done | lia | done | done]. Qed.

Lemma for_loop_partial P body start bound step s s' :
  0 < step →
  P start s →
  (∀ j t t', start ≤ j → j < bound → P j t → body j t = Some t' →
     P (j + step) t') →
  for_loop start bound step body s = Some s' →
  ∃ j, start ≤ j ∧ bound ≤ j ∧ P j s'.
Proof. intros ? ? ?. apply for_step_partial; [done | lia | done | done]. Qed.

Lemma for_loop_preserves (R : St → St → Prop) body start bound step s s' :
  (∀ t, R t t) →
  (∀ t1 t2 t3, R t1 t2 → R t2 t3 → R t1 t3) →
  (∀ j t t', body j t = Some t' → R t t') →
  for_loop start bound step body s = Some s' → R s s'.
Proof. apply for_step_preserves. Qed.
End LoopRules.

(** ** Arrays *)

Lemma array_set_Some {A} (a : list A) i x :
  i < length a → array_set a i x = Some (<[i:=x]> a).
Proof. intros. unfold array_set. by rewrite decide_True. Qed.

Lemma array_set_inv {A} (a a' : list A) i x :
  array_set a i x = Some a' → i < length a ∧ a' = <[i:=x]> a.
Proof. unfold array_set. case_decide; naive_solver. Qed.

Lemma SetNum_inv {A} (d : A) n a :
  SetNum d n = Some a → (0 ≤ n)%Z ∧ a = replicate (Z.to_nat n) d.
Proof. unfold SetNum. case_decide; naive_solver. Qed.

Lemma SetNum_length {A} (d : A) n a :
  SetNum d n = Some a → Z.of_nat (length a) = n.
Proof.
  intros [? ->]%SetNum_inv. rewrite length_replicate. lia.
Qed.

Lemma uint32_small z : (0 ≤ z < 2 ^ 32)%Z → uint32 z = z.
Proof. intros. unfold uint32. by rewrite Z.mod_small. Qed.



Local Arguments Nat.mul : simpl never.
Local Arguments Nat.div : simpl never.
Local Arguments Nat.modulo : simpl never.
Local Arguments view_at {T} _ _ : simpl never.
Local Arguments view_size {T} _ : simpl never.
Local Arguments array_set {A} _ _ _ : simpl never.
Local Arguments set_UV _ _ _ : simpl never.

(** ** Index normalisation *)

Lemma even_mod2 j : Nat.even j = bool_decide (j mod 2 = 0).
Proof.
  destruct (Nat.Even_or_Odd j) as [[k ->]|[k ->]].
  - rewrite Nat.even_even, bool_decide_true; [done|].
    by rewrite Nat.mul_comm, Nat.Div0.mod_mul.
  - rewrite Nat.even_odd, bool_decide_false; [done|].
    rewrite Nat.add_comm, Nat.mul_comm, Nat.Div0.mod_add. done.
Qed.

(** The strip expansion, as a fact about the loop. *)
Lemma copyTriangleStripIndices_spec (strip : list Z) :
  2 ≤ length strip →
  ∃ indices,
    copyTriangleStripIndices strip = Some indices ∧
    length indices = 3 * (length strip - 2) ∧
    ∀ i s0 s1 s2, i < length strip - 2 →
      strip !! i = Some s0 →
      strip !! (i + 1) = Some s1 →
      strip !! (i + 2) = Some s2 →
      indices !! (3 * i) = Some (uint32 s0) ∧
      indices !! (3 * i + 1) = Some (uint32 (if Nat.even i then s1 else s2)) ∧
      indices !! (3 * i + 2) = Some (uint32 (if Nat.even i then s2 else s1)).
Proof.
  intros Hlen. unfold copyTriangleStripIndices.
  unfold SetNum. rewrite decide_True by lia. simpl.
  set (n := length strip - 2).
  match goal with |- ∃ _, for_loop _ _ _ ?b ?s = _ ∧ _ => set (body := b); set (s0 := s) end.
  destruct (for_loop_total
    (λ j out, j ≤ n ∧ length out = 3 * n ∧
       ∀ i a b c, i < j →
         strip !! i = Some a → strip !! (i + 1) = Some b →
         strip !! (i + 2) = Some c →
         out !! (3 * i) = Some (uint32 a) ∧
         out !! (3 * i + 1) = Some (uint32 (if Nat.even i then b else c)) ∧
         out !! (3 * i + 2) = Some (uint32 (if Nat.even i then c else b)))
    body 0 n 1 s0) as (j & out & Hrun & _ & Hj & Hle & Hlen' & Hout).
  - lia.
  - split; [lia|]. split; [|intros; lia].
    subst s0. rewrite length_replicate. lia.
  - intros j out _ Hj (_ & Hlo & Hinv).
    destruct (lookup_lt_is_Some_2 strip j) as [a Ha]; [lia|].
    destruct (lookup_lt_is_Some_2 strip (j + 1)) as [b Hb]; [lia|].
    destruct (lookup_lt_is_Some_2 strip (j + 2)) as [c Hc]; [lia|].
    subst body. simpl. rewrite Ha, Hb, Hc. simpl.
    assert (Hstep : ∀ x y z,
      ∃ t', (indices ← array_set out (3 * j) x;
             indices ← array_set indices (3 * j + 1) y;
             array_set indices (3 * j + 2) z) = Some t' ∧
            t' = <[3 * j + 2 := z]> (<[3 * j + 1 := y]> (<[3 * j := x]> out))).
    { intros x y z. eexists. split; [|done].
      rewrite array_set_Some by lia. simpl.
      rewrite array_set_Some by (rewrite length_insert; lia). simpl.
      rewrite array_set_Some by (rewrite !length_insert; lia). done. }
    assert (Hread : ∀ x y z,
      let t' := <[3 * j + 2 := z]> (<[3 * j + 1 := y]> (<[3 * j := x]> out)) in
      length t' = 3 * n ∧
      t' !! (3 * j) = Some x ∧ t' !! (3 * j + 1) = Some y ∧
      t' !! (3 * j + 2) = Some z ∧
      ∀ k, k < 3 * j → t' !! k = out !! k).
    { intros x y z t'. subst t'. rewrite !length_insert.
      split; [done|]. repeat split.
      - rewrite list_lookup_insert_ne by lia.
        rewrite list_lookup_insert_ne by lia.
        apply list_lookup_insert_eq. lia.
      - rewrite list_lookup_insert_ne by lia.
        apply list_lookup_insert_eq. rewrite length_insert. lia.
      - apply list_lookup_insert_eq. rewrite !length_insert. lia.
      - intros k Hk. by rewrite !list_lookup_insert_ne by lia. }
    case_decide as Hpar.
    + destruct (Hstep (uint32 a) (uint32 c) (uint32 b)) as (t' & -> & ->).
      destruct (Hread (uint32 a) (uint32 c) (uint32 b)) as (Hl & H0 & H1 & H2 & Hold).
      eexists. split; [done|]. split; [lia|]. split; [done|].
      intros i a' b' c' Hi Hia Hib Hic.
      destruct (decide (i = j)) as [->|Hne].
      * simplify_eq. rewrite even_mod2, bool_decide_false by done. done.
      * destruct (Hinv i a' b' c') as (I0 & I1 & I2); [lia|done..|].
        rewrite !Hold by lia. done.
    + destruct (Hstep (uint32 a) (uint32 b) (uint32 c)) as (t' & -> & ->).
      destruct (Hread (uint32 a) (uint32 b) (uint32 c)) as (Hl & H0 & H1 & H2 & Hold).
      eexists. split; [done|]. split; [lia|]. split; [done|].
      intros i a' b' c' Hi Hia Hib Hic.
      destruct (decide (i = j)) as [->|Hne].
      * simplify_eq. rewrite even_mod2, bool_decide_true by lia. done.
      * destruct (Hinv i a' b' c') as (I0 & I1 & I2); [lia|done..|].
        rewrite !Hold by lia. done.
  - exists out. split; [done|]. split; [done|].
    intros i a b c Hi. apply Hout. lia.
Qed.

(** ** Winding reversal *)

(** Without duplication every complete triple has its ends exchanged. *)
Lemma reverseWinding_shared (indices : list Z) :
  ∃ out,
    reverseWinding false indices = Some out ∧
    length out = length indices ∧
    ∀ t, 3 * t + 2 < length indices →
      out !! (3 * t) = indices !! (3 * t + 2) ∧
      out !! (3 * t + 1) = indices !! (3 * t + 1) ∧
      out !! (3 * t + 2) = indices !! (3 * t).
Proof.
  unfold reverseWinding.
  match goal with |- ∃ _, for_loop _ _ _ ?b _ = _ ∧ _ => set (body := b) end.
  destruct (for_loop_total
    (λ j out, ∃ t, j = 3 * t + 2 ∧ length out = length indices ∧
       (∀ t', t' < t →
          out !! (3 * t') = indices !! (3 * t' + 2) ∧
          out !! (3 * t' + 1) = indices !! (3 * t' + 1) ∧
          out !! (3 * t' + 2) = indices !! (3 * t')) ∧
       ∀ k, 3 * t ≤ k → out !! k = indices !! k)
    body 2 (length indices) 3 indices)
    as (j & out & Hrun & _ & Hj & t & -> & Hlen & Hdone & _).
  - lia.
  - exists 0. split; [lia|]. split; [done|]. split; [intros; lia|done].
  - intros j out _ Hj (t & -> & Hlen & Hdone & Hrest).
    destruct (lookup_lt_is_Some_2 out (3 * t)) as [a Ha]; [lia|].
    destruct (lookup_lt_is_Some_2 out (3 * t + 2)) as [b Hb]; [lia|].
    subst body. simpl.
    replace (3 * t + 2 - 2) with (3 * t) by lia.
    rewrite Ha, Hb. simpl.
    rewrite array_set_Some by lia. simpl.
    rewrite array_set_Some by (rewrite length_insert; lia).
    eexists. split; [done|]. exists (S t).
    split; [lia|]. rewrite !length_insert. split; [done|]. split.
    + intros t' Ht'. destruct (decide (t' = t)) as [->|Hne].
      * rewrite list_lookup_insert_ne by lia.
        rewrite list_lookup_insert_eq by lia.
        rewrite list_lookup_insert_ne by lia.
        rewrite list_lookup_insert_ne by lia.
        rewrite list_lookup_insert_eq by (rewrite length_insert; lia).
        rewrite <- !Hrest by lia. done.
      * rewrite !list_lookup_insert_ne by lia. apply Hdone. lia.
    + intros k Hk. rewrite !list_lookup_insert_ne by lia. apply Hrest. lia.
  - exists out. split; [done|]. split; [done|].
    intros t' Ht'. apply Hdone. lia.
Qed.

(** With duplication every complete triple is relabelled in place. *)
Lemma reverseWinding_duplicated (indices : list Z) :
  ∃ out,
    reverseWinding true indices = Some out ∧
    length out = length indices ∧
    ∀ t, 3 * t + 2 < length indices →
      out !! (3 * t) = Some (Z.of_nat (3 * t + 2)) ∧
      out !! (3 * t + 1) = Some (Z.of_nat (3 * t + 1)) ∧
      out !! (3 * t + 2) = Some (Z.of_nat (3 * t)).
Proof.
  unfold reverseWinding.
  match goal with |- ∃ _, for_loop _ _ _ ?b _ = _ ∧ _ => set (body := b) end.
  destruct (for_loop_total
    (λ j out, ∃ t, j = 3 * t + 2 ∧ length out = length indices ∧
       ∀ t', t' < t →
          out !! (3 * t') = Some (Z.of_nat (3 * t' + 2)) ∧
          out !! (3 * t' + 1) = Some (Z.of_nat (3 * t' + 1)) ∧
          out !! (3 * t' + 2) = Some (Z.of_nat (3 * t')))
    body 2 (length indices) 3 indices)
    as (j & out & Hrun & _ & Hj & t & -> & Hlen & Hdone).
  - lia.
  - exists 0. split; [lia|]. split; [done|]. intros; lia.
  - intros j out _ Hj (t & -> & Hlen & Hdone).
    subst body. simpl.
    replace (3 * t + 2 - 2) with (3 * t) by lia.
    replace (3 * t + 2 - 1) with (3 * t + 1) by lia.
    rewrite array_set_Some by lia. simpl.
    rewrite array_set_Some by (rewrite length_insert; lia). simpl.
    rewrite array_set_Some by (rewrite !length_insert; lia).
    eexists. split; [done|]. exists (S t).
    split; [lia|]. rewrite !length_insert. split; [done|].
    intros t' Ht'. destruct (decide (t' = t)) as [->|Hne].
    + rewrite list_lookup_insert_ne by lia.
      rewrite list_lookup_insert_ne by lia.
      rewrite list_lookup_insert_eq by lia.
      rewrite list_lookup_insert_ne by lia.
      rewrite list_lookup_insert_eq by (rewrite length_insert; lia).
      rewrite list_lookup_insert_eq by (rewrite !length_insert; lia).
      done.
    + rewrite !list_lookup_insert_ne by lia. apply Hdone. lia.
  - exists out. split; [done|]. split; [done|].
    intros t' Ht'. apply Hdone. lia.
Qed.

(** ** Vertex passes keep the positions *)

Lemma same_on_refl {A} (f : FStaticMeshBuildVertex → A) vs : same_on f vs vs.
Proof. done. Qed.

Local Hint Resolve same_on_refl : core.

Lemma same_on_trans {A} (f : FStaticMeshBuildVertex → A) vs1 vs2 vs3 :
  same_on f vs1 vs2 → same_on f vs2 vs3 → same_on f vs1 vs3.
Proof. unfold same_on. congruence. Qed.

Lemma same_on_length {A} (f : FStaticMeshBuildVertex → A) vs vs' :
  same_on f vs vs' → length vs' = length vs.
Proof.
  unfold same_on. intros H.
  by rewrite <- (length_fmap f vs'), H, length_fmap.
Qed.

Lemma same_on_insert {A} (f : FStaticMeshBuildVertex → A) vs i w w' :
  vs !! i = Some w → f w' = f w → same_on f vs (<[i:=w']> vs).
Proof.
  intros Hw Hp. unfold same_on.
  rewrite list_fmap_insert, Hp. apply list_insert_id.
  by rewrite list_lookup_fmap, Hw.
Qed.

Lemma same_on_set {A} (f : FStaticMeshBuildVertex → A) vs vs' i w w' :
  vs !! i = Some w → array_set vs i w' = Some vs' →
  f w' = f w → same_on f vs vs'.
Proof.
  intros Hw [_ ->]%array_set_inv Hp. by eapply same_on_insert.
Qed.

Lemma same_on_lookup {A} (f : FStaticMeshBuildVertex → A) vs vs' i :
  same_on f vs vs' → f <$> vs' !! i = f <$> vs !! i.
Proof. unfold same_on. intros H. by rewrite <- !list_lookup_fmap, H. Qed.

Lemma same_base_positions vs vs' : same_base vs vs' → same_positions vs vs'.
Proof.
  unfold same_on. intros H.
  change Position with (fst ∘ vertex_base).
  by rewrite !list_fmap_compose, H.
Qed.

Lemma same_base_colors vs vs' : same_base vs vs' → same_on Color vs vs'.
Proof.
  unfold same_on. intros H.
  change Color with (snd ∘ vertex_base).
  by rewrite !list_fmap_compose, H.
Qed.

Lemma set_UV_base k uv w w' :
  set_UV k uv w = Some w' → vertex_base w' = vertex_base w.
Proof. unfold set_UV. intros. by simplify_option_eq. Qed.

Lemma set_UV_Position k uv w w' :
  set_UV k uv w = Some w' → Position w' = Position w.
Proof. unfold set_UV. intros. by simplify_option_eq. Qed.

Lemma ColorVisitor_positions dup vs idx view ok vs' :
  ColorVisitor dup vs idx view = Some (ok, vs') → same_positions vs vs'.
Proof.
  unfold ColorVisitor. intros H.
  destruct view as [|view]; [by simplify_eq|].
  destruct (decide (status view ≠ Valid)); [by simplify_eq|].
  destruct dup.
  - apply (for_loop_preserves (λ s s', same_positions s.2 s'.2)) in H;
      [done | done | intros ???; apply same_on_trans |].
    intros j [b t] [b' t'] Hb. simpl in *.
    destruct b; simpl in Hb; [|by simplify_eq].
    destruct (t !! j) as [w|] eqn:Hw; simpl in Hb; [|done].
    destruct (idx !! j) as [vi|] eqn:Hvi; simpl in Hb; [|done].
    case_decide; [by simplify_eq|].
    destruct (view_at view vi) as [c|]; simpl in Hb; [|done].
    destruct (convertColor c (Color w)) as [[ok' c']|]; simpl in Hb; [|done].
    destruct (array_set t j (set_Color c' w)) as [t2|] eqn:Hset;
      simpl in Hb; [|done].
    simplify_eq. eapply same_on_set; [exact Hw | exact Hset | done].
  - apply (for_loop_preserves (λ s s', same_positions s.2 s'.2)) in H;
      [done | done | intros ???; apply same_on_trans |].
    intros j [b t] [b' t'] Hb. simpl in *.
    destruct b; simpl in Hb; [|by simplify_eq].
    destruct (t !! j) as [w|] eqn:Hw; simpl in Hb; [|done].
    case_decide; [by simplify_eq|].
    destruct (view_at view (Z.of_nat j)) as [c|]; simpl in Hb; [|done].
    destruct (convertColor c (Color w)) as [[ok' c']|]; simpl in Hb; [|done].
    destruct (array_set t j (set_Color c' w)) as [t2|] eqn:Hset;
      simpl in Hb; [|done].
    simplify_eq. eapply same_on_set; [exact Hw | exact Hset | done].
Qed.

Lemma updateTextureCoordinates_base model primitive dup vs idx name m k vs' m' :
  updateTextureCoordinates model primitive dup vs idx name m = Some (k, vs', m') →
  same_base vs vs'.
Proof.
  unfold updateTextureCoordinates. intros H.
  destruct (attributes primitive !! name) as [id|]; [|by simplify_eq].
  destruct (m !! uint32 id); [by simplify_eq|].
  destruct (decide (status _ ≠ Valid)); [by simplify_eq|].
  match type of H with (?loop ≫= _) = _ =>
    destruct loop as [vs2|] eqn:Hloop; simpl in H; [|done] end.
  simplify_eq.
  destruct dup.
  - apply (for_loop_preserves same_base) in Hloop;
      [done | done | apply same_on_trans |].
    intros j t t' Hb. simpl in Hb.
    destruct (t !! j) as [w|] eqn:Hw; simpl in Hb; [|done].
    destruct (idx !! j) as [vi|]; simpl in Hb; [|done].
    match type of Hb with (?uv ≫= _) = _ =>
      destruct uv as [uv'|]; simpl in Hb; [|done] end.
    destruct (set_UV _ uv' w) as [w'|] eqn:Hset; simpl in Hb; [|done].
    eapply same_on_set; [exact Hw | exact Hb | by eapply set_UV_base].
  - apply (for_loop_preserves same_base) in Hloop;
      [done | done | apply same_on_trans |].
    intros j t t' Hb. simpl in Hb.
    destruct (t !! j) as [w|] eqn:Hw; simpl in Hb; [|done].
    match type of Hb with (?uv ≫= _) = _ =>
      destruct uv as [uv'|]; simpl in Hb; [|done] end.
    destruct (set_UV _ uv' w) as [w'|] eqn:Hset; simpl in Hb; [|done].
    eapply same_on_set; [exact Hw | exact Hb | by eapply set_UV_base].
Qed.

(** A left fold of failing steps keeps what every step keeps. *)
Lemma foldl_option_preserves {St A} (R : St → St → Prop)
    (f : St → A → option St) (l : list A) (s s' : St) :
  (∀ t, R t t) →
  (∀ t1 t2 t3, R t1 t2 → R t2 t3 → R t1 t3) →
  (∀ t a t', f t a = Some t' → R t t') →
  foldl (λ acc a, t ← acc; f t a) (Some s) l = Some s' → R s s'.
Proof.
  intros Hrefl Htrans Hf. revert s.
  induction l as [|a l IH]; intros s; simpl.
  - intros [= <-]. apply Hrefl.
  - destruct (f s a) as [t|] eqn:Ht.
    + intros H. eapply Htrans; [by eapply Hf | by apply IH].
    + intros H. exfalso. clear -H.
      induction l as [|b l IH]; simpl in H; [done | by apply IH].
  Qed.

Lemma consolidateTextureCoordinates_base model primitive dup idx n vs s :
  consolidateTextureCoordinates model primitive dup idx n vs = Some s →
  same_base vs (uv_vertices s).
Proof.
  unfold consolidateTextureCoordinates. intros H.
  match type of H with (?fold ≫= _) = _ =>
    destruct fold as [s1|] eqn:Hfold; simpl in H; [|done] end.
  apply (foldl_option_preserves
           (λ s s', same_base (uv_vertices s) (uv_vertices s'))) in Hfold;
    [| done | intros ???; apply same_on_trans |].
  - simpl in Hfold. eapply same_on_trans; [done|].
    apply (for_loop_preserves
             (λ s s', same_base (uv_vertices s) (uv_vertices s'))) in H;
      [done | done | intros ???; apply same_on_trans |].
    intros j t t' Hb. unfold updateOverlaySlot in Hb.
    destruct (attributes primitive !! _).
    + destruct (updateTextureCoordinates _ _ _ _ _ _ _) as [[[k v] m]|] eqn:Hu;
        simpl in Hb; [|done].
      destruct (array_set _ _ _); simpl in Hb; [|done].
      simplify_eq. simpl. by eapply updateTextureCoordinates_base.
    + destruct (array_set _ _ _); simpl in Hb; [|done]. by simplify_eq.
  - intros t [name tex] t' Hb. unfold updateMaterialSlot in Hb.
    destruct (updateTextureCoordinates_texture _ _ _ _ _ _ _)
      as [[[k v] m]|] eqn:Hu; simpl in Hb; [|done].
    simplify_eq. simpl in *. unfold updateTextureCoordinates_texture in Hu.
    destruct tex; [by eapply updateTextureCoordinates_base|].
    by simplify_eq.
Qed.

Lemma copyNormals_base dup view idx vs vs' :
  copyNormals dup view idx vs = Some vs' → same_base vs vs'.
Proof.
  unfold copyNormals. destruct dup; intros H.
  - apply (for_loop_preserves same_base) in H;
      [done | done | apply same_on_trans |].
    intros j t t' Hb. simpl in Hb.
    destruct (t !! j) as [w|] eqn:Hw; simpl in Hb; [|done].
    destruct (idx !! j) as [vi|]; simpl in Hb; [|done].
    destruct (view_at view vi) as [n|]; simpl in Hb; [|done].
    eapply same_on_set; [exact Hw | exact Hb | done].
  - apply (for_loop_preserves same_base) in H;
      [done | done | apply same_on_trans |].
    intros j t t' Hb. simpl in Hb.
    destruct (t !! j) as [w|] eqn:Hw; simpl in Hb; [|done].
    destruct (view_at view (Z.of_nat j)) as [n|]; simpl in Hb; [|done].
    eapply same_on_set; [exact Hw | exact Hb | done].
Qed.

Lemma copyTangents_base E dup view idx vs vs' :
  copyTangents E dup view idx vs = Some vs' → same_base vs vs'.
Proof.
  unfold copyTangents. destruct dup; intros H.
  - apply (for_loop_preserves same_base) in H;
      [done | done | apply same_on_trans |].
    intros j t t' Hb. simpl in Hb.
    destruct (t !! j) as [w|] eqn:Hw; simpl in Hb; [|done].
    destruct (idx !! j) as [vi|]; simpl in Hb; [|done].
    destruct (view_at view vi) as [n|]; simpl in Hb; [|done].
    eapply same_on_set; [exact Hw | exact Hb | done].
  - apply (for_loop_preserves same_base) in H;
      [done | done | apply same_on_trans |].
    intros j t t' Hb. simpl in Hb.
    destruct (t !! j) as [w|] eqn:Hw; simpl in Hb; [|done].
    destruct (view_at view (Z.of_nat j)) as [n|]; simpl in Hb; [|done].
    eapply same_on_set; [exact Hw | exact Hb | done].
Qed.

Lemma computeFlatNormals_base E idx vs vs' :
  computeFlatNormals E idx vs = Some vs' → same_base vs vs'.
Proof.
  unfold computeFlatNormals. intros H.
  apply (for_loop_preserves same_base) in H;
    [done | done | apply same_on_trans |].
  intros j t t' Hb. simpl in Hb.
  destruct (t !! j) as [w0|] eqn:Hw0; simpl in Hb; [|done].
  destruct (t !! (j + 1)) as [w1|] eqn:Hw1; simpl in Hb; [|done].
  destruct (t !! (j + 2)) as [w2|] eqn:Hw2; simpl in Hb; [|done].
  destruct (array_set t j _) as [t1|] eqn:H1; simpl in Hb; [|done].
  destruct (array_set t1 (j + 1) _) as [t2|] eqn:H2; simpl in Hb; [|done].
  pose proof (array_set_inv _ _ _ _ H1) as [? ->].
  pose proof (array_set_inv _ _ _ _ H2) as [? ->].
  eapply same_on_trans;
    [eapply same_on_set; [exact Hw0 | exact H1 | done]|].
  eapply same_on_trans.
  - eapply (same_on_set _ _ _ _ w1); [| exact H2 | done].
    rewrite list_lookup_insert_ne by lia. exact Hw1.
  - eapply (same_on_set _ _ _ _ w2); [| exact Hb | done].
    rewrite !list_lookup_insert_ne by lia. exact Hw2.
Qed.

Lemma computeTangentSpace_base E vs vs' :
  computeTangentSpace E vs = Some vs' → same_base vs vs'.
Proof.
  unfold computeTangentSpace.
  apply (foldl_option_preserves same_base);
    [done | apply same_on_trans |].
  intros t call t' Hb. unfold mikkSetTSpaceBasic in Hb.
  destruct (t !! _) as [w|] eqn:Hw; simpl in Hb; [|done].
  eapply same_on_set; [exact Hw | exact Hb | done].
Qed.

(** ** The vertex array after the position pass *)

(** With duplication: one vertex per index occurrence, placed at the
    position the accessor holds at that index. *)
Lemma copyPositions_duplicated E view idx origin vs0 vs radius :
  length vs0 = length idx →
  copyPositions E true view idx origin vs0 = Some (vs, radius) →
  length vs = length idx ∧
  ∀ i vi, idx !! i = Some vi →
    ∃ p, view_at view vi = Some p ∧ Position <$> vs !! i = Some p.
Proof.
  intros Hlen H. unfold copyPositions in H.
  apply (for_loop_partial
    (λ j s, j ≤ length idx ∧ length s.1 = length idx ∧
       ∀ i vi, i < j → idx !! i = Some vi →
         ∃ p, view_at view vi = Some p ∧ Position <$> s.1 !! i = Some p))
    in H as (j & _ & Hj & _ & Hl & Hall).
  - simpl in *. split; [done|]. intros i vi Hvi. apply Hall; [|done].
    apply lookup_lt_Some in Hvi. lia.
  - lia.
  - simpl. split; [lia|]. split; [done|]. intros; lia.
  - intros j [t r] [t' r'] _ Hj (_ & Hl & Hall) Hb. simpl in *.
    destruct (t !! j) as [w|] eqn:Hw; simpl in Hb; [|done].
    destruct (idx !! j) as [vj|] eqn:Hvj; simpl in Hb; [|done].
    destruct (view_at view vj) as [p|] eqn:Hp; simpl in Hb; [|done].
    destruct (set_UV 0 zero2 _) as [w1|] eqn:H1; simpl in Hb; [|done].
    destruct (set_UV 2 zero2 w1) as [w2|] eqn:H2; simpl in Hb; [|done].
    destruct (array_set t j w2) as [t2|] eqn:Hset; simpl in Hb; [|done].
    simplify_eq. apply array_set_inv in Hset as [Hjt ->].
    split; [lia|]. rewrite length_insert. split; [done|].
    intros i vi Hi Hvi. destruct (decide (i = j)) as [->|Hne].
    + rewrite list_lookup_insert_eq by done. simplify_eq.
      exists p. split; [done|]. simpl.
      apply set_UV_Position in H2. apply set_UV_Position in H1.
      by rewrite H2, H1.
    + rewrite list_lookup_insert_ne by done. apply Hall; [lia|done].
Qed.

(** Without duplication: one vertex per element of the accessor, in the
    order of the accessor. *)
Lemma copyPositions_shared E view idx origin vs0 vs radius :
  length vs0 = length (elements view) →
  copyPositions E false view idx origin vs0 = Some (vs, radius) →
  Position <$> vs = elements view.
Proof.
  intros Hlen H. unfold copyPositions in H.
  apply (for_loop_partial
    (λ j s, j ≤ length vs0 ∧ length s.1 = length vs0 ∧
       ∀ i, i < j → Position <$> s.1 !! i = elements view !! i))
    in H as (j & _ & Hj & _ & Hl & Hall).
  - simpl in *. apply list_eq. intros i. rewrite list_lookup_fmap.
    destruct (decide (i < length vs0)) as [Hi|Hi].
    + apply Hall. lia.
    + rewrite !lookup_ge_None_2 by lia. done.
  - lia.
  - simpl. split; [lia|]. split; [done|]. intros; lia.
  - intros j [t r] [t' r'] _ Hj (_ & Hl & Hall) Hb. simpl in *.
    destruct (t !! j) as [w|] eqn:Hw; simpl in Hb; [|done].
    destruct (view_at view (Z.of_nat j)) as [p|] eqn:Hp; simpl in Hb; [|done].
    destruct (set_UV 0 zero2 _) as [w1|] eqn:H1; simpl in Hb; [|done].
    destruct (set_UV 2 zero2 w1) as [w2|] eqn:H2; simpl in Hb; [|done].
    destruct (array_set t j w2) as [t2|] eqn:Hset; simpl in Hb; [|done].
    simplify_eq. apply array_set_inv in Hset as [Hjt ->].
    split; [lia|]. rewrite length_insert. split; [done|].
    intros i Hi. destruct (decide (i = j)) as [->|Hne].
    + rewrite list_lookup_insert_eq by done. simpl.
      apply set_UV_Position in H2. apply set_UV_Position in H1.
      rewrite H2, H1. simpl.
      unfold view_at in Hp. rewrite decide_True in Hp by lia.
      by rewrite Nat2Z.id in Hp.
    + rewrite list_lookup_insert_ne by done. apply Hall. lia.
Qed.

(** ** The stages of a successful build *)

(** The passes a vertex array goes through, and what each of them keeps. *)
Lemma buildVertices_stages E options model primitive view origin idx hvc uv radius :
  buildVertices E options model primitive view origin idx = Some (hvc, uv, radius) →
  ∃ vs0 vs1 vs2 vs5,
    SetNum defaultVertex
      (if duplicateVertices E options model primitive
       then Z.of_nat (length idx) else view_size view) = Some vs0 ∧
    copyPositions E (duplicateVertices E options model primitive) view idx
      origin vs0 = Some (vs1, radius) ∧
    match attributes primitive !! "COLOR_0" with
    | Some colorAccessorID =>
        ColorVisitor (duplicateVertices E options model primitive) vs1 idx
          (viewAny model colorAccessorID) = Some (hvc, vs2)
    | None => hvc = false ∧ vs2 = vs1
    end ∧
    same_positions vs1 vs2 ∧
    same_base vs2 vs5 ∧
    (if needsTangents E options model primitive
        && negb (hasTangents model primitive)
     then computeTangentSpace E vs5 = Some (uv_vertices uv)
     else uv_vertices uv = vs5) ∧
    same_base vs5 (uv_vertices uv).
Proof.
  unfold buildVertices. intros H.
  destruct (SetNum _ _) as [vs0|] eqn:H0; simpl in H; [|done].
  destruct (copyPositions _ _ _ _ _ _) as [[vs1 r1]|] eqn:H1; simpl in H; [|done].
  match type of H with (?c ≫= _) = _ =>
    destruct c as [[hv vs2]|] eqn:H2; simpl in H; [|done] end.
  destruct (consolidateTextureCoordinates _ _ _ _ _ _) as [s|] eqn:H3;
    simpl in H; [|done].
  match type of H with (?c ≫= _) = _ =>
    destruct c as [vs4|] eqn:H4; simpl in H; [|done] end.
  match type of H with (?c ≫= _) = _ =>
    destruct c as [vs5|] eqn:H5; simpl in H; [|done] end.
  match type of H with (?c ≫= _) = _ =>
    destruct c as [vs6|] eqn:H6; simpl in H; [|done] end.
  simplify_eq. exists vs0, vs1, vs2, vs5. simpl.
  split; [done|]. split; [done|].
  assert (same_base vs2 (uv_vertices s)) as S23
    by by eapply consolidateTextureCoordinates_base.
  assert (same_base (uv_vertices s) vs4) as S34.
  { destruct (hasNormals model primitive).
    - by eapply copyNormals_base.
    - by eapply computeFlatNormals_base. }
  assert (same_base vs4 vs5) as S45.
  { destruct (hasTangents model primitive).
    - by eapply copyTangents_base.
    - by simplify_eq. }
  assert (same_base vs5 vs6) as S56.
  { destruct (_ && _).
    - by eapply computeTangentSpace_base.
    - by simplify_eq. }
  split; [|split; [|split; [|split; [|done]]]].
  - destruct (attributes primitive !! "COLOR_0"); [done | by simplify_eq].
  - destruct (attributes primitive !! "COLOR_0").
    + by eapply ColorVisitor_positions.
    + by simplify_eq.
  - repeat (eapply same_on_trans; [eassumption|]). done.
  - destruct (_ && _); [done | by simplify_eq].
Qed.

(** Every later pass keeps what the position pass wrote. *)
Lemma buildVertices_inv E options model primitive view origin idx hvc uv radius :
  buildVertices E options model primitive view origin idx = Some (hvc, uv, radius) →
  ∃ vs0 vs1,
    SetNum defaultVertex
      (if duplicateVertices E options model primitive
       then Z.of_nat (length idx) else view_size view) = Some vs0 ∧
    copyPositions E (duplicateVertices E options model primitive) view idx
      origin vs0 = Some (vs1, radius) ∧
    same_positions vs1 (uv_vertices uv).
Proof.
  intros (vs0 & vs1 & vs2 & vs5 & H0 & H1 & _ & S12 & S25 & _ & S56)
    %buildVertices_stages.
  exists vs0, vs1. split; [done|]. split; [done|].
  eapply same_on_trans; [exact S12|].
  apply same_base_positions. by eapply same_on_trans.
Qed.

Lemma buildVertices_duplicated E options model primitive view origin idx hvc uv radius :
  duplicateVertices E options model primitive = true →
  buildVertices E options model primitive view origin idx = Some (hvc, uv, radius) →
  length (uv_vertices uv) = length idx ∧
  ∀ i vi, idx !! i = Some vi →
    ∃ p, view_at view vi = Some p ∧ Position <$> uv_vertices uv !! i = Some p.
Proof.
  intros Hdup (vs0 & vs1 & H0 & H1 & Hsame)%buildVertices_inv.
  rewrite Hdup in *. apply SetNum_length in H0.
  apply copyPositions_duplicated in H1 as [Hl Hall]; [|lia].
  split.
  - by rewrite (same_on_length _ _ _ Hsame).
  - intros i vi Hvi. destruct (Hall i vi Hvi) as (p & Hp & Hpos).
    exists p. split; [done|].
    rewrite <- list_lookup_fmap, Hsame, list_lookup_fmap. done.
Qed.

Lemma buildVertices_shared E options model primitive view origin idx hvc uv radius :
  duplicateVertices E options model primitive = false →
  buildVertices E options model primitive view origin idx = Some (hvc, uv, radius) →
  Position <$> uv_vertices uv = elements view.
Proof.
  intros Hdup (vs0 & vs1 & H0 & H1 & Hsame)%buildVertices_inv.
  rewrite Hdup in *. apply SetNum_length in H0.
  apply copyPositions_shared in H1; [|unfold view_size in H0; lia].
  by rewrite Hsame.
Qed.

(** What a loaded primitive went through. *)
Lemma loadPrimitive_Loaded E options model primitive acc view ix r :
  loadPrimitive E options model primitive acc view ix = Some (Loaded r) →
  ∃ aaBox idx uv,
    (mode primitive = TRIANGLES ∨ mode primitive = TRIANGLE_STRIP) ∧
    status view = Valid ∧
    computeAABox acc view = Some aaBox ∧
    (Origin (res_Bounds r), BoxExtent (res_Bounds r))
      = GetCenterAndExtents E aaBox ∧
    normalizedIndices primitive ix = Some idx ∧
    buildVertices E options model primitive view (Origin (res_Bounds r)) idx
      = Some (res_hasColorVertexData r, uv, SphereRadius (res_Bounds r)) ∧
    res_vertices r = uv_vertices uv ∧
    reverseWinding (duplicateVertices E options model primitive) idx
      = Some (res_indices r) ∧
    buildCollisionMesh options (res_vertices r) (res_indices r)
      = Some (res_pCollisionMesh r) ∧
    res_trace r =
      loadTrace E options model primitive
        (bool_decide (length (res_vertices r) ≠ 0
                      ∧ length (res_indices r) ≠ 0)) ∧
    res_onlyWater r = wm_onlyWater (applyWaterMask E model primitive) ∧
    res_waterMaskTexture r
      = wm_waterMaskTexture (applyWaterMask E model primitive).
Proof.
  unfold loadPrimitive. intros H.
  destruct (decide (mode primitive ≠ TRIANGLES ∧ _)) as [|Hmode]; [done|].
  destruct (decide (status view ≠ Valid)) as [|Hst]; [done|].
  match type of H with (if ?c then _ else _) = _ => destruct c; [done|] end.
  destruct (computeAABox acc view) as [aaBox|] eqn:Hbox; simpl in H; [|done].
  destruct (GetCenterAndExtents E aaBox) as [origin extent] eqn:Hce.
  destruct (normalizedIndices primitive ix) as [idx|] eqn:Hidx; simpl in H; [|done].
  destruct (buildVertices _ _ _ _ _ _ _) as [[[hvc uv] radius]|] eqn:Hbv;
    simpl in H; [|done].
  destruct (reverseWinding _ idx) as [idx'|] eqn:Hrev; simpl in H; [|done].
  destruct (buildCollisionMesh _ _ _) as [coll|] eqn:Hcoll; simpl in H; [|done].
  simplify_eq. simpl. exists aaBox, idx, uv.
  repeat split; try done.
  - destruct (mode primitive); naive_solver.
  - by destruct (status view); try done; destruct Hst.
Qed.

Lemma flatResult_loaded :
  loadPrimitive sampleEngine chaosOptions sampleModel flatPrimitive
    sampleAccessor samplePositions sampleIndices = Some (Loaded flatResult).
Proof. vm_compute. reflexivity. Qed.

Lemma smoothResult_loaded :
  loadPrimitive sampleEngine chaosOptions sampleModel smoothPrimitive
    sampleAccessor samplePositions sampleIndices = Some (Loaded smoothResult).
Proof. vm_compute. reflexivity. Qed.

(** ** The normalised indices are [uint32] values *)

Lemma copyTriangleIndices_spec (indicesView : list Z) :
  copyTriangleIndices indicesView = Some (uint32 <$> indicesView).
Proof.
  unfold copyTriangleIndices, SetNum. rewrite decide_True by lia. simpl.
  rewrite Nat2Z.id.
  match goal with |- for_loop _ _ _ ?b ?s = _ => set (body := b); set (s0 := s) end.
  destruct (for_loop_total
    (λ j out, length out = length indicesView ∧
       ∀ k, k < j → out !! k = uint32 <$> indicesView !! k)
    body 0 (length indicesView) 1 s0) as (j & out & Hrun & _ & Hj & Hlen & Hout).
  - lia.
  - subst s0. rewrite length_replicate. split; [done|]. intros; lia.
  - intros j out _ Hj (Hlen & Hout).
    destruct (lookup_lt_is_Some_2 indicesView j) as [v Hv]; [lia|].
    subst body. simpl. rewrite Hv. simpl.
    rewrite array_set_Some by lia. eexists. split; [done|].
    rewrite length_insert. split; [done|].
    intros k Hk. destruct (decide (k = j)) as [->|Hne].
    + rewrite list_lookup_insert_eq by lia. by rewrite Hv.
    + rewrite list_lookup_insert_ne by lia. apply Hout. lia.
  - rewrite Hrun. f_equal. apply list_eq. intros k.
    rewrite list_lookup_fmap.
    destruct (decide (k < length indicesView)).
    + apply Hout. lia.
    + rewrite !lookup_ge_None_2 by lia. done.
Qed.



(** ** Normals *)

(** The normal pass stores, for every vertex, the normal the accessor holds
    at the source index of the vertex. *)
Lemma copyNormals_spec (dup : bool) view (idx : list Z)
    (vs vs' : list FStaticMeshBuildVertex) :
  copyNormals dup view idx vs = Some vs' →
  ∀ i, i < (if dup then length idx else length vs) →
    ∃ vi n,
      (if dup then idx !! i = Some vi else vi = Z.of_nat i) ∧
      view_at view vi = Some n ∧
      TangentZ <$> vs' !! i = Some n.
Proof.
  unfold copyNormals. destruct dup; intros H.
  - apply (for_loop_partial
      (λ j t, length t = length vs ∧
         ∀ i, i < j →
           ∃ vi n, idx !! i = Some vi ∧ view_at view vi = Some n ∧
                   TangentZ <$> t !! i = Some n))
      in H as (j & _ & Hj & _ & Hall).
    + intros i Hi. apply Hall. lia.
    + lia.
    + split; [done|]. intros; lia.
    + intros j t t' _ Hj [Hlen Hall] Hb. simpl in Hb.
      destruct (t !! j) as [w|] eqn:Hw; simpl in Hb; [|done].
      destruct (idx !! j) as [vi|] eqn:Hvi; simpl in Hb; [|done].
      destruct (view_at view vi) as [n|] eqn:Hn; simpl in Hb; [|done].
      apply array_set_inv in Hb as [Hjt ->].
      split; [by rewrite length_insert|]. intros i Hi.
      destruct (decide (i = j)) as [->|Hne].
      * exists vi, n. rewrite list_lookup_insert_eq by done. done.
      * rewrite list_lookup_insert_ne by done. apply Hall. lia.
  - apply (for_loop_partial
      (λ j t, length t = length vs ∧
         ∀ i, i < j →
           ∃ vi n, vi = Z.of_nat i ∧ view_at view vi = Some n ∧
                   TangentZ <$> t !! i = Some n))
      in H as (j & _ & Hj & _ & Hall).
    + intros i Hi. apply Hall. lia.
    + lia.
    + split; [done|]. intros; lia.
    + intros j t t' _ Hj [Hlen Hall] Hb. simpl in Hb.
      destruct (t !! j) as [w|] eqn:Hw; simpl in Hb; [|done].
      destruct (view_at view (Z.of_nat j)) as [n|] eqn:Hn; simpl in Hb; [|done].
      apply array_set_inv in Hb as [Hjt ->].
      split; [by rewrite length_insert|]. intros i Hi.
      destruct (decide (i = j)) as [->|Hne].
      * exists (Z.of_nat j), n. rewrite list_lookup_insert_eq by done. done.
      * rewrite list_lookup_insert_ne by done. apply Hall. lia.
Qed.

Lemma copyTangents_normals E dup view idx vs vs' :
  copyTangents E dup view idx vs = Some vs' → same_on TangentZ vs vs'.
Proof.
  unfold copyTangents. destruct dup; intros H.
  - apply (for_loop_preserves (same_on TangentZ)) in H;
      [done | done | apply same_on_trans |].
    intros j t t' Hb. simpl in Hb.
    destruct (t !! j) as [w|] eqn:Hw; simpl in Hb; [|done].
    destruct (idx !! j) as [vi|]; simpl in Hb; [|done].
    destruct (view_at view vi) as [n|]; simpl in Hb; [|done].
    eapply same_on_set; [exact Hw | exact Hb | done].
  - apply (for_loop_preserves (same_on TangentZ)) in H;
      [done | done | apply same_on_trans |].
    intros j t t' Hb. simpl in Hb.
    destruct (t !! j) as [w|] eqn:Hw; simpl in Hb; [|done].
    destruct (view_at view (Z.of_nat j)) as [n|]; simpl in Hb; [|done].
    eapply same_on_set; [exact Hw | exact Hb | done].
Qed.

Lemma computeTangentSpace_normals E vs vs' :
  computeTangentSpace E vs = Some vs' → same_on TangentZ vs vs'.
Proof.
  unfold computeTangentSpace.
  apply (foldl_option_preserves (same_on TangentZ));
    [done | apply same_on_trans |].
  intros t call t' Hb. unfold mikkSetTSpaceBasic in Hb.
  destruct (t !! _) as [w|] eqn:Hw; simpl in Hb; [|done].
  eapply same_on_set; [exact Hw | exact Hb | done].
Qed.

(** The normals of a build that has a valid NORMAL accessor. *)
Lemma buildVertices_normals E options model primitive view origin idx hvc uv radius :
  hasNormals model primitive = true →
  buildVertices E options model primitive view origin idx = Some (hvc, uv, radius) →
  ∀ i, i < length (uv_vertices uv) →
    ∃ vi n,
      (if duplicateVertices E options model primitive
       then idx !! i = Some vi else vi = Z.of_nat i) ∧
      view_at (normalAccessor model primitive) vi = Some n ∧
      TangentZ <$> uv_vertices uv !! i = Some n.
Proof.
  intros Hnormals H.
  pose proof (buildVertices_stages _ _ _ _ _ _ _ _ _ _ H)
    as (vs0 & vs1 & vs2' & vs5' & H0 & H1 & _ & S12 & S25 & _ & S56).
  assert (duplicateVertices E options model primitive = true →
          length idx = length (uv_vertices uv)) as Hlenidx.
  { intros Hdup. by destruct (buildVertices_duplicated _ _ _ _ _ _ _ _ _ _ Hdup H). }
  unfold buildVertices in H. rewrite H0 in H. simpl in H.
  rewrite H1 in H. simpl in H.
  match type of H with (?c ≫= _) = _ =>
    destruct c as [[hv vs2]|] eqn:H2; simpl in H; [|done] end.
  destruct (consolidateTextureCoordinates _ _ _ _ _ _) as [s|] eqn:H3;
    simpl in H; [|done].
  rewrite Hnormals in H.
  destruct (copyNormals _ _ _ _) as [vs4|] eqn:H4; simpl in H; [|done].
  match type of H with (?c ≫= _) = _ =>
    destruct c as [vs5|] eqn:H5; simpl in H; [|done] end.
  match type of H with (?c ≫= _) = _ =>
    destruct c as [vs6|] eqn:H6; simpl in H; [|done] end.
  simplify_eq. simpl in *.
  assert (same_on TangentZ vs4 vs6) as S46.
  { eapply same_on_trans.
    - destruct (hasTangents model primitive).
      + by eapply copyTangents_normals.
      + simplify_eq. apply same_on_refl.
    - destruct (_ && _).
      + by eapply computeTangentSpace_normals.
      + simplify_eq. apply same_on_refl. }
  assert (length (uv_vertices s) = length vs6) as Hlen.
  { rewrite (same_on_length _ _ _ S46).
    symmetry. eapply (same_on_length vertex_base).
    by eapply copyNormals_base. }
  intros i Hi.
  destruct (copyNormals_spec _ _ _ _ _ H4 i) as (vi & n & Hvi & Hn & Hz).
  { destruct (duplicateVertices E options model primitive);
      [rewrite Hlenidx by done|]; lia. }
  exists vi, n. split; [done|]. split; [done|].
  by rewrite (same_on_lookup _ _ _ i S46).
Qed.

(** ** Vertex duplication *)

(** C1.  The builder duplicates vertices exactly when the normals are
    missing or invalid, or tangents are required and not supplied.  With
    duplication the vertex array has one vertex per index occurrence, each at
    the position the accessor holds at that index; without it the array has
    one vertex per accessor element, in accessor order.  Either way a valid
    NORMAL accessor gives every vertex the normal of its source index. *)
Theorem vertex_duplication E options model primitive acc view ix r :
  loadPrimitive E options model primitive acc view ix = Some (Loaded r) →
  duplicateVertices E options model primitive
    = negb (hasNormals model primitive)
      || (needsTangents E options model primitive
          && negb (hasTangents model primitive)) ∧
  ∃ idx,
    normalizedIndices primitive ix = Some idx ∧
    length (res_indices r) = length idx ∧
    (if duplicateVertices E options model primitive then
      length (res_vertices r) = length (res_indices r) ∧
      ∀ i vi, idx !! i = Some vi →
        ∃ p, view_at view vi = Some p ∧
             Position <$> res_vertices r !! i = Some p
    else
      Z.of_nat (length (res_vertices r)) = view_size view ∧
      Position <$> res_vertices r = elements view) ∧
    (hasNormals model primitive = true →
     ∀ i, i < length (res_vertices r) →
       ∃ vi n,
         (if duplicateVertices E options model primitive
          then idx !! i = Some vi else vi = Z.of_nat i) ∧
         view_at (normalAccessor model primitive) vi = Some n ∧
         TangentZ <$> res_vertices r !! i = Some n).
Proof.
  intros (aaBox & idx & uv & _ & _ & _ & _ & Hidx & Hbv & Hvs & Hrev & _)
    %loadPrimitive_Loaded.
  split; [done|]. exists idx. split; [done|].
  assert (hasNormals model primitive = true →
     ∀ i, i < length (res_vertices r) →
       ∃ vi n,
         (if duplicateVertices E options model primitive
          then idx !! i = Some vi else vi = Z.of_nat i) ∧
         view_at (normalAccessor model primitive) vi = Some n ∧
         TangentZ <$> res_vertices r !! i = Some n) as Hnormals.
  { intros Hn. rewrite Hvs. by eapply buildVertices_normals. }
  assert (length (res_indices r) = length idx) as Hlen.
  { destruct (duplicateVertices E options model primitive).
    - destruct (reverseWinding_duplicated idx) as (out & Ho & Hl & _).
      rewrite Ho in Hrev. by simplify_eq.
    - destruct (reverseWinding_shared idx) as (out & Ho & Hl & _).
      rewrite Ho in Hrev. by simplify_eq. }
  split; [done|]. split; [|done]. rewrite Hvs.
  destruct (duplicateVertices E options model primitive) eqn:Hdup.
  - apply buildVertices_duplicated in Hbv as [Hl Hall]; [|done].
    split; [lia | done].
  - apply buildVertices_shared in Hbv; [|done].
    split; [|done]. unfold view_size.
    by rewrite <- Hbv, length_fmap.
Qed.

Lemma vertex_duplication_witness :
  loadPrimitive sampleEngine chaosOptions sampleModel flatPrimitive
    sampleAccessor samplePositions sampleIndices = Some (Loaded flatResult) ∧
  duplicateVertices sampleEngine chaosOptions sampleModel flatPrimitive
    = negb (hasNormals sampleModel flatPrimitive)
      || (needsTangents sampleEngine chaosOptions sampleModel flatPrimitive
          && negb (hasTangents sampleModel flatPrimitive)) ∧
  ∃ idx,
    normalizedIndices flatPrimitive sampleIndices = Some idx ∧
    length (res_indices flatResult) = length idx ∧
    (if duplicateVertices sampleEngine chaosOptions sampleModel flatPrimitive
     then
       length (res_vertices flatResult) = length (res_indices flatResult) ∧
       ∀ i vi, idx !! i = Some vi →
         ∃ p, view_at samplePositions vi = Some p ∧
              Position <$> res_vertices flatResult !! i = Some p
     else
       Z.of_nat (length (res_vertices flatResult)) = view_size samplePositions ∧
       Position <$> res_vertices flatResult = elements samplePositions) ∧
    (hasNormals sampleModel flatPrimitive = true →
     ∀ i, i < length (res_vertices flatResult) →
       ∃ vi n,
         (if duplicateVertices sampleEngine chaosOptions sampleModel
               flatPrimitive
          then idx !! i = Some vi else vi = Z.of_nat i) ∧
         view_at (normalAccessor sampleModel flatPrimitive) vi = Some n ∧
         TangentZ <$> res_vertices flatResult !! i = Some n).
Proof.
  split; [vm_compute; reflexivity|].
  apply (vertex_duplication sampleEngine chaosOptions sampleModel
           flatPrimitive sampleAccessor samplePositions sampleIndices).
  vm_compute. reflexivity.
Defined.

(** ** The trace of a build *)

Lemma wm_trace_cases E model primitive :
  wm_trace (applyWaterMask E model primitive) = [] ∨
  wm_trace (applyWaterMask E model primitive) = ["water mask"].
Proof.
  unfold applyWaterMask.
  destruct (extras primitive !! "OnlyWater"); [|by left].
  destruct (extras primitive !! "OnlyLand"); [|by left].
  destruct (_ && _); [by right | by left].
Qed.



(** ** Winding reversal of a loaded primitive *)



Example smoothResult_indices : res_indices smoothResult = [2; 1; 0]%Z.
Proof. reflexivity. Qed.

Example flatResult_indices : res_indices flatResult = [2; 1; 0]%Z.
Proof. reflexivity. Qed.

(** ** Triangle strips *)

(** C3.  A triangle strip of [M ≥ 3] indices is normalised to [3 * (M - 2)]
    list indices; strip position [i] emits [(s i, s (i+1), s (i+2))] when
    [i] is even and [(s i, s (i+2), s (i+1))] when [i] is odd, each value
    stored as [uint32]. *)
Theorem triangle_strip_expansion primitive ix M :
  mode primitive = TRIANGLE_STRIP →
  length (index_elements ix) = M →
  3 ≤ M →
  ∃ indices,
    normalizedIndices primitive ix = Some indices ∧
    length indices = 3 * (M - 2) ∧
    ∀ i s0 s1 s2, i ≤ M - 3 →
      index_elements ix !! i = Some s0 →
      index_elements ix !! (i + 1) = Some s1 →
      index_elements ix !! (i + 2) = Some s2 →
      indices !! (3 * i) = Some (uint32 s0) ∧
      indices !! (3 * i + 1) = Some (uint32 (if Nat.even i then s1 else s2)) ∧
      indices !! (3 * i + 2) = Some (uint32 (if Nat.even i then s2 else s1)).
Proof.
  intros Hmode HM H3. unfold normalizedIndices, copyIndices.
  rewrite Hmode, decide_False by done.
  destruct (copyTriangleStripIndices_spec (index_elements ix))
    as (out & Hout & Hlen & Hall); [lia|].
  exists out. split; [done|]. split; [lia|].
  intros i s0 s1 s2 Hi. apply Hall. lia.
Qed.

Lemma triangle_strip_expansion_witness :
  mode stripPrimitive = TRIANGLE_STRIP ∧
  length (index_elements stripIndices) = 5 ∧
  3 ≤ 5 ∧
  ∃ indices,
    normalizedIndices stripPrimitive stripIndices = Some indices ∧
    length indices = 3 * (5 - 2) ∧
    ∀ i s0 s1 s2, i ≤ 5 - 3 →
      index_elements stripIndices !! i = Some s0 →
      index_elements stripIndices !! (i + 1) = Some s1 →
      index_elements stripIndices !! (i + 2) = Some s2 →
      indices !! (3 * i) = Some (uint32 s0) ∧
      indices !! (3 * i + 1) = Some (uint32 (if Nat.even i then s1 else s2)) ∧
      indices !! (3 * i + 2) = Some (uint32 (if Nat.even i then s2 else s1)).
Proof.
  split; [reflexivity|]. split; [reflexivity|]. split; [lia|].
  apply (triangle_strip_expansion stripPrimitive stripIndices 5);
    [reflexivity | reflexivity | lia].
Defined.

Example strip_of_five :
  normalizedIndices stripPrimitive stripIndices
  = Some [10; 11; 12; 11; 13; 12; 12; 13; 14]%Z.
Proof. vm_compute. reflexivity. Qed.

(** A strip of fewer than two indices asks [SetNum] for a negative count. *)
Lemma triangle_strip_too_short primitive ix :
  mode primitive = TRIANGLE_STRIP →
  length (index_elements ix) < 2 →
  normalizedIndices primitive ix = None.
Proof.
  intros Hmode Hlen. unfold normalizedIndices, copyIndices.
  rewrite Hmode, decide_False by done.
  unfold copyTriangleStripIndices, SetNum. by rewrite decide_False by lia.
Qed.

(** ** Collision meshes *)

(** A loop that fills slot [i] with [f i] yields the list of the [f i]. *)
Lemma fill_loop {A B} (src : list A) (f : nat → A → B) (d : B) :
  for_loop 0 (length src) 1
    (λ i out, w ← src !! i; array_set out i (f i w))
    (replicate (length src) d)
  = Some (imap f src).
Proof.
  match goal with |- for_loop _ _ _ ?b ?s = _ => set (body := b); set (s0 := s) end.
  destruct (for_loop_total
    (λ j out, length out = length src ∧
       ∀ k, k < j → out !! k = f k <$> src !! k)
    body 0 (length src) 1 s0) as (j & out & Hrun & _ & Hj & Hlen & Hout).
  - lia.
  - subst s0. rewrite length_replicate. split; [done|]. intros; lia.
  - intros j out _ Hj (Hlen & Hout).
    destruct (lookup_lt_is_Some_2 src j) as [v Hv]; [lia|].
    subst body. simpl. rewrite Hv. simpl.
    rewrite array_set_Some by lia. eexists. split; [done|].
    rewrite length_insert. split; [done|].
    intros k Hk. destruct (decide (k = j)) as [->|Hne].
    + rewrite list_lookup_insert_eq by lia. by rewrite Hv.
    + rewrite list_lookup_insert_ne by lia. apply Hout. lia.
  - rewrite Hrun. f_equal. apply list_eq. intros k.
    rewrite list_lookup_imap.
    destruct (decide (k < length src)).
    + apply Hout. lia.
    + rewrite !lookup_ge_None_2 by lia. done.
Qed.

Lemma collision_vertices (vertexData : list FStaticMeshBuildVertex) :
  for_loop 0 (length vertexData) 1
    (λ i vertices, w ← vertexData !! i; array_set vertices i (Position w))
    (replicate (length vertexData) zero3)
  = Some (Position <$> vertexData).
Proof.
  rewrite (fill_loop vertexData (λ _, Position) zero3).
  f_equal. apply list_eq. intros k.
  by rewrite list_lookup_imap, list_lookup_fmap.
Qed.

Lemma collision_faceRemap (n : nat) :
  for_loop 0 n 1 (λ i faceRemap, array_set faceRemap i (Z.of_nat i))
    (replicate n 0%Z)
  = Some (Z.of_nat <$> seq 0 n).
Proof.
  pose proof (fill_loop (seq 0 n) (λ i _, Z.of_nat i) 0%Z) as H.
  rewrite length_seq in H.
  assert (∀ fuel i s,
    for_step fuel i n 1 (λ i faceRemap, array_set faceRemap i (Z.of_nat i)) s
    = for_step fuel i n 1
        (λ i out, w ← seq 0 n !! i; array_set out i (Z.of_nat i)) s) as Heq.
  { induction fuel as [|fuel IH]; intros i s; simpl; [done|].
    case_decide as Hi; [|done].
    rewrite (lookup_seq_lt _ _ _ Hi). simpl.
    destruct (array_set s i (Z.of_nat i)); simpl; [apply IH | done]. }
  unfold for_loop in *. rewrite Heq, H. f_equal.
  apply list_eq. intros k. rewrite list_lookup_imap, list_lookup_fmap.
  destruct (seq 0 n !! k) eqn:E; simpl; [|done].
  apply lookup_seq in E as [-> _]. done.
Qed.

(** [fillTriangles]: the triple of triangle [t] is read at
    [index0 = cast (3 * t)], its first two entries exchanged. *)
Lemma fillTriangles_inv cast idx n tris :
  fillTriangles cast idx n = Some tris →
  length tris = Z.to_nat (cast n) ∧
  ∀ t, t < Z.to_nat (cast n) →
    ∃ a b c,
      idx !! Z.to_nat (cast (3 * Z.of_nat t)%Z + 1) = Some a ∧
      idx !! Z.to_nat (cast (3 * Z.of_nat t)%Z) = Some b ∧
      idx !! Z.to_nat (cast (3 * Z.of_nat t)%Z + 2) = Some c ∧
      tris !! t = Some (cast a, cast b, cast c).
Proof.
  unfold fillTriangles. intros H.
  apply (for_loop_partial
    (λ j tris, j ≤ Z.to_nat (cast n) ∧ length tris = j ∧
       ∀ t, t < j →
         ∃ a b c,
           idx !! Z.to_nat (cast (3 * Z.of_nat t)%Z + 1) = Some a ∧
           idx !! Z.to_nat (cast (3 * Z.of_nat t)%Z) = Some b ∧
           idx !! Z.to_nat (cast (3 * Z.of_nat t)%Z + 2) = Some c ∧
           tris !! t = Some (cast a, cast b, cast c)))
    in H as (j & _ & Hj & Hle & Hlen & Hall).
  - split; [lia|]. intros t Ht. apply Hall. lia.
  - lia.
  - split; [lia|]. split; [done|]. intros; lia.
  - intros j t t' _ Hj (_ & Hlen & Hall) Hb. simpl in Hb.
    destruct (idx !! Z.to_nat (cast (3 * Z.of_nat j)%Z + 1)) as [a|] eqn:Ha;
      simpl in Hb; [|done].
    destruct (idx !! Z.to_nat (cast (3 * Z.of_nat j)%Z)) as [b|] eqn:Hb';
      simpl in Hb; [|done].
    destruct (idx !! Z.to_nat (cast (3 * Z.of_nat j)%Z + 2)) as [c|] eqn:Hc;
      simpl in Hb; [|done].
    simplify_eq. split; [lia|]. rewrite length_app. simpl. split; [lia|].
    intros k Hk. destruct (decide (k = length t)) as [->|Hne].
    + exists a, b, c. repeat split; try done.
      rewrite lookup_app_r by lia. by rewrite Nat.sub_diag.
    + destruct (Hall k) as (a' & b' & c' & ? & ? & ? & ?); [lia|].
      exists a', b', c'. repeat split; try done.
      rewrite lookup_app_l by lia. done.
Qed.

Lemma fillTriangles_total cast idx n :
  (∀ t, t < Z.to_nat (cast n) →
     Z.to_nat (cast (3 * Z.of_nat t)%Z) + 2 < length idx ∧
     (0 ≤ cast (3 * Z.of_nat t)%Z)%Z) →
  is_Some (fillTriangles cast idx n).
Proof.
  intros Hin. unfold fillTriangles.
  match goal with |- is_Some (for_loop _ _ _ ?b ?s) => set (body := b) end.
  destruct (for_loop_total (λ _ _, True) body 0 (Z.to_nat (cast n)) 1 [])
    as (j & out & Hrun & _); [lia | done | | by rewrite Hrun].
  intros j t _ Hj _. destruct (Hin j Hj) as [Hlt Hnn].
  subst body. simpl.
  destruct (lookup_lt_is_Some_2 idx (Z.to_nat (cast (3 * Z.of_nat j)%Z + 1)))
    as [a ->]; [lia|].
  destruct (lookup_lt_is_Some_2 idx (Z.to_nat (cast (3 * Z.of_nat j)%Z)))
    as [b ->]; [lia|].
  destruct (lookup_lt_is_Some_2 idx (Z.to_nat (cast (3 * Z.of_nat j)%Z + 2)))
    as [c ->]; [lia|].
  simpl. eauto.
Qed.

(** With 16-bit indices [index0] wraps from triangle 21846 on: that
    triangle is read at offset 2 of the index buffer, not at 65538. *)
Lemma fillTriangles_narrow_wraps idx n tris :
  fillTriangles uint16 idx n = Some tris →
  (21846 < uint16 n)%Z →
  ∃ a b c,
    idx !! 3 = Some a ∧ idx !! 2 = Some b ∧ idx !! 4 = Some c ∧
    tris !! Z.to_nat 21846 = Some (uint16 a, uint16 b, uint16 c).
Proof.
  intros [_ Hall]%fillTriangles_inv Hn.
  destruct (Hall (Z.to_nat 21846)) as (a & b & c & Ha & Hb & Hc & Ht); [lia|].
  rewrite Z2Nat.id in Ha, Hb, Hc by lia.
  by exists a, b, c.
Qed.

(** The shape of a Chaos mesh: the width follows the vertex count alone. *)
Lemma BuildChaosTriangleMeshes_eq vertexData indices :
  BuildChaosTriangleMeshes vertexData indices =
  let n := length indices / 3 in
  if decide (Z.of_nat (length vertexData) < UINT16_MAX)%Z then
    triangles ← fillTriangles uint16 indices (Z.of_nat n);
    Some (ChaosTriMesh (Position <$> vertexData) Narrow16 triangles
            (replicate n 0%Z) (Z.of_nat <$> seq 0 n))
  else
    triangles ← fillTriangles int32 indices (Z.of_nat n);
    Some (ChaosTriMesh (Position <$> vertexData) Wide32 triangles
            (replicate n 0%Z) (Z.of_nat <$> seq 0 n)).
Proof.
  unfold BuildChaosTriangleMeshes.
  rewrite collision_vertices. simpl.
  rewrite collision_faceRemap. simpl. done.
Qed.

(** The triples handed to the PhysX cooker keep the order of the index
    buffer. *)
Lemma BuildPhysXTriangleMeshes_eq vertexData indices :
  ∃ tris,
    BuildPhysXTriangleMeshes true vertexData indices
      = Some (Some (PhysXTriMesh (Position <$> vertexData) tris)) ∧
    length tris = length indices / 3 ∧
    ∀ t i0 i1 i2,
      indices !! (3 * t) = Some i0 →
      indices !! (3 * t + 1) = Some i1 →
      indices !! (3 * t + 2) = Some i2 →
      tris !! t = Some (int32 i0, int32 i1, int32 i2).
Proof.
  unfold BuildPhysXTriangleMeshes. rewrite collision_vertices. simpl.
  set (n := length indices / 3).
  match goal with |- ∃ _, (for_loop _ _ _ ?b ?s ≫= _) = _ ∧ _ =>
    set (body := b); set (s0 := s) end.
  pose proof (Nat.Div0.mul_div_le (length indices) 3) as Hn. fold n in Hn.
  destruct (for_loop_total
    (λ j out, length out = n ∧
       ∀ t i0 i1 i2, t < j →
         indices !! (3 * t) = Some i0 → indices !! (3 * t + 1) = Some i1 →
         indices !! (3 * t + 2) = Some i2 →
         out !! t = Some (int32 i0, int32 i1, int32 i2))
    body 0 n 1 s0) as (j & out & Hrun & _ & Hj & Hlen & Hout).
  - lia.
  - subst s0. rewrite length_replicate. split; [done|]. intros; lia.
  - intros j out _ Hj (Hlen & Hout).
    destruct (lookup_lt_is_Some_2 indices (3 * j)) as [a Ha]; [lia|].
    destruct (lookup_lt_is_Some_2 indices (3 * j + 1)) as [b Hb]; [lia|].
    destruct (lookup_lt_is_Some_2 indices (3 * j + 2)) as [c Hc]; [lia|].
    subst body. simpl. rewrite Ha, Hb, Hc. simpl.
    rewrite array_set_Some by lia. eexists. split; [done|].
    rewrite length_insert. split; [done|].
    intros t i0 i1 i2 Ht H0 H1 H2. destruct (decide (t = j)) as [->|Hne].
    + rewrite list_lookup_insert_eq by lia. by simplify_eq.
    + rewrite list_lookup_insert_ne by lia. apply Hout; [lia|done..].
  - exists out. rewrite Hrun. simpl. split; [done|]. split; [done|].
    intros t i0 i1 i2 H0 H1 H2. apply Hout; [|done..].
    apply lookup_lt_Some in H2.
    pose proof (Nat.div_mod_eq (length indices) 3) as Hdm. fold n in Hdm.
    pose proof (Nat.mod_upper_bound (length indices) 3). lia.
Qed.






(** ** Index width of the collision mesh *)

(** C9 (as amended).  No collision mesh is built for a primitive without
    vertices or without indices.  Otherwise a Chaos mesh is built with
    16-bit triangles exactly when the vertex count is strictly below
    [UINT16_MAX = 65535], and with 32-bit triangles from 65535 vertices
    on. *)
Theorem collision_index_width E options model primitive acc view ix r :
  loadPrimitive E options model primitive acc view ix = Some (Loaded r) →
  (length (res_vertices r) = 0 ∨ length (res_indices r) = 0 →
   res_pCollisionMesh r = None) ∧
  (physics options = Chaos →
   length (res_vertices r) ≠ 0 → length (res_indices r) ≠ 0 →
   ∃ particles width triangles materials faceRemap,
     res_pCollisionMesh r
     = Some (ChaosTriMesh particles width triangles materials faceRemap) ∧
     (width = Narrow16 ↔ (Z.of_nat (length (res_vertices r)) < UINT16_MAX)%Z) ∧
     (width = Wide32 ↔ (UINT16_MAX ≤ Z.of_nat (length (res_vertices r)))%Z)).
Proof.
  intros (aaBox & idx & uv & _ & _ & _ & _ & _ & _ & _ & _ & Hcoll & _)
    %loadPrimitive_Loaded.
  unfold buildCollisionMesh in Hcoll. split.
  - intros Hempty. rewrite decide_False in Hcoll by lia. by simplify_eq.
  - intros Hchaos Hv Hi. rewrite decide_True, Hchaos in Hcoll by done.
    rewrite BuildChaosTriangleMeshes_eq in Hcoll. simpl in Hcoll.
    case_decide.
    + destruct (fillTriangles uint16 _ _) as [tris|]; simplify_eq/=.
      eexists _, _, _, _, _. split; [done|]. split; split; (done || lia).
    + destruct (fillTriangles int32 _ _) as [tris|]; simplify_eq/=.
      eexists _, _, _, _, _. split; [done|]. split; split; (done || lia).
Qed.

Lemma collision_index_width_witness :
  loadPrimitive sampleEngine chaosOptions sampleModel flatPrimitive
    sampleAccessor samplePositions sampleIndices
  = Some (Loaded flatResult) ∧
  (length (res_vertices flatResult) = 0 ∨ length (res_indices flatResult) = 0 →
   res_pCollisionMesh flatResult = None) ∧
  (physics chaosOptions = Chaos →
   length (res_vertices flatResult) ≠ 0 →
   length (res_indices flatResult) ≠ 0 →
   ∃ particles width triangles materials faceRemap,
     res_pCollisionMesh flatResult
     = Some (ChaosTriMesh particles width triangles materials faceRemap) ∧
     (width = Narrow16
      ↔ (Z.of_nat (length (res_vertices flatResult)) < UINT16_MAX)%Z) ∧
     (width = Wide32
      ↔ (UINT16_MAX ≤ Z.of_nat (length (res_vertices flatResult)))%Z)).
Proof.
  split; [vm_compute; reflexivity|].
  apply (collision_index_width sampleEngine chaosOptions sampleModel
           flatPrimitive sampleAccessor samplePositions sampleIndices).
  vm_compute. reflexivity.
Defined.

(** Against C9 as stated, at 65535 vertices: the count is a 16-bit
    value, yet the mesh is built with 32-bit triangles. *)
Lemma collision_index_width_counterexample :
  (Z.of_nat (length (replicate (Z.to_nat 65535) defaultVertex)) ≤ UINT16_MAX)%Z ∧
  BuildChaosTriangleMeshes (replicate (Z.to_nat 65535) defaultVertex)
    [0; 0; 0]%Z
  = Some (ChaosTriMesh
            (Position <$> replicate (Z.to_nat 65535) defaultVertex)
            Wide32 [(0, 0, 0)%Z] [0%Z] [0%Z]).
Proof.
  split.
  - rewrite length_replicate. unfold UINT16_MAX. lia.
  - rewrite BuildChaosTriangleMeshes_eq. rewrite length_replicate.
    rewrite decide_False by (unfold UINT16_MAX; lia).
    reflexivity.
Qed.

(** ** The order of IEEE-754 data *)

Lemma compare_cont_Eq_spec p q :
  CompareSpec (p = q) (p < q)%positive (q < p)%positive
    (Pos.compare_cont Eq p q).
Proof. change (Pos.compare_cont Eq p q) with (p ?= q)%positive. apply Pos.compare_spec. Qed.

Ltac float_cases :=
  repeat match goal with
  | x : spec_float |- _ => destruct x as [[]|[]| |[] ? ?]
  | x : float |- _ => destruct x as [[]|[]| |[] ? ?]
  | x : double |- _ => destruct x as [[]|[]| |[] ? ?]
  end.

Ltac compare_cases :=
  repeat match goal with
  | |- context [(?a ?= ?b)%Z] => destruct (Z.compare_spec a b)
  | H : context [(?a ?= ?b)%Z] |- _ => destruct (Z.compare_spec a b)
  | |- context [Pos.compare_cont Eq ?a ?b] =>
      destruct (compare_cont_Eq_spec a b)
  | H : context [Pos.compare_cont Eq ?a ?b] |- _ =>
      destruct (compare_cont_Eq_spec a b)
  end; simpl in *; try done; try lia.

Lemma SFleb_refl x : x ≠ S754_nan → SFleb x x = true.
Proof.
  intros Hx. unfold SFleb. float_cases; simpl; try done; compare_cases.
Qed.

Lemma SFleb_trans x y z :
  SFleb x y = true → SFleb y z = true → SFleb x z = true.
Proof.
  unfold SFleb. float_cases; simpl; try done; compare_cases.
Qed.

Lemma SFltb_leb x y : SFltb x y = true → SFleb x y = true.
Proof. unfold SFltb, SFleb. by destruct (SFcompare x y) as [[]|]. Qed.

Lemma SFltb_false_leb x y :
  x ≠ S754_nan → y ≠ S754_nan → SFltb y x = false → SFleb x y = true.
Proof.
  intros Hx Hy. unfold SFltb, SFleb.
  float_cases; simpl; try done; compare_cases.
Qed.

Lemma SFleb_ltb_absurd x y : SFleb x y = true → SFltb y x = true → False.
Proof.
  unfold SFltb, SFleb. float_cases; simpl; try done; compare_cases.
Qed.

Lemma DBL_MAX_eq : DBL_MAX = S754_finite false 9007199254740991 971.
Proof. vm_compute. reflexivity. Qed.

Lemma DBL_LOWEST_eq : DBL_LOWEST = S754_finite true 9007199254740991 971.
Proof. vm_compute. reflexivity. Qed.

Lemma finite_float_not_nan x : finite_float x → x ≠ S754_nan.
Proof. by destruct x. Qed.

(** Every finite single-precision number lies strictly between the two
    seeds of the bounding-box loop. *)
Lemma finite_float_below_DBL_MAX x : finite_float x → SFltb x DBL_MAX = true.
Proof.
  rewrite DBL_MAX_eq. destruct x as [s|s| |s m e].
  - intros _. by destruct s.
  - intros [].
  - intros [].
  - unfold finite_float, bounded. intros [_ He%Z.leb_le]%andb_prop.
    unfold SFltb, SFcompare. destruct s; [done|].
    destruct (Z.compare_spec e 971); [lia | done | lia].
Qed.

Lemma finite_float_above_DBL_LOWEST x :
  finite_float x → SFltb DBL_LOWEST x = true.
Proof.
  rewrite DBL_LOWEST_eq. destruct x as [s|s| |s m e].
  - intros _. by destruct s.
  - intros [].
  - intros [].
  - unfold finite_float, bounded. intros [_ He%Z.leb_le]%andb_prop.
    unfold SFltb, SFcompare. destruct s; [|done].
    destruct (Z.compare_spec 971 e); [lia | lia | done].
Qed.

(** ** Running minimum and maximum *)

Lemma glm_min_cases x y :
  x ≠ S754_nan → y ≠ S754_nan →
  (glm_min x y = x ∨ glm_min x y = y) ∧
  SFleb (glm_min x y) x = true ∧ SFleb (glm_min x y) y = true.
Proof.
  intros Hx Hy. unfold glm_min. destruct (SFltb y x) eqn:Hlt.
  - split; [by right|]. split; [by apply SFltb_leb | by apply SFleb_refl].
  - split; [by left|]. split; [by apply SFleb_refl | by apply SFltb_false_leb].
Qed.

Lemma glm_max_cases x y :
  x ≠ S754_nan → y ≠ S754_nan →
  (glm_max x y = x ∨ glm_max x y = y) ∧
  SFleb x (glm_max x y) = true ∧ SFleb y (glm_max x y) = true.
Proof.
  intros Hx Hy. unfold glm_max. destruct (SFltb x y) eqn:Hlt.
  - split; [by right|]. split; [by apply SFltb_leb | by apply SFleb_refl].
  - split; [by left|]. split; [by apply SFleb_refl | by apply SFltb_false_leb].
Qed.

Lemma running_min (l : list double) (seed : double) :
  seed ≠ S754_nan → Forall (λ x, x ≠ S754_nan) l →
  let m := foldl glm_min seed l in
  (m = seed ∨ m ∈ l) ∧ SFleb m seed = true ∧ ∀ x, x ∈ l → SFleb m x = true.
Proof.
  revert seed. induction l as [|y l IH]; intros seed Hseed Hl; simpl.
  - split; [by left|]. split; [by apply SFleb_refl|]. by intros x ?%elem_of_nil.
  - apply Forall_cons in Hl as [Hy Hl].
    destruct (glm_min_cases seed y Hseed Hy) as (Hc & Hs & Hy').
    assert (glm_min seed y ≠ S754_nan) as Hm by (destruct Hc; congruence).
    destruct (IH (glm_min seed y) Hm Hl) as (Hin & Hle & Hall).
    split; [|split].
    + destruct Hin as [->|Hin]; [|right; by apply elem_of_cons; right].
      destruct Hc as [->| ->]; [by left | right; apply elem_of_cons; by left].
    + by eapply SFleb_trans.
    + intros x [->|Hx]%elem_of_cons; [by eapply SFleb_trans | by apply Hall].
Qed.

Lemma running_max (l : list double) (seed : double) :
  seed ≠ S754_nan → Forall (λ x, x ≠ S754_nan) l →
  let m := foldl glm_max seed l in
  (m = seed ∨ m ∈ l) ∧ SFleb seed m = true ∧ ∀ x, x ∈ l → SFleb x m = true.
Proof.
  revert seed. induction l as [|y l IH]; intros seed Hseed Hl; simpl.
  - split; [by left|]. split; [by apply SFleb_refl|]. by intros x ?%elem_of_nil.
  - apply Forall_cons in Hl as [Hy Hl].
    destruct (glm_max_cases seed y Hseed Hy) as (Hc & Hs & Hy').
    assert (glm_max seed y ≠ S754_nan) as Hm by (destruct Hc; congruence).
    destruct (IH (glm_max seed y) Hm Hl) as (Hin & Hle & Hall).
    split; [|split].
    + destruct Hin as [->|Hin]; [|right; by apply elem_of_cons; right].
      destruct Hc as [->| ->]; [by left | right; apply elem_of_cons; by left].
    + by eapply SFleb_trans.
    + intros x [->|Hx]%elem_of_cons; [by eapply SFleb_trans | by apply Hall].
Qed.

(** Over a non-empty list of finite positions the running minimum from
    [DBL_MAX] is the least coordinate, the running maximum from
    [DBL_LOWEST] the greatest. *)
Lemma running_min_is_axis_min coord (ps : list TMeshVector3) :
  ps ≠ [] → Forall (λ p, finite_float (coord p)) ps →
  is_axis_min coord ps (foldl glm_min DBL_MAX (coord <$> ps)).
Proof.
  intros Hne Hfin.
  destruct (running_min (coord <$> ps) DBL_MAX) as (Hin & Hle & Hall).
  { by rewrite DBL_MAX_eq. }
  { apply Forall_fmap. eapply Forall_impl; [done|].
    intros p. apply finite_float_not_nan. }
  split.
  - destruct Hin as [Heq|Hin].
    + destruct ps as [|p ps]; [done|]. exfalso.
      apply Forall_cons in Hfin as [Hp _].
      apply (SFleb_ltb_absurd DBL_MAX (coord p)).
      * rewrite <- Heq at 1. apply Hall. simpl. apply elem_of_cons. by left.
      * by apply finite_float_below_DBL_MAX.
    + apply list_elem_of_fmap in Hin as (p & Hp & Hin). by exists p.
  - intros p Hp. apply Hall. by apply list_elem_of_fmap_2.
Qed.

Lemma running_max_is_axis_max coord (ps : list TMeshVector3) :
  ps ≠ [] → Forall (λ p, finite_float (coord p)) ps →
  is_axis_max coord ps (foldl glm_max DBL_LOWEST (coord <$> ps)).
Proof.
  intros Hne Hfin.
  destruct (running_max (coord <$> ps) DBL_LOWEST) as (Hin & Hle & Hall).
  { by rewrite DBL_LOWEST_eq. }
  { apply Forall_fmap. eapply Forall_impl; [done|].
    intros p. apply finite_float_not_nan. }
  split.
  - destruct Hin as [Heq|Hin].
    + destruct ps as [|p ps]; [done|]. exfalso.
      apply Forall_cons in Hfin as [Hp _].
      apply (SFleb_ltb_absurd (coord p) DBL_LOWEST).
      * rewrite <- Heq at 1. apply Hall. simpl. apply elem_of_cons. by left.
      * by apply finite_float_above_DBL_LOWEST.
    + apply list_elem_of_fmap in Hin as (p & Hp & Hin). by exists p.
  - intros p Hp. apply Hall. by apply list_elem_of_fmap_2.
Qed.

(** ** The bounding box *)

(** With declared bounds of three components each, the box is the declared
    one, whatever the view holds. *)
Lemma computeAABox_declared acc view min0 min1 min2 max0 max1 max2 :
  min acc = [min0; min1; min2] → max acc = [max0; max1; max2] →
  computeAABox acc view
  = Some (MkBox (MkDvec3 min0 min1 min2) (MkDvec3 max0 max1 max2)).
Proof.
  intros Hmin Hmax. unfold computeAABox. rewrite Hmin, Hmax.
  destruct (decide _) as [[?|?]|_]; done.
Qed.

(** Otherwise each bound is the running minimum or maximum of one
    coordinate over the view, seeded with [DBL_MAX] or [DBL_LOWEST]. *)
Lemma computeAABox_computed acc view :
  length (min acc) ≠ 3 ∨ length (max acc) ≠ 3 →
  computeAABox acc view
  = Some (MkBox
      (MkDvec3 (foldl glm_min DBL_MAX (vX <$> elements view))
               (foldl glm_min DBL_MAX (vY <$> elements view))
               (foldl glm_min DBL_MAX (vZ <$> elements view)))
      (MkDvec3 (foldl glm_max DBL_LOWEST (vX <$> elements view))
               (foldl glm_max DBL_LOWEST (vY <$> elements view))
               (foldl glm_max DBL_LOWEST (vZ <$> elements view)))).
Proof.
  intros Hno. unfold computeAABox. rewrite decide_True by done.
  set (ps := elements view).
  match goal with |- (for_loop _ _ _ ?b ?s ≫= _) = _ =>
    set (body := b); set (s0 := s) end.
  destruct (for_loop_total
    (λ j s, j ≤ length ps ∧
       s = (MkDvec3 (foldl glm_min DBL_MAX (vX <$> take j ps))
                    (foldl glm_min DBL_MAX (vY <$> take j ps))
                    (foldl glm_min DBL_MAX (vZ <$> take j ps)),
            MkDvec3 (foldl glm_max DBL_LOWEST (vX <$> take j ps))
                    (foldl glm_max DBL_LOWEST (vY <$> take j ps))
                    (foldl glm_max DBL_LOWEST (vZ <$> take j ps))))
    body 0 (length ps) 1 s0) as (j & s & Hrun & _ & Hj & Hle & ->).
  - lia.
  - split; [lia|]. done.
  - intros j s _ Hj (_ & ->).
    destruct (lookup_lt_is_Some_2 ps j) as [p Hp]; [lia|].
    subst body. cbv beta.
    replace (view_at view (Z.of_nat j)) with (Some p).
    2:{ unfold view_at. rewrite decide_True by lia. by rewrite Nat2Z.id. }
    eexists. split; [done|]. split; [lia|].
    replace (j + 1) with (S j) by lia.
    rewrite (take_S_r ps j p Hp), !fmap_app, !foldl_app. done.
  - rewrite Hrun. simpl. by rewrite take_ge by lia.
Qed.

(** C5 (as amended).  The bounds of a loaded primitive are derived from one
    box.  When the position accessor declares a minimum and a maximum of
    three components each, the box is the declared one, whatever the
    positions are.  Otherwise each bound is a running minimum or maximum
    seeded with the largest, respectively the lowest, double: for an
    accessor that holds at least one position and only finite coordinates
    each bound is the least, respectively the greatest, value of its
    coordinate over all positions, and for an accessor without positions
    the bounds are the seeds. *)
Theorem bounding_box E options model primitive acc view ix r :
  loadPrimitive E options model primitive acc view ix = Some (Loaded r) →
  ∃ box,
    computeAABox acc view = Some box ∧
    (Origin (res_Bounds r), BoxExtent (res_Bounds r))
      = GetCenterAndExtents E box ∧
    (∀ min0 min1 min2 max0 max1 max2,
       min acc = [min0; min1; min2] → max acc = [max0; max1; max2] →
       box = MkBox (MkDvec3 min0 min1 min2) (MkDvec3 max0 max1 max2)) ∧
    (length (min acc) ≠ 3 ∨ length (max acc) ≠ 3 →
     elements view ≠ [] →
     Forall finite_position (elements view) →
     is_axis_min vX (elements view) (dx (BoxMin box)) ∧
     is_axis_min vY (elements view) (dy (BoxMin box)) ∧
     is_axis_min vZ (elements view) (dz (BoxMin box)) ∧
     is_axis_max vX (elements view) (dx (BoxMax box)) ∧
     is_axis_max vY (elements view) (dy (BoxMax box)) ∧
     is_axis_max vZ (elements view) (dz (BoxMax box))) ∧
    (length (min acc) ≠ 3 ∨ length (max acc) ≠ 3 →
     elements view = [] →
     box = MkBox (MkDvec3 DBL_MAX DBL_MAX DBL_MAX)
                 (MkDvec3 DBL_LOWEST DBL_LOWEST DBL_LOWEST)).
Proof.
  intros (aaBox & idx & uv & _ & _ & Hbox & Hbounds & _)%loadPrimitive_Loaded.
  exists aaBox. split; [done|]. split; [done|]. split; [|split].
  - intros min0 min1 min2 max0 max1 max2 Hmin Hmax.
    rewrite (computeAABox_declared _ _ _ _ _ _ _ _ Hmin Hmax) in Hbox.
    by simplify_eq.
  - intros Hno Hne Hfin.
    rewrite (computeAABox_computed _ _ Hno) in Hbox. simplify_eq. simpl.
    repeat split;
      first [apply running_min_is_axis_min | apply running_max_is_axis_max];
      try done;
      (eapply Forall_impl; [exact Hfin|]); by intros p (? & ? & ?).
  - intros Hno Hempty.
    rewrite (computeAABox_computed _ _ Hno), Hempty in Hbox.
    by simplify_eq.
Qed.

Lemma bounding_box_witness :
  loadPrimitive sampleEngine chaosOptions sampleModel flatPrimitive
    sampleAccessor samplePositions sampleIndices
  = Some (Loaded flatResult) ∧
  ∃ box,
    computeAABox sampleAccessor samplePositions = Some box ∧
    (Origin (res_Bounds flatResult), BoxExtent (res_Bounds flatResult))
      = GetCenterAndExtents sampleEngine box ∧
    (length (min sampleAccessor) ≠ 3 ∨ length (max sampleAccessor) ≠ 3 →
     elements samplePositions ≠ [] →
     Forall finite_position (elements samplePositions) →
     is_axis_min vX (elements samplePositions) (dx (BoxMin box)) ∧
     is_axis_min vY (elements samplePositions) (dy (BoxMin box)) ∧
     is_axis_min vZ (elements samplePositions) (dz (BoxMin box)) ∧
     is_axis_max vX (elements samplePositions) (dx (BoxMax box)) ∧
     is_axis_max vY (elements samplePositions) (dy (BoxMax box)) ∧
     is_axis_max vZ (elements samplePositions) (dz (BoxMax box))).
Proof.
  split; [vm_compute; reflexivity|].
  destruct (bounding_box sampleEngine chaosOptions sampleModel flatPrimitive
              sampleAccessor samplePositions sampleIndices flatResult)
    as (box & Hbox & Hbounds & _ & Hcomputed & _); [vm_compute; reflexivity|].
  exists box. split; [exact Hbox|]. split; [exact Hbounds | exact Hcomputed].
Defined.

(** Against C5 as stated, for positions whose x coordinate is positive
    infinity: the accessor declares no bounds and the primitive is loaded,
    but no coordinate compares below the seed of the running minimum, so
    the lower x bound of the box is the largest double and not the x
    coordinate of any position. *)
Lemma bounding_box_counterexample :
  (length (min sampleAccessor) ≠ 3 ∨ length (max sampleAccessor) ≠ 3) ∧
  (∃ r, loadPrimitive sampleEngine chaosOptions sampleModel flatPrimitive
          sampleAccessor infinitePositions sampleIndices
        = Some (Loaded r)) ∧
  ∃ box,
    computeAABox sampleAccessor infinitePositions = Some box ∧
    dx (BoxMin box) = DBL_MAX ∧
    (∀ p, p ∈ elements infinitePositions → vX p = S754_infinity false) ∧
    ¬ is_axis_min vX (elements infinitePositions) (dx (BoxMin box)).
Proof.
  assert (∀ p, p ∈ elements infinitePositions → vX p = S754_infinity false)
    as Hinf.
  { intros p Hp. simpl in Hp.
    repeat (apply elem_of_cons in Hp as [->|Hp]; [reflexivity|]).
    by apply elem_of_nil in Hp. }
  split; [left; simpl; lia|]. split.
  - eexists. vm_compute. reflexivity.
  - eexists. split; [vm_compute; reflexivity|]. split; [reflexivity|].
    split; [exact Hinf|].
    intros [(p & Hp & Hx) _]. rewrite (Hinf p Hp) in Hx. discriminate.
Qed.

(** The sample positions are finite and not empty, and their box runs from
    (0,0,0) to (1,1,0). *)
Example samplePositions_finite :
  elements samplePositions ≠ [] ∧
  Forall finite_position (elements samplePositions).
Proof.
  split; [done|]. repeat constructor.
Qed.

Example samplePositions_box :
  computeAABox sampleAccessor samplePositions
  = Some (MkBox (MkDvec3 float_zero float_zero float_zero)
                (MkDvec3 float_one float_one float_zero)).
Proof. vm_compute. reflexivity. Qed.

(** Declared bounds (-1,-1,-1) and (1,1,1) give exactly that box for the
    sample positions, none of which touches it. *)
Example declared_bounds_box :
  let minus_one := S754_finite true 8388608 (-23) in
  computeAABox
    (MkAccessor (Some FLOAT) [minus_one; minus_one; minus_one]
       [float_one; float_one; float_one])
    samplePositions
  = Some (MkBox (MkDvec3 minus_one minus_one minus_one)
                (MkDvec3 float_one float_one float_one)).
Proof. vm_compute. reflexivity. Qed.

(** Without declared bounds an empty accessor leaves the two seeds. *)
Lemma computeAABox_empty acc status :
  length (min acc) ≠ 3 ∨ length (max acc) ≠ 3 →
  computeAABox acc (MkView status [])
  = Some (MkBox (MkDvec3 DBL_MAX DBL_MAX DBL_MAX)
                (MkDvec3 DBL_LOWEST DBL_LOWEST DBL_LOWEST)).
Proof. intros H. by rewrite (computeAABox_computed _ _ H). Qed.

(** ** Texture-coordinate consolidation *)

(** An entry of the accessor-id-to-channel map never changes. *)
Lemma updateTextureCoordinates_map_stable model primitive dup vs idx name
    (m : gmap Z Z) k vs' m' key channel :
  updateTextureCoordinates model primitive dup vs idx name m = Some (k, vs', m') →
  m !! key = Some channel → m' !! key = Some channel.
Proof.
  unfold updateTextureCoordinates. intros H Hkey.
  destruct (attributes primitive !! name) as [id|]; [|by simplify_eq].
  destruct (m !! uint32 id) eqn:Hid; [by simplify_eq|].
  assert (uint32 id ≠ key) as Hne by congruence.
  destruct (decide (status _ ≠ Valid)).
  - simplify_eq. by rewrite lookup_insert_ne.
  - match type of H with (?loop ≫= _) = _ =>
      destruct loop as [vs2|]; simpl in H; [|done] end.
    simplify_eq. by rewrite lookup_insert_ne.
Qed.

(** Querying an accessor that is already in the map returns the stored
    channel and changes nothing. *)
Lemma updateTextureCoordinates_mapped model primitive dup vs idx name
    (m : gmap Z Z) id channel :
  attributes primitive !! name = Some id →
  m !! uint32 id = Some channel →
  updateTextureCoordinates model primitive dup vs idx name m
  = Some (channel, vs, m).
Proof.
  intros Hname Hid. unfold updateTextureCoordinates. by rewrite Hname, Hid.
Qed.

(** After a first query the accessor is in the map. *)
Lemma updateTextureCoordinates_maps model primitive dup vs idx name
    (m : gmap Z Z) id k vs' m' :
  attributes primitive !! name = Some id →
  updateTextureCoordinates model primitive dup vs idx name m = Some (k, vs', m') →
  ∃ channel, m' !! uint32 id = Some channel ∧
    (status (viewVector2 model id) = Valid ∨ is_Some (m !! uint32 id) →
     k = channel).
Proof.
  intros Hname H. unfold updateTextureCoordinates in H. rewrite Hname in H.
  destruct (m !! uint32 id) as [ch|] eqn:Hid.
  - simplify_eq. exists k. split; [done|]. done.
  - destruct (decide (status _ ≠ Valid)) as [Hinv|Hval].
    + simplify_eq. eexists. split; [by rewrite lookup_insert_eq|].
      intros [?|[? ?]]; done.
    + match type of H with (?loop ≫= _) = _ =>
        destruct loop as [vs2|]; simpl in H; [|done] end.
      simplify_eq. eexists. split; [by rewrite lookup_insert_eq|]. done.
Qed.

(** For an accessor with a valid view consolidation is idempotent: the
    second query returns what the first returned. *)
Lemma updateTextureCoordinates_idempotent_valid model primitive dup vs idx name
    (m : gmap Z Z) id k vs' m' :
  attributes primitive !! name = Some id →
  status (viewVector2 model id) = Valid →
  updateTextureCoordinates model primitive dup vs idx name m = Some (k, vs', m') →
  updateTextureCoordinates model primitive dup vs' idx name m'
  = Some (k, vs', m').
Proof.
  intros Hname Hval H.
  destruct (updateTextureCoordinates_maps _ _ _ _ _ _ _ _ _ _ _ Hname H)
    as (ch & Hch & Heq).
  rewrite (Heq (or_introl Hval)).
  by apply updateTextureCoordinates_mapped with id.
Qed.

(** C6, at the failing input.  TEXCOORD_1 is an accessor with an invalid
    view, consolidated after TEXCOORD_0.  Its first consolidation returns 0,
    its second returns channel 1; in the loaded primitive the
    metallic-roughness and the normal texture, which read the same accessor,
    are told different channels. *)
Lemma consolidation_not_idempotent :
  (updateTextureCoordinates texturedModel texturedPrimitive false [] []
     "TEXCOORD_1" {[2%Z := 0%Z]}
   = Some (0%Z, [], <[3%Z := 1%Z]> {[2%Z := 0%Z]})) ∧
  (updateTextureCoordinates texturedModel texturedPrimitive false [] []
     "TEXCOORD_1" (<[3%Z := 1%Z]> {[2%Z := 0%Z]})
   = Some (1%Z, [], <[3%Z := 1%Z]> {[2%Z := 0%Z]})) ∧
  loadPrimitive sampleEngine chaosOptions texturedModel texturedPrimitive
    sampleAccessor samplePositions sampleIndices
  = Some (Loaded texturedResult) ∧
  res_textureCoordinateParameters texturedResult
    !! "metallicRoughnessTextureCoordinateIndex" = Some 0%Z ∧
  res_textureCoordinateParameters texturedResult
    !! "normalTextureCoordinateIndex" = Some 1%Z.
Proof. repeat split; vm_compute; reflexivity. Qed.

(** C10 (as amended).  When the UV attribute is present, its accessor is not
    yet in the map and its view is invalid, the consolidator maps the
    accessor to the next unused channel (the size of the map, which grows by
    one), returns index 0 and leaves every vertex as it was.  The channel
    differs from the returned 0 exactly when the map was not empty.  Later
    consolidations keep the entry. *)
Theorem invalid_uv_accessor_occupies_channel model primitive dup vs idx name
    (m : gmap Z Z) id :
  attributes primitive !! name = Some id →
  m !! uint32 id = None →
  status (viewVector2 model id) ≠ Valid →
  updateTextureCoordinates model primitive dup vs idx name m
  = Some (0%Z, vs, <[uint32 id := uint32 (Z.of_nat (size m))]> m) ∧
  size (<[uint32 id := uint32 (Z.of_nat (size m))]> m) = S (size m) ∧
  ((Z.of_nat (size m) < 2 ^ 32)%Z →
   (uint32 (Z.of_nat (size m)) ≠ 0%Z ↔ size m ≠ 0)) ∧
  ∀ dup' vs1 idx1 name1 k vs2 m2,
    updateTextureCoordinates model primitive dup' vs1 idx1 name1
      (<[uint32 id := uint32 (Z.of_nat (size m))]> m) = Some (k, vs2, m2) →
    m2 !! uint32 id = Some (uint32 (Z.of_nat (size m))).
Proof.
  intros Hname Hid Hinv. split; [|split; [|split]].
  - unfold updateTextureCoordinates. rewrite Hname, Hid.
    by rewrite decide_True.
  - by apply map_size_insert_None.
  - intros Hsmall. rewrite uint32_small by lia. lia.
  - intros dup' vs1 idx1 name1 k vs2 m2 H.
    eapply updateTextureCoordinates_map_stable; [exact H|].
    by rewrite lookup_insert_eq.
Qed.

Lemma invalid_uv_accessor_occupies_channel_witness :
  attributes texturedPrimitive !! "TEXCOORD_1" = Some 3%Z ∧
  ({[2%Z := 0%Z]} : gmap Z Z) !! uint32 3 = None ∧
  status (viewVector2 texturedModel 3) ≠ Valid ∧
  updateTextureCoordinates texturedModel texturedPrimitive true [] []
    "TEXCOORD_1" {[2%Z := 0%Z]}
  = Some (0%Z, [],
          <[uint32 3 := uint32 (Z.of_nat (size ({[2%Z := 0%Z]} : gmap Z Z)))]>
            {[2%Z := 0%Z]}).
Proof.
  split; [vm_compute; reflexivity|]. split; [vm_compute; reflexivity|].
  split; [vm_compute; discriminate|].
  apply (invalid_uv_accessor_occupies_channel texturedModel texturedPrimitive
           true [] [] "TEXCOORD_1" {[2%Z := 0%Z]} 3%Z).
  - vm_compute. reflexivity.
  - vm_compute. reflexivity.
  - vm_compute. discriminate.
Defined.

(** Against C10 as stated, for the first accessor of a build: the invalid
    accessor 3 is given channel 0, the very index that is returned. *)
Lemma invalid_uv_accessor_counterexample :
  status (viewVector2 texturedModel 3) ≠ Valid ∧
  updateTextureCoordinates texturedModel texturedPrimitive true [] []
    "TEXCOORD_1" ∅
  = Some (0%Z, [], {[3%Z := 0%Z]}).
Proof. split; [vm_compute; discriminate | vm_compute; reflexivity]. Qed.

(** ** Vertex colours *)

Lemma convertElement_unsupported c out :
  supported_component c = false → convertElement c out = Some (false, out).
Proof. by destruct c. Qed.

(** An element of any other shape fails to convert. *)
Lemma convertColor_unsupported e out :
  supported_shape e = false → ∃ color, convertColor e out = Some (false, color).
Proof.
  destruct e as [c|c0 c1|c0 c1 c2|c0 c1 c2 c3|cs|cs|cs]; simpl;
    try (by eexists); intros H;
    rewrite (convertElement_unsupported _ _ H); simpl; by eexists.
Qed.

(** Once a colour view holds only elements of other shapes, the first
    vertex visited makes the visitor fail. *)
Lemma ColorVisitor_unsupported (dup : bool)
    (vs : list FStaticMeshBuildVertex) (idx : list Z) cv ok vs' :
  Forall (λ e, supported_shape e = false) (elements cv) →
  (if dup then idx ≠ [] else vs ≠ []) →
  ColorVisitor dup vs idx (TypedView cv) = Some (ok, vs') → ok = false.
Proof.
  intros Hshape Hne H. unfold ColorVisitor in H.
  destruct (decide (status cv ≠ Valid)); [by simplify_eq|].
  assert (∀ vi color, view_at cv vi = Some color →
            supported_shape color = false) as Hat.
  { intros vi color Hc. unfold view_at in Hc. case_decide; [|done].
    eapply Forall_lookup_1 in Hshape; [|exact Hc]. done. }
  destruct dup.
  - apply (for_loop_partial (λ j s, 1 ≤ j → s.1 = false)) in H
      as (j & _ & Hj & Hdone).
    + simpl in Hdone. apply Hdone. destruct idx; [done|]. simpl in Hj. lia.
    + lia.
    + lia.
    + intros j [b t] [b' t'] _ _ _ Hb _. simpl in *.
      destruct b; simpl in Hb; [|by simplify_eq].
      destruct (t !! j) as [w|]; simpl in Hb; [|done].
      destruct (idx !! j) as [vi|]; simpl in Hb; [|done].
      destruct (decide (view_size cv ≤ vi)%Z); [by simplify_eq|].
      destruct (view_at cv vi) as [c|] eqn:Hc; simpl in Hb; [|done].
      destruct (convertColor_unsupported c (Color w) (Hat _ _ Hc)) as [c' Hc'].
      rewrite Hc' in Hb. simpl in Hb.
      destruct (array_set t j _); simpl in Hb; by simplify_eq.
  - apply (for_loop_partial (λ j s, 1 ≤ j → s.1 = false)) in H
      as (j & _ & Hj & Hdone).
    + simpl in Hdone. apply Hdone. destruct vs; [done|]. simpl in Hj. lia.
    + lia.
    + lia.
    + intros j [b t] [b' t'] _ _ _ Hb _. simpl in *.
      destruct b; simpl in Hb; [|by simplify_eq].
      destruct (t !! j) as [w|]; simpl in Hb; [|done].
      destruct (decide (view_size cv ≤ Z.of_nat j)%Z); [by simplify_eq|].
      destruct (view_at cv (Z.of_nat j)) as [c|] eqn:Hc; simpl in Hb; [|done].
      destruct (convertColor_unsupported c (Color w) (Hat _ _ Hc)) as [c' Hc'].
      rewrite Hc' in Hb. simpl in Hb.
      destruct (array_set t j _); simpl in Hb; by simplify_eq.
Qed.

(** A conversion that succeeds does not depend on the colour it
    overwrites. *)
Lemma convertElement_true c out x out' :
  convertElement c out = Some (true, x) → convertElement c out' = Some (true, x).
Proof. destruct c; simpl; intros; by simplify_option_eq. Qed.

Lemma convertElement_cases c out :
  convertElement c out = None ∨
  convertElement c out = Some (false, out) ∨
  ∃ x, convertElement c out = Some (true, x).
Proof.
  destruct c; simpl; eauto.
  destruct (float_to_uint8 _); simpl; eauto.
Qed.

Lemma convertColor_true e out c out' :
  convertColor e out = Some (true, c) → convertColor e out' = Some (true, c).
Proof.
  destruct e as [?|? ?|c0 c1 c2|c0 c1 c2 c3|?|?|?]; simpl; try done.
  - destruct (convertElement_cases c0 (cR out)) as [->|[->|[r H0]]];
      try done.
    rewrite H0, (convertElement_true _ _ _ (cR out') H0). simpl.
    destruct (convertElement_cases c1 (cG out)) as [->|[->|[g H1]]];
      try done.
    rewrite H1, (convertElement_true _ _ _ (cG out') H1). simpl.
    destruct (convertElement_cases c2 (cB out)) as [->|[->|[b H2]]];
      try done.
    rewrite H2, (convertElement_true _ _ _ (cB out') H2). simpl. done.
  - destruct (convertElement_cases c0 (cR out)) as [->|[->|[r H0]]];
      try done.
    rewrite H0, (convertElement_true _ _ _ (cR out') H0). simpl.
    destruct (convertElement_cases c1 (cG out)) as [->|[->|[g H1]]];
      try done.
    rewrite H1, (convertElement_true _ _ _ (cG out') H1). simpl.
    destruct (convertElement_cases c2 (cB out)) as [->|[->|[b H2]]];
      try done.
    rewrite H2, (convertElement_true _ _ _ (cB out') H2). simpl.
    destruct (convertElement_cases c3 (cA out)) as [->|[->|[a H3]]];
      try done.
    rewrite H3, (convertElement_true _ _ _ (cA out') H3). simpl. done.
Qed.

(** A visitor that succeeds has converted the colour of every vertex. *)
Lemma ColorVisitor_converted (dup : bool)
    (vs : list FStaticMeshBuildVertex) (idx : list Z) cv vs' :
  ColorVisitor dup vs idx (TypedView cv) = Some (true, vs') →
  ∀ i, i < (if dup then length idx else length vs) →
    ∃ vi e c,
      (if dup then idx !! i = Some vi else vi = Z.of_nat i) ∧
      view_at cv vi = Some e ∧
      convertColor e (MkColor 0 0 0 0) = Some (true, c) ∧
      Color <$> vs' !! i = Some c.
Proof.
  intros H. unfold ColorVisitor in H.
  destruct (decide (status cv ≠ Valid)) as [|Hst]; [by simplify_eq|].
  set (n := if dup then length idx else length vs).
  set (P := λ (j : nat) (s : bool * list FStaticMeshBuildVertex),
    length s.2 = length vs ∧
    (s.1 = true → ∀ i, i < j →
       ∃ vi e c,
         (if dup then idx !! i = Some vi else vi = Z.of_nat i) ∧
         view_at cv vi = Some e ∧
         convertColor e (MkColor 0 0 0 0) = Some (true, c) ∧
         Color <$> s.2 !! i = Some c)).
  assert (∃ j, n ≤ j ∧ P j (true, vs')) as (j & Hj & _ & Hall).
  { destruct dup.
    - apply (for_loop_partial P) in H as (j & _ & Hj & HP); [by exists j|lia| |].
      { unfold P. simpl. split; [done|]. intros; lia. }
      intros j [b t] [b' t'] _ Hj [Hlen Hall] Hb. simpl in *.
      destruct b; simpl in Hb; [|by simplify_eq].
      destruct (t !! j) as [w|] eqn:Hw; simpl in Hb; [|done].
      destruct (idx !! j) as [vi|] eqn:Hvi; simpl in Hb; [|done].
      destruct (decide (view_size cv ≤ vi)%Z); [by simplify_eq|].
      destruct (view_at cv vi) as [e|] eqn:He; simpl in Hb; [|done].
      destruct (convertColor e (Color w)) as [[ok c]|] eqn:Hc;
        simpl in Hb; [|done].
      destruct (array_set t j _) as [t2|] eqn:Hset; simpl in Hb; [|done].
      simplify_eq. apply array_set_inv in Hset as [Hjt ->].
      unfold P. simpl. split; [by rewrite length_insert|]. intros -> i Hi.
      destruct (decide (i = j)) as [->|Hne].
      + exists vi, e, c. rewrite list_lookup_insert_eq by done.
        repeat split; try done. by eapply convertColor_true.
      + rewrite list_lookup_insert_ne by done. apply Hall; [done|lia].
    - apply (for_loop_partial P) in H as (j & _ & Hj & HP); [by exists j|lia| |].
      { unfold P. simpl. split; [done|]. intros; lia. }
      intros j [b t] [b' t'] _ Hj [Hlen Hall] Hb. simpl in *.
      destruct b; simpl in Hb; [|by simplify_eq].
      destruct (t !! j) as [w|] eqn:Hw; simpl in Hb; [|done].
      destruct (decide (view_size cv ≤ Z.of_nat j)%Z); [by simplify_eq|].
      destruct (view_at cv (Z.of_nat j)) as [e|] eqn:He; simpl in Hb; [|done].
      destruct (convertColor e (Color w)) as [[ok c]|] eqn:Hc;
        simpl in Hb; [|done].
      destruct (array_set t j _) as [t2|] eqn:Hset; simpl in Hb; [|done].
      simplify_eq. apply array_set_inv in Hset as [Hjt ->].
      unfold P. simpl. split; [by rewrite length_insert|]. intros -> i Hi.
      destruct (decide (i = j)) as [->|Hne].
      + exists (Z.of_nat j), e, c. rewrite list_lookup_insert_eq by done.
        repeat split; try done. by eapply convertColor_true.
      + rewrite list_lookup_insert_ne by done. apply Hall; [done|lia]. }
  intros i Hi. apply Hall; [done|]. subst n. lia.
Qed.

(** C7 (as amended).  Per channel: a [uint8] value passes through, a
    [uint16] value [v] becomes [v / 256], a [float] value [v] becomes the
    integer part of the single-precision product [v * 255].  Per element: a
    3-component element gets alpha 255, a 4-component element converts its
    fourth channel; an element of any other shape fails to convert.  Per
    primitive: a colour accessor of any other shape leaves
    [bHasColorVertexData] false as soon as the primitive has one vertex, and
    a primitive that reports vertex colours has the converted colour on
    every vertex. *)
Theorem vertex_color_conversion :
  (∀ z out, convertElement (CUInt8 z) out = Some (true, z)) ∧
  (∀ z out, (0 ≤ z < 2 ^ 16)%Z →
     convertElement (CUInt16 z) out = Some (true, (z / 256)%Z) ∧
     (0 ≤ z / 256 ≤ 255)%Z) ∧
  (∀ f out t,
     float_trunc (float_mul f float_255) = Some t → (0 ≤ t ≤ 255)%Z →
     convertElement (CFloat f) out = Some (true, t)) ∧
  (∀ c0 c1 c2 out r g b,
     convertElement c0 (cR out) = Some (true, r) →
     convertElement c1 (cG out) = Some (true, g) →
     convertElement c2 (cB out) = Some (true, b) →
     convertColor (VEC3 c0 c1 c2) out = Some (true, MkColor r g b 255)) ∧
  (∀ c0 c1 c2 c3 out r g b a,
     convertElement c0 (cR out) = Some (true, r) →
     convertElement c1 (cG out) = Some (true, g) →
     convertElement c2 (cB out) = Some (true, b) →
     convertElement c3 (cA out) = Some (true, a) →
     convertColor (VEC4 c0 c1 c2 c3) out = Some (true, MkColor r g b a)) ∧
  (∀ e out, supported_shape e = false →
     ∃ color, convertColor e out = Some (false, color)) ∧
  (∀ E options model primitive acc view ix r colorAccessorID colorView,
     loadPrimitive E options model primitive acc view ix = Some (Loaded r) →
     attributes primitive !! "COLOR_0" = Some colorAccessorID →
     viewAny model colorAccessorID = TypedView colorView →
     (Forall (λ e, supported_shape e = false) (elements colorView) →
      res_vertices r ≠ [] →
      res_hasColorVertexData r = false) ∧
     (res_hasColorVertexData r = true →
      ∃ idx,
        normalizedIndices primitive ix = Some idx ∧
        ∀ i, i < length (res_vertices r) →
          ∃ vi e c,
            (if duplicateVertices E options model primitive
             then idx !! i = Some vi else vi = Z.of_nat i) ∧
            view_at colorView vi = Some e ∧
            convertColor e (MkColor 0 0 0 0) = Some (true, c) ∧
            Color <$> res_vertices r !! i = Some c)).
Proof.
  split; [done|]. split.
  { intros z out Hz. simpl. rewrite Z.quot_div_nonneg by lia.
    assert (0 ≤ z / 256 ≤ 255)%Z.
    { split; [apply Z.div_pos; lia|].
      apply Z.lt_succ_r, Z.div_lt_upper_bound; lia. }
    rewrite Z.mod_small by lia. done. }
  split.
  { intros f out t Ht Hr. simpl. unfold float_to_uint8. rewrite Ht. simpl.
    by rewrite decide_True. }
  split.
  { intros c0 c1 c2 out r g b H0 H1 H2. simpl.
    rewrite H0. simpl. rewrite H1. simpl. rewrite H2. done. }
  split.
  { intros c0 c1 c2 c3 out r g b a H0 H1 H2 H3. simpl.
    rewrite H0. simpl. rewrite H1. simpl. rewrite H2. simpl. rewrite H3. done. }
  split; [apply convertColor_unsupported|].
  intros E options model primitive acc view ix r id cv
    (aaBox & idx & uv & _ & _ & _ & _ & Hidx & Hbv & Hvs & _)%loadPrimitive_Loaded
    Hattr Hview.
  apply buildVertices_stages in Hbv
    as (vs0 & vs1 & vs2 & vs5 & H0 & H1 & Hcv & S12 & S25 & _ & S56).
  rewrite Hattr, Hview in Hcv.
  assert (same_base vs2 (res_vertices r)) as S2r
    by (rewrite Hvs; by eapply same_on_trans).
  assert (length vs1 = length (res_vertices r)) as Hlen1.
  { rewrite (same_on_length _ _ _ S2r). by rewrite (same_on_length _ _ _ S12). }
  assert (duplicateVertices E options model primitive = true →
          length idx = length vs1) as Hlenidx.
  { intros Hdup. rewrite Hdup in *. apply SetNum_length in H0.
    apply copyPositions_duplicated in H1 as [Hl _]; [done|lia]. }
  split.
  - intros Hshape Hne.
    eapply ColorVisitor_unsupported; [exact Hshape | | exact Hcv].
    destruct (duplicateVertices E options model primitive).
    + intros ->. specialize (Hlenidx eq_refl). simpl in Hlenidx.
      destruct (res_vertices r); [done|]. simpl in Hlen1. lia.
    + intros ->. simpl in Hlen1. by destruct (res_vertices r).
  - intros Htrue. rewrite Htrue in Hcv. exists idx. split; [done|].
    intros i Hi.
    destruct (ColorVisitor_converted _ _ _ _ _ Hcv i) as (vi & e & c & ? & ? & ? & Hc).
    { destruct (duplicateVertices E options model primitive);
        [rewrite Hlenidx by done|]; lia. }
    exists vi, e, c. repeat split; try done.
    rewrite (same_on_lookup _ _ _ i (same_base_colors _ _ S2r)). done.
Qed.

Lemma vertex_color_conversion_witness :
  loadPrimitive sampleEngine chaosOptions colorModel colorPrimitive
    sampleAccessor samplePositions sampleIndices
  = Some (Loaded scalarColorResult) ∧
  attributes colorPrimitive !! "COLOR_0" = Some 4%Z ∧
  viewAny colorModel 4 = scalarColors ∧
  res_vertices scalarColorResult ≠ [] ∧
  res_hasColorVertexData scalarColorResult = false.
Proof.
  split; [vm_compute; reflexivity|]. split; [vm_compute; reflexivity|].
  split; [reflexivity|]. split; [vm_compute; discriminate|].
  destruct vertex_color_conversion as (_ & _ & _ & _ & _ & _ & H).
  destruct (H sampleEngine chaosOptions colorModel colorPrimitive
              sampleAccessor samplePositions sampleIndices scalarColorResult
              4%Z (MkView Valid [SCALAR (CFloat float_one);
                                 SCALAR (CFloat float_one);
                                 SCALAR (CFloat float_one)])) as [Hfalse _].
  - vm_compute. reflexivity.
  - vm_compute. reflexivity.
  - reflexivity.
  - apply Hfalse; [repeat constructor | vm_compute; discriminate].
Defined.

(** Against C7 as stated, for a primitive without vertices: its colour
    accessor holds scalars, no element is ever converted, and the primitive
    reports vertex colours. *)
Lemma vertex_color_counterexample :
  loadPrimitive sampleEngine chaosOptions colorModel colorPrimitive
    sampleAccessor noPositions (IndexVector [])
  = Some (Loaded emptyColorResult) ∧
  attributes colorPrimitive !! "COLOR_0" = Some 4%Z ∧
  viewAny colorModel 4 = scalarColors ∧
  res_vertices emptyColorResult = [] ∧
  res_hasColorVertexData emptyColorResult = true.
Proof. repeat split; vm_compute; reflexivity. Qed.

(** The two conversions of the specification: the 8-bit colour
    (200,100,50,255) is unchanged, the float colour (1.0, 0.5, 0.0) becomes
    (255,127,0,255). *)
Example convert_uint8_color :
  convertColor (VEC4 (CUInt8 200) (CUInt8 100) (CUInt8 50) (CUInt8 255))
    (MkColor 0 0 0 0)
  = Some (true, MkColor 200 100 50 255).
Proof. reflexivity. Qed.

Example convert_float_color :
  convertColor (VEC3 (CFloat float_one) (CFloat float_half) (CFloat float_zero))
    (MkColor 0 0 0 0)
  = Some (true, MkColor 255 127 0 255).
Proof. vm_compute. reflexivity. Qed.

(** A float outside of [0, 1] has no defined conversion. *)
Example convert_float_out_of_range :
  convertElement (CFloat (S754_finite false 8388608 (-22))) 0%Z = None.
Proof. vm_compute. reflexivity. Qed.

(** ** Tangents *)

Lemma hasNormalMap_resolves model primitive :
  hasNormalMap model primitive = true ↔ normal_map_resolves model primitive.
Proof.
  unfold hasNormalMap, normal_map_resolves. split.
  - destruct (normalTexture _) as [info|]; [|done].
    destruct (getSafe (textures model) _) as [texture|] eqn:Ht; [|done].
    intros [image Hi]%bool_decide_eq_true. by exists info, texture, image.
  - intros (info & texture & image & -> & -> & Hi).
    apply bool_decide_eq_true. by exists image.
Qed.

Lemma needsTangents_true E options model primitive :
  needsTangents E options model primitive = true ↔
  hasNormalMap model primitive = true ∨
  alwaysIncludeTangents options = true ∨
  wm_onlyWater (applyWaterMask E model primitive) = true ∨
  wm_waterMaskTexture (applyWaterMask E model primitive) = true.
Proof.
  unfold needsTangents.
  destruct (hasNormalMap model primitive), (alwaysIncludeTangents options),
    (wm_onlyWater _), (wm_waterMaskTexture _); simpl; intuition congruence.
Qed.

(** The scope "compute tangents" is entered exactly when tangents are
    needed and not supplied. *)
Lemma compute_tangents_traced E options model primitive cooked :
  "compute tangents" ∈ loadTrace E options model primitive cooked ↔
  needsTangents E options model primitive = true ∧
  hasTangents model primitive = false.
Proof.
  unfold loadTrace.
  generalize (duplicateVertices E options model primitive). intros dup.
  destruct (wm_trace_cases E model primitive) as [-> | ->];
  destruct dup, (decide (mode primitive = TRIANGLES)),
    (decide (is_Some (attributes primitive !! "COLOR_0"))),
    (hasNormals model primitive), (hasTangents model primitive),
    (needsTangents E options model primitive), cooked,
    (physics options);
  apply (bool_decide_unpack _); vm_compute; exact I.
Qed.

(** A duplicated vertex array has one vertex per emitted index. *)
Lemma vertex_count_of_duplicated E options model primitive acc view ix r :
  loadPrimitive E options model primitive acc view ix = Some (Loaded r) →
  duplicateVertices E options model primitive = true →
  length (res_vertices r) = length (res_indices r).
Proof.
  intros (aaBox & idx & uv & _ & _ & _ & _ & Hidx & Hbv & Hvs & Hrev & _)
    %loadPrimitive_Loaded Hdup.
  rewrite Hdup in Hrev.
  destruct (reverseWinding_duplicated idx) as (out & Ho & Hl & _).
  rewrite Ho in Hrev. simplify_eq.
  apply buildVertices_duplicated in Hbv as [Hlv _]; [|done].
  rewrite Hvs. lia.
Qed.

Example tangentResult_trace :
  res_trace tangentResult
  = ["loadPrimitive<T>"; "compute AA bounding box"; "copy TRIANGLE indices";
     "copy duplicated positions"; "loadTextures"; "updateTextureCoordinates";
     "compute flat normals"; "compute tangents"; "init buffers";
     "reverse winding order of duplicated vertices"; "SetIndices";
     "Chaos cook"].
Proof. reflexivity. Qed.

(** * Further properties of the builder *)

(** ** Every pass of a successful build *)

Lemma buildVertices_passes E options model primitive view origin idx hvc uv radius :
  buildVertices E options model primitive view origin idx = Some (hvc, uv, radius) →
  ∃ vs0 vs1 vs2 uv0 vs3 vs4,
    SetNum defaultVertex
      (if duplicateVertices E options model primitive
       then Z.of_nat (length idx) else view_size view) = Some vs0 ∧
    copyPositions E (duplicateVertices E options model primitive) view idx
      origin vs0 = Some (vs1, radius) ∧
    match attributes primitive !! "COLOR_0" with
    | Some colorAccessorID =>
        ColorVisitor (duplicateVertices E options model primitive) vs1 idx
          (viewAny model colorAccessorID) = Some (hvc, vs2)
    | None => hvc = false ∧ vs2 = vs1
    end ∧
    consolidateTextureCoordinates model primitive
      (duplicateVertices E options model primitive) idx
      (overlaySlots options) vs2 = Some uv0 ∧
    (if hasNormals model primitive
     then copyNormals (duplicateVertices E options model primitive)
            (normalAccessor model primitive) idx (uv_vertices uv0) = Some vs3
     else computeFlatNormals E idx (uv_vertices uv0) = Some vs3) ∧
    (if hasTangents model primitive
     then copyTangents E (duplicateVertices E options model primitive)
            (tangentAccessor model primitive) idx vs3 = Some vs4
     else vs4 = vs3) ∧
    (if needsTangents E options model primitive
        && negb (hasTangents model primitive)
     then computeTangentSpace E vs4 = Some (uv_vertices uv)
     else uv_vertices uv = vs4) ∧
    uv_map uv = uv_map uv0 ∧
    uv_parameters uv = uv_parameters uv0 ∧
    uv_overlay uv = uv_overlay uv0.
Proof.
  unfold buildVertices. intros H.
  destruct (SetNum _ _) as [vs0|] eqn:H0; simpl in H; [|done].
  destruct (copyPositions _ _ _ _ _ _) as [[vs1 r1]|] eqn:H1; simpl in H; [|done].
  match type of H with (?c ≫= _) = _ =>
    destruct c as [[hv vs2]|] eqn:H2; simpl in H; [|done] end.
  destruct (consolidateTextureCoordinates _ _ _ _ _ _) as [s|] eqn:H3;
    simpl in H; [|done].
  match type of H with (?c ≫= _) = _ =>
    destruct c as [vs4|] eqn:H4; simpl in H; [|done] end.
  match type of H with (?c ≫= _) = _ =>
    destruct c as [vs5|] eqn:H5; simpl in H; [|done] end.
  match type of H with (?c ≫= _) = _ =>
    destruct c as [vs6|] eqn:H6; simpl in H; [|done] end.
  simplify_eq. exists vs0, vs1, vs2, s, vs4, vs5. simpl.
  split; [done|]. split; [done|].
  split; [destruct (attributes primitive !! "COLOR_0"); [done | by simplify_eq]|].
  split; [done|].
  split; [destruct (hasNormals model primitive); done|].
  split; [destruct (hasTangents model primitive); [done | by simplify_eq]|].
  split; [destruct (_ && _); [done | by simplify_eq]|].
  done.
Qed.

(** The fields of a loaded result that the render section and the material
    read. *)
Lemma loadPrimitive_fields E options model primitive acc view ix r :
  loadPrimitive E options model primitive acc view ix = Some (Loaded r) →
  ∃ idx uv,
    normalizedIndices primitive ix = Some idx ∧
    buildVertices E options model primitive view (Origin (res_Bounds r)) idx
      = Some (res_hasColorVertexData r, uv, SphereRadius (res_Bounds r)) ∧
    res_vertices r = uv_vertices uv ∧
    res_numTexCoords r
      = (if decide (size (uv_map uv) = 0) then 1 else size (uv_map uv)) ∧
    res_textureCoordinateParameters r = uv_parameters uv ∧
    res_overlayTextureCoordinateIDToUVIndex r = uv_overlay uv ∧
    res_NumTriangles r = length idx / 3 ∧
    res_MaxVertexIndex r = (Z.of_nat (length (res_vertices r)) - 1)%Z ∧
    res_stride r
      = (if decide (UINT16_MAX ≤ Z.of_nat (length (res_vertices r)))%Z
         then Force32Bit else Force16Bit) ∧
    res_onlyLand r = wm_onlyLand (applyWaterMask E model primitive).
Proof.
  unfold loadPrimitive. intros H.
  destruct (decide (mode primitive ≠ TRIANGLES ∧ _)) as [|Hmode]; [done|].
  destruct (decide (status view ≠ Valid)) as [|Hst]; [done|].
  match type of H with (if ?c then _ else _) = _ => destruct c; [done|] end.
  destruct (computeAABox acc view) as [aaBox|] eqn:Hbox; simpl in H; [|done].
  destruct (GetCenterAndExtents E aaBox) as [origin extent] eqn:Hce.
  destruct (normalizedIndices primitive ix) as [idx|] eqn:Hidx; simpl in H; [|done].
  destruct (buildVertices _ _ _ _ _ _ _) as [[[hvc uv] radius]|] eqn:Hbv;
    simpl in H; [|done].
  destruct (reverseWinding _ idx) as [idx'|] eqn:Hrev; simpl in H; [|done].
  destruct (buildCollisionMesh _ _ _) as [coll|] eqn:Hcoll; simpl in H; [|done].
  simplify_eq. simpl. exists idx, uv. done.
Qed.

(** ** Flat normals *)

Lemma computeFlatNormals_spec E idx vs vs' :
  computeFlatNormals E idx vs = Some vs' →
  length vs' = length vs ∧
  ∀ t, 3 * t < length idx →
    ∃ w0 w1 w2,
      vs !! (3 * t) = Some w0 ∧
      vs !! (3 * t + 1) = Some w1 ∧
      vs !! (3 * t + 2) = Some w2 ∧
      vs' !! (3 * t)
        = Some (flatVertex (faceNormal E (Position w0) (Position w1) (Position w2)) w0) ∧
      vs' !! (3 * t + 1)
        = Some (flatVertex (faceNormal E (Position w0) (Position w1) (Position w2)) w1) ∧
      vs' !! (3 * t + 2)
        = Some (flatVertex (faceNormal E (Position w0) (Position w1) (Position w2)) w2).
Proof.
  unfold computeFlatNormals. intros H.
  apply (for_loop_partial
    (λ j s, length s = length vs ∧ j mod 3 = 0 ∧
       (∀ t, 3 * t < j →
          ∃ w0 w1 w2,
            vs !! (3 * t) = Some w0 ∧
            vs !! (3 * t + 1) = Some w1 ∧
            vs !! (3 * t + 2) = Some w2 ∧
            s !! (3 * t)
              = Some (flatVertex (faceNormal E (Position w0) (Position w1) (Position w2)) w0) ∧
            s !! (3 * t + 1)
              = Some (flatVertex (faceNormal E (Position w0) (Position w1) (Position w2)) w1) ∧
            s !! (3 * t + 2)
              = Some (flatVertex (faceNormal E (Position w0) (Position w1) (Position w2)) w2)) ∧
       (∀ i, j ≤ i → s !! i = vs !! i))) in H.
  - destruct H as (j & _ & Hj & Hl & _ & Hall & _).
    split; [done|]. intros t Ht. apply Hall. lia.
  - lia.
  - split; [done|]. split; [done|]. split; [intros; lia | done].
  - intros j s s' _ Hj (Hl & Hm & Hdone & Hrest) Hb. simpl in Hb.
    destruct (s !! j) as [w0|] eqn:Hw0; simpl in Hb; [|done].
    destruct (s !! (j + 1)) as [w1|] eqn:Hw1; simpl in Hb; [|done].
    destruct (s !! (j + 2)) as [w2|] eqn:Hw2; simpl in Hb; [|done].
    destruct (array_set s j _) as [s1|] eqn:H1; simpl in Hb; [|done].
    destruct (array_set s1 (j + 1) _) as [s2|] eqn:H2; simpl in Hb; [|done].
    apply array_set_inv in H1 as [L1 ->].
    apply array_set_inv in H2 as [L2 ->].
    apply array_set_inv in Hb as [L3 ->].
    rewrite !length_insert in *.
    pose proof (Nat.div_mod_eq j 3) as Hdiv.
    split; [done|].
    split; [rewrite <- Nat.Div0.add_mod_idemp_l, Hm; reflexivity|].
    split.
    + intros t Ht.
      destruct (decide (3 * t < j)) as [Hold|Hnew].
      * destruct (Hdone t Hold) as (u0 & u1 & u2 & ? & ? & ? & ? & ? & ?).
        exists u0, u1, u2.
        rewrite !list_lookup_insert_ne by lia. done.
      * assert (3 * t = j) as Heq by lia.
        rewrite Heq. exists w0, w1, w2.
        rewrite <- !Hrest by lia.
        split; [done|]. split; [done|]. split; [done|].
        split; [|split].
        -- rewrite !list_lookup_insert_ne by lia.
           by rewrite list_lookup_insert_eq by lia.
        -- rewrite list_lookup_insert_ne by lia.
           by rewrite list_lookup_insert_eq by (rewrite length_insert; lia).
        -- by rewrite list_lookup_insert_eq by (rewrite !length_insert; lia).
    + intros i Hi. rewrite !list_lookup_insert_ne by lia. apply Hrest. lia.
Qed.

Lemma duplicateVertices_without_normals E options model primitive :
  hasNormals model primitive = false →
  duplicateVertices E options model primitive = true.
Proof. unfold duplicateVertices. by intros ->. Qed.

(** The vertex array that enters the normal pass of a primitive without
    normals, and what leaves it. *)
Lemma flat_normals_stage E options model primitive acc view ix r :
  loadPrimitive E options model primitive acc view ix = Some (Loaded r) →
  hasNormals model primitive = false →
  ∃ idx vs vs3,
    normalizedIndices primitive ix = Some idx ∧
    length vs = length idx ∧
    (∀ i vi, idx !! i = Some vi →
       ∃ p, view_at view vi = Some p ∧ Position <$> vs !! i = Some p) ∧
    computeFlatNormals E idx vs = Some vs3 ∧
    same_on TangentZ vs3 (res_vertices r).
Proof.
  intros Hload Hn.
  pose proof (duplicateVertices_without_normals E options _ _ Hn) as Hdup.
  apply loadPrimitive_Loaded in Hload
    as (_ & idx & uv & _ & _ & _ & _ & Hidx & Hbv & Hvs & _).
  apply buildVertices_passes in Hbv
    as (vs0 & vs1 & vs2 & uv0 & vs3 & vs4 & H0 & H1 & H2 & H3 & H4 & H5 & H6 & _).
  rewrite Hdup, Hn in *.
  apply SetNum_length in H0.
  apply copyPositions_duplicated in H1 as [Hl Hall]; [|lia].
  assert (same_positions vs1 (uv_vertices uv0)) as Hsame.
  { eapply same_on_trans.
    - destruct (attributes primitive !! "COLOR_0").
      + by eapply ColorVisitor_positions.
      + destruct H2 as [_ ->]. done.
    - apply same_base_positions.
      by eapply consolidateTextureCoordinates_base. }
  exists idx, (uv_vertices uv0), vs3.
  split; [done|].
  split; [by rewrite (same_on_length _ _ _ Hsame)|].
  split.
  { intros i vi Hvi. destruct (Hall i vi Hvi) as (p & Hp & Hpos).
    exists p. split; [done|].
    rewrite <- list_lookup_fmap, Hsame, list_lookup_fmap. done. }
  split; [done|].
  rewrite Hvs.
  eapply same_on_trans.
  - destruct (hasTangents model primitive).
    + by eapply copyTangents_normals.
    + subst vs4. done.
  - destruct (_ && _).
    + by eapply computeTangentSpace_normals.
    + rewrite H6. done.
Qed.

(** X1.  A primitive without a valid NORMAL view gets flat normals: the three
    vertices of every triangle carry the normal of the face through the three
    accessor positions of the triangle, whatever tangents are added later. *)
Theorem flat_normals E options model primitive acc view ix r :
  loadPrimitive E options model primitive acc view ix = Some (Loaded r) →
  hasNormals model primitive = false →
  ∃ idx,
    normalizedIndices primitive ix = Some idx ∧
    ∀ t, 3 * t < length idx →
      ∃ a b c pa pb pc,
        idx !! (3 * t) = Some a ∧
        idx !! (3 * t + 1) = Some b ∧
        idx !! (3 * t + 2) = Some c ∧
        view_at view a = Some pa ∧
        view_at view b = Some pb ∧
        view_at view c = Some pc ∧
        ∀ k, k < 3 →
          TangentZ <$> res_vertices r !! (3 * t + k)
          = Some (faceNormal E pa pb pc).
Proof.
  intros Hload Hn.
  destruct (flat_normals_stage _ _ _ _ _ _ _ _ Hload Hn)
    as (idx & vs & vs3 & Hidx & Hlen & Hpos & Hflat & Hsame).
  exists idx. split; [done|]. intros t Ht.
  apply computeFlatNormals_spec in Hflat as [Hl3 Hflat].
  destruct (Hflat t Ht) as (w0 & w1 & w2 & Hw0 & Hw1 & Hw2 & Hf0 & Hf1 & Hf2).
  assert (∀ k w, vs !! k = Some w →
            ∃ v p, idx !! k = Some v ∧ view_at view v = Some p ∧ Position w = p)
    as Hsrc.
  { intros k w Hw.
    destruct (idx !! k) as [v|] eqn:Hv.
    - destruct (Hpos k v Hv) as (p & Hp & Hk).
      rewrite Hw in Hk. simpl in Hk. exists v, p. naive_solver.
    - apply lookup_ge_None in Hv. apply lookup_lt_Some in Hw. lia. }
  destruct (Hsrc _ _ Hw0) as (a & pa & Ha & Hpa & <-).
  destruct (Hsrc _ _ Hw1) as (b & pb & Hb & Hpb & <-).
  destruct (Hsrc _ _ Hw2) as (c & pc & Hc & Hpc & <-).
  exists a, b, c, (Position w0), (Position w1), (Position w2).
  repeat (split; [done|]).
  intros k Hk.
  rewrite <- list_lookup_fmap, Hsame, list_lookup_fmap.
  destruct k as [|[|[|k]]]; [| | |lia].
  - rewrite Nat.add_0_r, Hf0. done.
  - rewrite Hf1. done.
  - rewrite Hf2. done.
Qed.

Lemma flat_normals_witness :
  loadPrimitive sampleEngine chaosOptions sampleModel flatPrimitive
    sampleAccessor samplePositions sampleIndices = Some (Loaded flatResult) ∧
  hasNormals sampleModel flatPrimitive = false ∧
  ∃ idx,
    normalizedIndices flatPrimitive sampleIndices = Some idx ∧
    ∀ t, 3 * t < length idx →
      ∃ a b c pa pb pc,
        idx !! (3 * t) = Some a ∧
        idx !! (3 * t + 1) = Some b ∧
        idx !! (3 * t + 2) = Some c ∧
        view_at samplePositions a = Some pa ∧
        view_at samplePositions b = Some pb ∧
        view_at samplePositions c = Some pc ∧
        ∀ k, k < 3 →
          TangentZ <$> res_vertices flatResult !! (3 * t + k)
          = Some (faceNormal sampleEngine pa pb pc).
Proof.
  split; [vm_compute; reflexivity|].
  split; [vm_compute; reflexivity|].
  apply (flat_normals sampleEngine chaosOptions sampleModel flatPrimitive
           sampleAccessor samplePositions sampleIndices flatResult);
    vm_compute; reflexivity.
Defined.

(** X2.  Without a valid NORMAL view the index count has to be a multiple of
    three: the last round of [computeFlatNormals] otherwise reads the vertex
    array past its end, and nothing is loaded. *)
Theorem flat_normals_need_whole_triangles E options model primitive acc view ix idx :
  hasNormals model primitive = false →
  normalizedIndices primitive ix = Some idx →
  length idx mod 3 ≠ 0 →
  ∀ r, loadPrimitive E options model primitive acc view ix ≠ Some (Loaded r).
Proof.
  intros Hn Hidx Hmod r Hload.
  destruct (flat_normals_stage _ _ _ _ _ _ _ _ Hload Hn)
    as (idx' & vs & vs3 & Hidx' & Hlen & _ & Hflat & _).
  simplify_eq.
  apply computeFlatNormals_spec in Hflat as [_ Hflat].
  pose proof (Nat.div_mod_eq (length idx) 3) as Hdiv.
  pose proof (Nat.mod_upper_bound (length idx) 3 ltac:(lia)).
  destruct (Hflat (length idx / 3)) as (w0 & w1 & w2 & _ & _ & Hw2 & _); [lia|].
  apply lookup_lt_Some in Hw2. lia.
Qed.

Lemma flat_normals_need_whole_triangles_witness :
  hasNormals sampleModel flatPrimitive = false ∧
  normalizedIndices flatPrimitive (IndexVector [0; 1; 2; 0]%Z)
    = Some [0; 1; 2; 0]%Z ∧
  length [0; 1; 2; 0]%Z mod 3 ≠ 0 ∧
  ∀ r, loadPrimitive sampleEngine chaosOptions sampleModel flatPrimitive
         sampleAccessor samplePositions (IndexVector [0; 1; 2; 0]%Z)
       ≠ Some (Loaded r).
Proof.
  split; [vm_compute; reflexivity|].
  split; [vm_compute; reflexivity|].
  split; [vm_compute; discriminate|].
  apply (flat_normals_need_whole_triangles sampleEngine chaosOptions
           sampleModel flatPrimitive sampleAccessor samplePositions
           (IndexVector [0; 1; 2; 0]%Z) [0; 1; 2; 0]%Z);
    [vm_compute; reflexivity | vm_compute; reflexivity | vm_compute; discriminate].
Defined.

(** ** The render section and the collision mesh *)

Lemma reverseWinding_length dup idx out :
  reverseWinding dup idx = Some out → length out = length idx.
Proof.
  destruct dup.
  - destruct (reverseWinding_duplicated idx) as (o & Ho & Hl & _). congruence.
  - destruct (reverseWinding_shared idx) as (o & Ho & Hl & _). congruence.
Qed.

(** What the section and the cooker are given. *)
Lemma loaded_section E options model primitive acc view ix r :
  loadPrimitive E options model primitive acc view ix = Some (Loaded r) →
  res_NumTriangles r = length (res_indices r) / 3 ∧
  res_MaxVertexIndex r = (Z.of_nat (length (res_vertices r)) - 1)%Z ∧
  res_stride r
    = (if decide (UINT16_MAX ≤ Z.of_nat (length (res_vertices r)))%Z
       then Force32Bit else Force16Bit) ∧
  buildCollisionMesh options (res_vertices r) (res_indices r)
    = Some (res_pCollisionMesh r).
Proof.
  intros Hload.
  pose proof (loadPrimitive_fields _ _ _ _ _ _ _ _ Hload)
    as (idx & uv & Hidx & _ & _ & _ & _ & _ & Hn & Hmax & Hstride & _).
  apply loadPrimitive_Loaded in Hload
    as (_ & idx' & _ & _ & _ & _ & _ & Hidx' & _ & _ & Hrev & Hcoll & _).
  simplify_eq. apply reverseWinding_length in Hrev.
  rewrite Hrev. done.
Qed.

(** X3.  The collision mesh is built over the render vertices: one collision
    vertex per render vertex, at its position and in the same order; a Chaos
    mesh has one zero material and one identity face-remap entry per
    triangle; without a PhysX cooker nothing is built. *)
Theorem collision_mesh_content E options model primitive acc view ix r :
  loadPrimitive E options model primitive acc view ix = Some (Loaded r) →
  (physics options = PhysX false → res_pCollisionMesh r = None) ∧
  ∀ mesh, res_pCollisionMesh r = Some mesh →
    match mesh with
    | PhysXTriMesh vertices _ => vertices = Position <$> res_vertices r
    | ChaosTriMesh particles _ _ materials faceRemap =>
        particles = Position <$> res_vertices r ∧
        materials = replicate (res_NumTriangles r) 0%Z ∧
        faceRemap = Z.of_nat <$> seq 0 (res_NumTriangles r)
    end.
Proof.
  intros (Hn & _ & _ & Hcoll)%loaded_section.
  unfold buildCollisionMesh in Hcoll. split.
  - intros Hp. rewrite Hp in Hcoll. simpl in Hcoll.
    case_decide; by simplify_eq.
  - intros mesh Hmesh. rewrite Hmesh in Hcoll.
    case_decide; [|done].
    destruct (physics options) as [cooking|].
    + destruct cooking; [|done].
      destruct (BuildPhysXTriangleMeshes_eq (res_vertices r) (res_indices r))
        as (tris & Heq & _).
      rewrite Heq in Hcoll. by simplify_eq.
    + rewrite BuildChaosTriangleMeshes_eq in Hcoll. simpl in Hcoll.
      rewrite <- Hn in Hcoll.
      case_decide.
      * destruct (fillTriangles uint16 _ _) as [tris|]; by simplify_eq/=.
      * destruct (fillTriangles int32 _ _) as [tris|]; by simplify_eq/=.
Qed.

Lemma collision_mesh_content_witness :
  loadPrimitive sampleEngine chaosOptions sampleModel flatPrimitive
    sampleAccessor samplePositions sampleIndices = Some (Loaded flatResult) ∧
  (physics chaosOptions = PhysX false → res_pCollisionMesh flatResult = None) ∧
  ∀ mesh, res_pCollisionMesh flatResult = Some mesh →
    match mesh with
    | PhysXTriMesh vertices _ => vertices = Position <$> res_vertices flatResult
    | ChaosTriMesh particles _ _ materials faceRemap =>
        particles = Position <$> res_vertices flatResult ∧
        materials = replicate (res_NumTriangles flatResult) 0%Z ∧
        faceRemap = Z.of_nat <$> seq 0 (res_NumTriangles flatResult)
    end.
Proof.
  split; [vm_compute; reflexivity|].
  apply (collision_mesh_content sampleEngine chaosOptions sampleModel
           flatPrimitive sampleAccessor samplePositions sampleIndices
           flatResult).
  vm_compute; reflexivity.
Defined.

(** X4.  In a mesh of 16-bit triangles the loop counter and the offset [3 * i]
    of a triangle are 16-bit values as well: the mesh has the triangle count
    modulo 65536 triangles, and triangle [t] is read at the offset
    [3 * t] modulo 65536 of the index buffer. *)
Theorem narrow_collision_triangles E options model primitive acc view ix r
    particles tris materials faceRemap :
  loadPrimitive E options model primitive acc view ix = Some (Loaded r) →
  res_pCollisionMesh r
    = Some (ChaosTriMesh particles Narrow16 tris materials faceRemap) →
  Z.of_nat (length tris) = uint16 (Z.of_nat (res_NumTriangles r)) ∧
  ∀ t, t < length tris →
    ∃ a b c,
      res_indices r !! Z.to_nat (uint16 (3 * Z.of_nat t) + 1) = Some a ∧
      res_indices r !! Z.to_nat (uint16 (3 * Z.of_nat t)) = Some b ∧
      res_indices r !! Z.to_nat (uint16 (3 * Z.of_nat t) + 2) = Some c ∧
      tris !! t = Some (uint16 a, uint16 b, uint16 c).
Proof.
  intros (Hn & _ & _ & Hcoll)%loaded_section Hmesh.
  rewrite Hmesh in Hcoll. unfold buildCollisionMesh in Hcoll.
  case_decide; [|done].
  destruct (physics options) as [cooking|].
  { destruct cooking; [|done].
    destruct (BuildPhysXTriangleMeshes_eq (res_vertices r) (res_indices r))
      as (? & Heq & _).
    rewrite Heq in Hcoll. by simplify_eq. }
  rewrite BuildChaosTriangleMeshes_eq in Hcoll. simpl in Hcoll.
  rewrite <- Hn in Hcoll.
  case_decide.
  - destruct (fillTriangles uint16 _ _) as [tris'|] eqn:Hfill; simplify_eq/=.
    apply fillTriangles_inv in Hfill as [Hlen Hall].
    assert (0 ≤ uint16 (Z.of_nat (res_NumTriangles r)))%Z
      by (unfold uint16; apply Z.mod_pos_bound; lia).
    split; [lia|]. intros t Ht. apply Hall. lia.
  - destruct (fillTriangles int32 _ _) as [tris'|]; by simplify_eq/=.
Qed.

Lemma narrow_collision_triangles_witness :
  loadPrimitive sampleEngine chaosOptions sampleModel flatPrimitive
    sampleAccessor samplePositions sampleIndices = Some (Loaded flatResult) ∧
  res_pCollisionMesh flatResult
    = Some (ChaosTriMesh (elements samplePositions) Narrow16 [(1, 2, 0)%Z]
              [0%Z] [0%Z]) ∧
  Z.of_nat (length [(1, 2, 0)%Z])
    = uint16 (Z.of_nat (res_NumTriangles flatResult)) ∧
  ∀ t, t < length [(1, 2, 0)%Z] →
    ∃ a b c,
      res_indices flatResult !! Z.to_nat (uint16 (3 * Z.of_nat t) + 1) = Some a ∧
      res_indices flatResult !! Z.to_nat (uint16 (3 * Z.of_nat t)) = Some b ∧
      res_indices flatResult !! Z.to_nat (uint16 (3 * Z.of_nat t) + 2) = Some c ∧
      [(1, 2, 0)%Z] !! t = Some (uint16 a, uint16 b, uint16 c).
Proof.
  split; [vm_compute; reflexivity|].
  split; [vm_compute; reflexivity|].
  apply (narrow_collision_triangles sampleEngine chaosOptions sampleModel
           flatPrimitive sampleAccessor samplePositions sampleIndices
           flatResult (elements samplePositions) [(1, 2, 0)%Z] [0%Z] [0%Z]);
    vm_compute; reflexivity.
Defined.

(** X5.  The render index buffer is 32 bits wide exactly from 65535 vertices
    on, and a Chaos collision mesh of the same primitive has triangles of
    the matching width. *)
Theorem index_stride_matches_collision_width E options model primitive acc view
    ix r :
  loadPrimitive E options model primitive acc view ix = Some (Loaded r) →
  (res_stride r = Force32Bit
   ↔ (UINT16_MAX ≤ Z.of_nat (length (res_vertices r)))%Z) ∧
  ∀ particles width triangles materials faceRemap,
    res_pCollisionMesh r
      = Some (ChaosTriMesh particles width triangles materials faceRemap) →
    (width = Wide32 ↔ res_stride r = Force32Bit).
Proof.
  intros (_ & _ & Hstride & Hcoll)%loaded_section.
  rewrite Hstride. split.
  - case_decide; split; (done || lia).
  - intros particles width triangles materials faceRemap Hmesh.
    rewrite Hmesh in Hcoll. unfold buildCollisionMesh in Hcoll.
    case_decide; [|done].
    destruct (physics options) as [cooking|].
    { destruct cooking; [|done].
      destruct (BuildPhysXTriangleMeshes_eq (res_vertices r) (res_indices r))
        as (? & Heq & _).
      rewrite Heq in Hcoll. by simplify_eq. }
    rewrite BuildChaosTriangleMeshes_eq in Hcoll. simpl in Hcoll.
    case_decide.
    + destruct (fillTriangles uint16 _ _) as [tris'|]; simplify_eq/=.
      rewrite decide_False by lia. split; done.
    + destruct (fillTriangles int32 _ _) as [tris'|]; simplify_eq/=.
      rewrite decide_True by lia. split; done.
Qed.

Lemma index_stride_matches_collision_width_witness :
  loadPrimitive sampleEngine chaosOptions sampleModel flatPrimitive
    sampleAccessor samplePositions sampleIndices = Some (Loaded flatResult) ∧
  (res_stride flatResult = Force32Bit
   ↔ (UINT16_MAX ≤ Z.of_nat (length (res_vertices flatResult)))%Z) ∧
  ∀ particles width triangles materials faceRemap,
    res_pCollisionMesh flatResult
      = Some (ChaosTriMesh particles width triangles materials faceRemap) →
    (width = Wide32 ↔ res_stride flatResult = Force32Bit).
Proof.
  split; [vm_compute; reflexivity|].
  apply (index_stride_matches_collision_width sampleEngine chaosOptions
           sampleModel flatPrimitive sampleAccessor samplePositions
           sampleIndices flatResult).
  vm_compute; reflexivity.
Defined.



(** ** Triangle strips that are too short *)

(** X7.  A strip of fewer than two indices asks [SetNum] for a negative count
    and is never loaded; a strip of exactly two indices has no triangle. *)
Theorem triangle_strip_needs_two_indices E options model primitive acc view ix :
  mode primitive = TRIANGLE_STRIP →
  (length (index_elements ix) < 2 →
   ∀ r, loadPrimitive E options model primitive acc view ix ≠ Some (Loaded r)) ∧
  (length (index_elements ix) = 2 → normalizedIndices primitive ix = Some []).
Proof.
  intros Hmode. split.
  - intros Hshort r Hload.
    apply loadPrimitive_Loaded in Hload
      as (_ & idx & _ & _ & _ & _ & _ & Hidx & _).
    by rewrite triangle_strip_too_short in Hidx.
  - intros Htwo. unfold normalizedIndices, copyIndices.
    rewrite Hmode. simpl.
    destruct (index_elements ix) as [|a [|b [|c l]]]; try done.
Qed.

Lemma triangle_strip_needs_two_indices_witness :
  mode stripPrimitive = TRIANGLE_STRIP ∧
  (length (index_elements (IndexVector [7%Z])) < 2 →
   ∀ r, loadPrimitive sampleEngine chaosOptions sampleModel stripPrimitive
          sampleAccessor samplePositions (IndexVector [7%Z])
        ≠ Some (Loaded r)) ∧
  (length (index_elements (IndexVector [7%Z])) = 2 →
   normalizedIndices stripPrimitive (IndexVector [7%Z]) = Some []).
Proof.
  split; [reflexivity|].
  apply (triangle_strip_needs_two_indices sampleEngine chaosOptions sampleModel
           stripPrimitive sampleAccessor samplePositions (IndexVector [7%Z])).
  reflexivity.
Defined.

(** ** Winding reversal as an operation on index buffers *)

(** Exchanging two elements of a list permutes it. *)
Lemma swap_Permutation {A} (l : list A) i j a b :
  l !! i = Some a → l !! j = Some b → <[j:=a]> (<[i:=b]> l) ≡ₚ l.
Proof.
  intros Ha Hb. apply Permutation_inj.
  rewrite !length_insert. split; [done|].
  pose proof (lookup_lt_Some _ _ _ Ha). pose proof (lookup_lt_Some _ _ _ Hb).
  exists (λ k, if decide (k = i) then j else if decide (k = j) then i else k).
  split.
  - intros x y. repeat case_decide; lia.
  - intros k. destruct (decide (k = j)) as [->|Hj].
    + rewrite list_lookup_insert_eq by (rewrite length_insert; lia).
      repeat case_decide; congruence.
    + rewrite list_lookup_insert_ne by lia.
      destruct (decide (k = i)) as [->|Hi].
      * rewrite list_lookup_insert_eq by lia. done.
      * rewrite list_lookup_insert_ne by lia. done.
Qed.

(** Without duplication the reversal exchanges the ends of every complete
    triple and leaves an incomplete last triple alone. *)
Lemma reverseWinding_shared_rest (indices : list Z) :
  ∃ out,
    reverseWinding false indices = Some out ∧
    length out = length indices ∧
    (∀ t, 3 * t + 2 < length indices →
       out !! (3 * t) = indices !! (3 * t + 2) ∧
       out !! (3 * t + 1) = indices !! (3 * t + 1) ∧
       out !! (3 * t + 2) = indices !! (3 * t)) ∧
    ∀ k, 3 * (length indices / 3) ≤ k → out !! k = indices !! k.
Proof.
  unfold reverseWinding.
  match goal with |- ∃ _, for_loop _ _ _ ?b _ = _ ∧ _ => set (body := b) end.
  destruct (for_loop_total
    (λ j out, ∃ t, j = 3 * t + 2 ∧ 3 * t ≤ length indices ∧
       length out = length indices ∧
       (∀ t', t' < t →
          out !! (3 * t') = indices !! (3 * t' + 2) ∧
          out !! (3 * t' + 1) = indices !! (3 * t' + 1) ∧
          out !! (3 * t' + 2) = indices !! (3 * t')) ∧
       ∀ k, 3 * t ≤ k → out !! k = indices !! k)
    body 2 (length indices) 3 indices)
    as (j & out & Hrun & _ & Hj & t & -> & Ht & Hlen & Hdone & Hrest).
  - lia.
  - exists 0. split; [lia|]. split; [lia|]. split; [done|].
    split; [intros; lia|done].
  - intros j out _ Hj (t & -> & Ht & Hlen & Hdone & Hrest).
    destruct (lookup_lt_is_Some_2 out (3 * t)) as [a Ha]; [lia|].
    destruct (lookup_lt_is_Some_2 out (3 * t + 2)) as [b Hb]; [lia|].
    subst body. simpl.
    replace (3 * t + 2 - 2) with (3 * t) by lia.
    rewrite Ha, Hb. simpl.
    rewrite array_set_Some by lia. simpl.
    rewrite array_set_Some by (rewrite length_insert; lia).
    eexists. split; [done|]. exists (S t).
    split; [lia|]. split; [lia|].
    rewrite !length_insert. split; [done|]. split.
    + intros t' Ht'. destruct (decide (t' = t)) as [->|Hne].
      * rewrite list_lookup_insert_ne by lia.
        rewrite list_lookup_insert_eq by lia.
        rewrite list_lookup_insert_ne by lia.
        rewrite list_lookup_insert_ne by lia.
        rewrite list_lookup_insert_eq by (rewrite length_insert; lia).
        rewrite <- !Hrest by lia. done.
      * rewrite !list_lookup_insert_ne by lia. apply Hdone. lia.
    + intros k Hk. rewrite !list_lookup_insert_ne by lia. apply Hrest. lia.
  - exists out. split; [done|]. split; [done|]. split.
    + intros t' Ht'. apply Hdone. lia.
    + intros k Hk. apply Hrest.
      pose proof (Nat.div_mod_eq (length indices) 3).
      pose proof (Nat.mod_upper_bound (length indices) 3). lia.
Qed.

Lemma reverseWinding_shared_Permutation (indices out : list Z) :
  reverseWinding false indices = Some out → out ≡ₚ indices.
Proof.
  unfold reverseWinding. intros H.
  apply (for_loop_preserves (λ l l', l' ≡ₚ l)) in H; [done | done | |].
  - intros l1 l2 l3 H12 H23. by rewrite H23.
  - intros j t t' Hb. simpl in Hb.
    destruct (t !! (j - 2)) as [a|] eqn:Ha; simpl in Hb; [|done].
    destruct (t !! j) as [b|] eqn:Hb'; simpl in Hb; [|done].
    destruct (array_set t (j - 2) b) as [t1|] eqn:H1; simpl in Hb; [|done].
    apply array_set_inv in H1 as [_ ->].
    apply array_set_inv in Hb as [_ ->].
    by apply swap_Permutation.
Qed.

(** X8.  The reversal without duplication is its own inverse and a
    permutation: reversing the emitted buffer gives back the order of the
    glTF indices, and every index value, in range of the vertices or not,
    is still in the buffer. *)
Theorem winding_reversal_round_trip (indices out : list Z) :
  reverseWinding false indices = Some out →
  reverseWinding false out = Some indices ∧ out ≡ₚ indices.
Proof.
  intros H. split; [|by apply reverseWinding_shared_Permutation].
  destruct (reverseWinding_shared_rest indices)
    as (out' & Hout & Hlen & Htri & Hrest).
  simplify_eq.
  destruct (reverseWinding_shared_rest out)
    as (back & Hback & Hlen' & Htri' & Hrest').
  rewrite Hback. f_equal. apply list_eq. intros k.
  rewrite Hlen in *.
  pose proof (Nat.div_mod_eq k 3) as Hk3.
  pose proof (Nat.mod_upper_bound k 3 ltac:(lia)) as Hm.
  pose proof (Nat.div_mod_eq (length indices) 3) as Hl3.
  pose proof (Nat.mod_upper_bound (length indices) 3 ltac:(lia)) as Hlm.
  destruct (decide (k < 3 * (length indices / 3))) as [Hin|Hout'].
  - destruct (Htri (k / 3)) as (A0 & A1 & A2); [lia|].
    destruct (Htri' (k / 3)) as (B0 & B1 & B2); [lia|].
    destruct (k mod 3) as [|[|[|m]]] eqn:Hr; [| | |lia].
    + replace k with (3 * (k / 3)) at 1 2 by lia. congruence.
    + replace k with (3 * (k / 3) + 1) at 1 2 by lia. congruence.
    + replace k with (3 * (k / 3) + 2) at 1 2 by lia. congruence.
  - rewrite Hrest', Hrest by lia. done.
Qed.

Lemma winding_reversal_round_trip_witness :
  reverseWinding false [10; 11; 12; 13; 14; 15; 16]%Z
    = Some [12; 11; 10; 15; 14; 13; 16]%Z ∧
  reverseWinding false [12; 11; 10; 15; 14; 13; 16]%Z
    = Some [10; 11; 12; 13; 14; 15; 16]%Z ∧
  [12; 11; 10; 15; 14; 13; 16]%Z ≡ₚ [10; 11; 12; 13; 14; 15; 16]%Z.
Proof.
  split; [vm_compute; reflexivity|].
  apply (winding_reversal_round_trip [10; 11; 12; 13; 14; 15; 16]%Z
           [12; 11; 10; 15; 14; 13; 16]%Z).
  vm_compute; reflexivity.
Defined.

(** ** The channels of the consolidated texture coordinates *)

Lemma uint32_le z : (0 ≤ z)%Z → (0 ≤ uint32 z ≤ z)%Z.
Proof.
  intros. unfold uint32. split.
  - apply Z.mod_pos_bound. lia.
  - apply Z.mod_le; lia.
Qed.

Lemma updateTextureCoordinates_channels model primitive dup vs idx name
    (m : gmap Z Z) k vs' m' :
  updateTextureCoordinates model primitive dup vs idx name m = Some (k, vs', m') →
  channels_below m →
  channels_below m' ∧ size m ≤ size m' ∧ size m' ≤ S (size m) ∧
  channel_in_use m' k.
Proof.
  unfold updateTextureCoordinates, channels_below, channel_in_use.
  intros H Hinv.
  destruct (attributes primitive !! name) as [id|];
    [|simplify_eq; split; [done | lia]].
  destruct (m !! uint32 id) as [ch|] eqn:Hid.
  { simplify_eq. pose proof (Hinv _ _ Hid). split; [done | lia]. }
  pose proof (uint32_le (Z.of_nat (size m)) ltac:(lia)) as Hle.
  assert (size (<[uint32 id := uint32 (Z.of_nat (size m))]> m) = S (size m))
    as Hsize by by rewrite map_size_insert_None.
  assert (∀ key channel,
            <[uint32 id := uint32 (Z.of_nat (size m))]> m !! key = Some channel →
            (0 ≤ channel
             < Z.of_nat (size (<[uint32 id := uint32 (Z.of_nat (size m))]> m)))%Z)
    as Hnew.
  { intros key channel. rewrite Hsize.
    destruct (decide (key = uint32 id)) as [->|Hne].
    - rewrite lookup_insert_eq. intros [= <-]. lia.
    - rewrite lookup_insert_ne by done. intros Hk%Hinv. lia. }
  destruct (decide (status _ ≠ Valid)).
  - simplify_eq. split; [exact Hnew|]. rewrite Hsize. lia.
  - match type of H with (?loop ≫= _) = _ =>
      destruct loop as [vs2|]; simpl in H; [|done] end.
    simplify_eq. split; [exact Hnew|]. rewrite Hsize. lia.
Qed.

Lemma updateTextureCoordinates_bijective model primitive dup vs idx name
    (m : gmap Z Z) k vs' m' :
  updateTextureCoordinates model primitive dup vs idx name m = Some (k, vs', m') →
  channels_below m → (Z.of_nat (size m) < 2 ^ 32)%Z →
  channels_bijective m → channels_bijective m'.
Proof.
  unfold updateTextureCoordinates. intros H Hinv Hfit Hbij.
  destruct (attributes primitive !! name) as [id|]; [|by simplify_eq].
  destruct (m !! uint32 id) as [ch|] eqn:Hid; [by simplify_eq|].
  assert (m' = <[uint32 id := Z.of_nat (size m)]> m) as ->.
  { rewrite (uint32_small (Z.of_nat (size m))) in H by lia.
    destruct (decide (status _ ≠ Valid)); [by simplify_eq|].
    match type of H with (?loop ≫= _) = _ =>
      destruct loop as [vs2|]; simpl in H; [|done] end.
    by simplify_eq. }
  clear H. destruct Hbij as [Hinj Hsurj]. split.
  - intros a b channel.
    destruct (decide (a = uint32 id)) as [->|Ha];
      destruct (decide (b = uint32 id)) as [->|Hb]; [done | | |].
    + rewrite lookup_insert_eq, lookup_insert_ne by done.
      intros [= <-] Hb'%Hinv. lia.
    + rewrite lookup_insert_eq, lookup_insert_ne by done.
      intros Ha'%Hinv [= <-]. lia.
    + rewrite !lookup_insert_ne by done. apply Hinj.
  - intros channel. rewrite map_size_insert_None by done. intros Hc.
    destruct (decide (channel = Z.of_nat (size m))) as [->|Hne].
    + exists (uint32 id). by rewrite lookup_insert_eq.
    + destruct (Hsurj channel) as [a Ha]; [lia|].
      exists a. rewrite lookup_insert_ne; [done|]. congruence.
Qed.

Lemma channel_in_use_mono (m m' : gmap Z Z) k :
  size m ≤ size m' → channel_in_use m k → channel_in_use m' k.
Proof. unfold channel_in_use. lia. Qed.

Lemma updateMaterialSlot_ok model primitive dup idx s slot s' n :
  updateMaterialSlot model primitive dup idx s slot = Some s' →
  uv_ok n s →
  uv_ok (S n) s' ∧
  uv_overlay s' = uv_overlay s ∧
  ∃ k, uv_parameters s' = <[slot.1 := k]> (uv_parameters s).
Proof.
  unfold updateMaterialSlot, uv_ok. intros H (Hm & Hn & Hp & Ho & Hb).
  destruct (updateTextureCoordinates_texture _ _ _ _ _ _ _)
    as [[[k vs] m]|] eqn:Hu; simpl in H; [|done].
  simplify_eq. simpl.
  assert (channels_below m ∧ size (uv_map s) ≤ size m
          ∧ size m ≤ S (size (uv_map s)) ∧ channel_in_use m k
          ∧ ((Z.of_nat (S n) ≤ 2 ^ 32)%Z → channels_bijective m))
    as (Hm' & Hle & Hge & Hk & Hb').
  { unfold updateTextureCoordinates_texture in Hu. destruct slot.2.
    - split_and!; try by eapply updateTextureCoordinates_channels.
      intros Hfit. eapply updateTextureCoordinates_bijective;
        [done | done | lia | apply Hb; lia].
    - simplify_eq. split; [done|]. unfold channel_in_use.
      split_and!; try lia. intros Hfit. apply Hb. lia. }
  split; [|split; [done | by exists k]].
  split; [done|]. split; [lia|]. split; [|split; [|done]].
  - intros name k'. destruct (decide (name = slot.1)) as [->|Hne].
    + rewrite lookup_insert_eq. by intros [= <-].
    + rewrite lookup_insert_ne by done. intros Hk'%Hp.
      by eapply channel_in_use_mono.
  - eapply Forall_impl; [done|]. intros k' Hk'.
    by eapply channel_in_use_mono.
Qed.

Lemma updateOverlaySlot_ok model primitive dup idx i s s' n :
  updateOverlaySlot model primitive dup idx i s = Some s' →
  uv_ok n s →
  uv_ok (S n) s' ∧
  length (uv_overlay s') = length (uv_overlay s) ∧
  uv_parameters s' = uv_parameters s.
Proof.
  unfold updateOverlaySlot, uv_ok. intros H (Hm & Hn & Hp & Ho & Hb).
  destruct (attributes primitive !! _).
  - destruct (updateTextureCoordinates _ _ _ _ _ _ _) as [[[k vs] m]|] eqn:Hu;
      simpl in H; [|done].
    destruct (array_set _ _ _) as [ov|] eqn:Hov; simpl in H; [|done].
    apply array_set_inv in Hov as [Hi ->]. simplify_eq. simpl.
    pose proof (updateTextureCoordinates_bijective _ _ _ _ _ _ _ _ _ _ Hu Hm)
      as Hbij.
    apply updateTextureCoordinates_channels in Hu
      as (Hm' & Hle & Hge & Hk); [|done].
    split; [|by rewrite length_insert].
    split; [done|]. split; [lia|]. split; [|split].
    + intros name k' Hk'%Hp. by eapply channel_in_use_mono.
    + apply Forall_insert; [|done].
      eapply Forall_impl; [done|]. intros k' Hk'.
      by eapply channel_in_use_mono.
    + intros Hfit. apply Hbij; [lia|]. apply Hb. lia.
  - destruct (array_set _ _ _) as [ov|] eqn:Hov; simpl in H; [|done].
    apply array_set_inv in Hov as [Hi ->]. simplify_eq. simpl.
    split; [|by rewrite length_insert].
    split; [done|]. split; [lia|]. split; [done|]. split.
    + apply Forall_insert; [done|]. unfold channel_in_use. lia.
    + intros Hfit. apply Hb. lia.
Qed.

(** The state the consolidation block leaves. *)
Lemma consolidateTextureCoordinates_ok model primitive dup idx overlays vs s :
  consolidateTextureCoordinates model primitive dup idx overlays vs = Some s →
  uv_ok (5 + overlays) s ∧
  length (uv_overlay s) = overlays ∧
  ∀ name, name ∈ textureCoordinateParameterNames →
    is_Some (uv_parameters s !! name).
Proof.
  unfold consolidateTextureCoordinates, materialSlots. simpl. intros H.
  set (s0 := MkUvState vs ∅ ∅ (replicate overlays 0%Z)) in H.
  assert (uv_ok 0 s0) as H0.
  { split; [|split; [|split; [|split]]]; simpl.
    - intros key ch. by rewrite lookup_empty.
    - by rewrite map_size_empty.
    - intros name k. by rewrite lookup_empty.
    - apply Forall_replicate. unfold channel_in_use. simpl. lia.
    - intros _. split.
      + intros a b ch. by rewrite lookup_empty.
      + intros ch. rewrite map_size_empty. lia. }
  destruct (updateMaterialSlot _ _ _ _ s0 _) as [s1|] eqn:E1;
    simpl in H; [|done].
  destruct (updateMaterialSlot _ _ _ _ s1 _) as [s2|] eqn:E2;
    simpl in H; [|done].
  destruct (updateMaterialSlot _ _ _ _ s2 _) as [s3|] eqn:E3;
    simpl in H; [|done].
  destruct (updateMaterialSlot _ _ _ _ s3 _) as [s4|] eqn:E4;
    simpl in H; [|done].
  destruct (updateMaterialSlot _ _ _ _ s4 _) as [s5|] eqn:E5;
    simpl in H; [|done].
  destruct (updateMaterialSlot_ok _ _ _ _ _ _ _ _ E1 H0) as (H1 & O1 & k1 & P1).
  destruct (updateMaterialSlot_ok _ _ _ _ _ _ _ _ E2 H1) as (H2 & O2 & k2 & P2).
  destruct (updateMaterialSlot_ok _ _ _ _ _ _ _ _ E3 H2) as (H3 & O3 & k3 & P3).
  destruct (updateMaterialSlot_ok _ _ _ _ _ _ _ _ E4 H3) as (H4 & O4 & k4 & P4).
  destruct (updateMaterialSlot_ok _ _ _ _ _ _ _ _ E5 H4) as (H5 & O5 & k5 & P5).
  simpl in *.
  apply (for_loop_partial
    (λ j t, uv_ok (5 + Nat.min j overlays) t ∧
            length (uv_overlay t) = overlays ∧
            uv_parameters t = uv_parameters s5)) in H.
  - destruct H as (j & _ & Hj & Hok & Hlen & Hpar).
    rewrite Nat.min_r in Hok by lia.
    split; [done|]. split; [done|].
    intros name Hname. rewrite Hpar, P5, P4, P3, P2, P1.
    unfold textureCoordinateParameterNames in Hname.
    repeat (apply elem_of_cons in Hname as [->|Hname]);
      [by simplify_map_eq.. | by apply elem_of_nil in Hname].
  - lia.
  - rewrite Nat.min_0_l. split; [done|]. split; [|done].
    rewrite O5, O4, O3, O2, O1. subst s0. simpl. by rewrite length_replicate.
  - intros j t t' _ Hj (Hok & Hlen & Hpar) Hb.
    destruct (updateOverlaySlot_ok _ _ _ _ _ _ _ _ Hb Hok) as (Hok' & Hl & Hp).
    rewrite Nat.min_l in Hok' by lia.
    rewrite Nat.min_l by lia.
    replace (5 + (j + 1)) with (S (5 + j)) by lia.
    split; [done|]. split; congruence.
Qed.

(** X9.  Every texture-coordinate index that a loaded primitive reports, for
    the five material textures and for every overlay, is a channel of its
    vertex buffer; the five material parameters are always set, and there is
    one overlay entry per overlay slot. *)
Theorem texture_coordinate_indices_in_range E options model primitive acc view
    ix r :
  loadPrimitive E options model primitive acc view ix = Some (Loaded r) →
  (∀ name, name ∈ textureCoordinateParameterNames →
     ∃ k, res_textureCoordinateParameters r !! name = Some k ∧
          (0 ≤ k < Z.of_nat (res_numTexCoords r))%Z) ∧
  length (res_overlayTextureCoordinateIDToUVIndex r) = overlaySlots options ∧
  Forall (λ k, (0 ≤ k < Z.of_nat (res_numTexCoords r))%Z)
    (res_overlayTextureCoordinateIDToUVIndex r).
Proof.
  intros (idx & uv & _ & Hbv & _ & Hn & Hp & Ho & _)%loadPrimitive_fields.
  apply buildVertices_passes in Hbv
    as (vs0 & vs1 & vs2 & uv0 & vs3 & vs4 & _ & _ & _ & Huv & _ & _ & _
        & Em & Ep & Eo).
  apply consolidateTextureCoordinates_ok in Huv
    as ((_ & _ & Hpar & Hov & _) & Hlen & Hnames).
  rewrite Hn, Hp, Ho, Em, Ep, Eo.
  assert (∀ k, channel_in_use (uv_map uv0) k →
            (0 ≤ k < Z.of_nat (if decide (size (uv_map uv0) = 0%nat)
                               then 1%nat else size (uv_map uv0)))%Z) as Huse.
  { unfold channel_in_use. intros k.
    destruct (decide (size (uv_map uv0) = 0%nat)); lia. }
  split; [|split; [done|]].
  - intros name [k Hk]%Hnames. exists k. split; [done|].
    apply Huse. by eapply Hpar.
  - eapply Forall_impl; [exact Hov|]. exact Huse.
Qed.

Lemma texture_coordinate_indices_in_range_witness :
  loadPrimitive sampleEngine chaosOptions texturedModel texturedPrimitive
    sampleAccessor samplePositions sampleIndices
  = Some (Loaded texturedResult) ∧
  (∀ name, name ∈ textureCoordinateParameterNames →
     ∃ k, res_textureCoordinateParameters texturedResult !! name = Some k ∧
          (0 ≤ k < Z.of_nat (res_numTexCoords texturedResult))%Z) ∧
  length (res_overlayTextureCoordinateIDToUVIndex texturedResult)
    = overlaySlots chaosOptions ∧
  Forall (λ k, (0 ≤ k < Z.of_nat (res_numTexCoords texturedResult))%Z)
    (res_overlayTextureCoordinateIDToUVIndex texturedResult).
Proof.
  split; [vm_compute; reflexivity|].
  apply (texture_coordinate_indices_in_range sampleEngine chaosOptions
           texturedModel texturedPrimitive sampleAccessor samplePositions
           sampleIndices texturedResult).
  vm_compute; reflexivity.
Defined.

(** X10.  A primitive uses at least one and at most five plus the number of
    overlay slots texture-coordinate channels; with up to three overlays
    they fit the UV slots of a build vertex. *)
Theorem texture_coordinate_channels_bounded E options model primitive acc view
    ix r :
  loadPrimitive E options model primitive acc view ix = Some (Loaded r) →
  1 ≤ res_numTexCoords r ∧
  res_numTexCoords r ≤ 5 + overlaySlots options ∧
  (overlaySlots options ≤ 3 → res_numTexCoords r ≤ MAX_STATIC_TEXCOORDS).
Proof.
  intros (idx & uv & _ & Hbv & _ & Hn & _)%loadPrimitive_fields.
  apply buildVertices_passes in Hbv
    as (vs0 & vs1 & vs2 & uv0 & vs3 & vs4 & _ & _ & _ & Huv & _ & _ & _
        & Em & _).
  apply consolidateTextureCoordinates_ok in Huv as ((_ & Hsize & _) & _).
  rewrite Hn, Em. unfold MAX_STATIC_TEXCOORDS.
  destruct (decide (size (uv_map uv0) = 0)); lia.
Qed.

Lemma texture_coordinate_channels_bounded_witness :
  loadPrimitive sampleEngine chaosOptions texturedModel texturedPrimitive
    sampleAccessor samplePositions sampleIndices
  = Some (Loaded texturedResult) ∧
  1 ≤ res_numTexCoords texturedResult ∧
  res_numTexCoords texturedResult ≤ 5 + overlaySlots chaosOptions ∧
  (overlaySlots chaosOptions ≤ 3 →
   res_numTexCoords texturedResult ≤ MAX_STATIC_TEXCOORDS).
Proof.
  split; [vm_compute; reflexivity|].
  apply (texture_coordinate_channels_bounded sampleEngine chaosOptions
           texturedModel texturedPrimitive sampleAccessor samplePositions
           sampleIndices texturedResult).
  vm_compute; reflexivity.
Defined.

(** X11.  After the consolidation block the accessors in the map and the
    channels in use correspond one to one: two accessors never share a
    channel, and the channels are 0 up to the size of the map. *)
Theorem texture_coordinate_channels_distinct model primitive dup idx overlays
    vs s :
  consolidateTextureCoordinates model primitive dup idx overlays vs = Some s →
  (Z.of_nat (5 + overlays) ≤ 2 ^ 32)%Z →
  (∀ a b channel,
     uv_map s !! a = Some channel → uv_map s !! b = Some channel → a = b) ∧
  (∀ channel,
     (0 ≤ channel < Z.of_nat (size (uv_map s)))%Z
     ↔ ∃ a, uv_map s !! a = Some channel).
Proof.
  intros ((Hbelow & _ & _ & _ & Hbij) & _)%consolidateTextureCoordinates_ok Hfit.
  destruct (Hbij Hfit) as [Hinj Hsurj].
  split; [done|]. intros channel. split; [apply Hsurj|].
  intros [a Ha]. by eapply Hbelow.
Qed.

Lemma texture_coordinate_channels_distinct_witness :
  ∃ s,
    consolidateTextureCoordinates texturedModel texturedPrimitive true
      [0; 1; 2]%Z 3 (replicate 3 defaultVertex) = Some s ∧
    (Z.of_nat (5 + 3) ≤ 2 ^ 32)%Z ∧
    (∀ a b channel,
       uv_map s !! a = Some channel → uv_map s !! b = Some channel → a = b) ∧
    (∀ channel,
       (0 ≤ channel < Z.of_nat (size (uv_map s)))%Z
       ↔ ∃ a, uv_map s !! a = Some channel).
Proof.
  destruct (consolidateTextureCoordinates texturedModel texturedPrimitive true
              [0; 1; 2]%Z 3 (replicate 3 defaultVertex)) as [s|] eqn:Hs;
    [|vm_compute in Hs; discriminate].
  exists s. split; [done|]. split; [vm_compute; discriminate|].
  apply (texture_coordinate_channels_distinct texturedModel texturedPrimitive
           true [0; 1; 2]%Z 3 (replicate 3 defaultVertex) s Hs).
  vm_compute; discriminate.
Defined.

(** ** The texture coordinates that a query writes *)

Lemma set_UV_inv k uv w w' :
  set_UV k uv w = Some w' → k < length (UVs w) ∧ w' = withUV k uv w.
Proof.
  unfold set_UV, withUV. intros H.
  destruct (array_set (UVs w) k uv) as [uvs|] eqn:Hset; simpl in H; [|done].
  apply array_set_inv in Hset as [? ->]. by simplify_eq.
Qed.

(** The read of the accessor with its range check: an index outside the
    accessor reads as (0, 0). *)
Lemma checked_uv_read (uvAccessor : AccessorView TMeshVector2) (i : Z) uv :
  (if decide (0 ≤ i < view_size uvAccessor)%Z
   then view_at uvAccessor i else Some zero2) = Some uv →
  uv = default zero2 (view_at uvAccessor i).
Proof.
  unfold view_at, view_size. case_decide as Hi.
  - rewrite decide_True by lia. by intros ->.
  - intros [= <-]. case_decide; [|done].
    rewrite lookup_ge_None_2 by lia. done.
Qed.

(** X12.  The first query of a UV accessor with a valid view takes the next
    free channel and fills that UV slot of every vertex with the accessor's
    element at the vertex's source index, or with (0, 0) when the accessor
    has no such element; nothing else of a vertex changes. *)
Theorem texture_coordinates_written model primitive (dup : bool)
    (vs : list FStaticMeshBuildVertex) (idx : list Z) name (m : gmap Z Z)
    id k vs' m' :
  attributes primitive !! name = Some id →
  m !! uint32 id = None →
  status (viewVector2 model id) = Valid →
  updateTextureCoordinates model primitive dup vs idx name m = Some (k, vs', m') →
  k = uint32 (Z.of_nat (size m)) ∧
  m' = <[uint32 id := k]> m ∧
  length vs' = length vs ∧
  ∀ i w, vs !! i = Some w →
    if decide (i < (if dup then length idx else length vs)) then
      ∃ src,
        (if dup then idx !! i = Some src else src = Z.of_nat i) ∧
        vs' !! i
        = Some (withUV (size m)
                  (default zero2 (view_at (viewVector2 model id) src)) w)
    else vs' !! i = Some w.
Proof.
  intros Hname Hid Hvalid H.
  unfold updateTextureCoordinates in H. rewrite Hname, Hid in H.
  rewrite decide_False in H by (by intros []).
  match type of H with (?loop ≫= _) = _ =>
    destruct loop as [vs2|] eqn:Hloop; simpl in H; [|done] end.
  simplify_eq. split; [done|]. split; [done|].
  set (uvAccessor := viewVector2 model id) in *.
  destruct dup.
  - apply (for_loop_partial
      (λ j t, length t = length vs ∧
         (∀ i w, i < j → vs !! i = Some w →
            ∃ src, idx !! i = Some src ∧
              t !! i = Some (withUV (size m)
                               (default zero2 (view_at uvAccessor src)) w)) ∧
         ∀ i, j ≤ i → t !! i = vs !! i)) in Hloop.
    + destruct Hloop as (j & _ & Hj & Hl & Hdone & Hrest).
      split; [done|]. intros i w Hw. case_decide as Hi.
      * apply Hdone; [lia | done].
      * destruct (decide (i < j)) as [Hlt|Hge]; [|by rewrite Hrest by lia].
        destruct (Hdone i w Hlt Hw) as (src & Hsrc & _).
        apply lookup_lt_Some in Hsrc. lia.
    + lia.
    + split; [done|]. split; [intros; lia | done].
    + intros j t t' _ Hj (Hl & Hdone & Hrest) Hb. simpl in Hb.
      destruct (t !! j) as [w|] eqn:Hw; simpl in Hb; [|done].
      destruct (idx !! j) as [src|] eqn:Hsrc; simpl in Hb; [|done].
      match type of Hb with (?read ≫= _) = _ =>
        destruct read as [uv|] eqn:Hread; simpl in Hb; [|done] end.
      apply checked_uv_read in Hread. subst uv.
      destruct (set_UV _ _ w) as [w'|] eqn:Hset; simpl in Hb; [|done].
      apply set_UV_inv in Hset as [_ ->].
      apply array_set_inv in Hb as [? ->].
      rewrite length_insert. split; [done|]. split.
      * intros i w0 Hi Hw0. destruct (decide (i = j)) as [->|Hne].
        -- rewrite list_lookup_insert_eq by lia.
           rewrite Hrest in Hw by lia. simplify_eq. by exists src.
        -- rewrite list_lookup_insert_ne by lia. apply Hdone; [lia | done].
      * intros i Hi. rewrite list_lookup_insert_ne by lia. apply Hrest. lia.
  - apply (for_loop_partial
      (λ j t, length t = length vs ∧
         (∀ i w, i < j → vs !! i = Some w →
            t !! i = Some (withUV (size m)
                             (default zero2 (view_at uvAccessor (Z.of_nat i)))
                             w)) ∧
         ∀ i, j ≤ i → t !! i = vs !! i)) in Hloop.
    + destruct Hloop as (j & _ & Hj & Hl & Hdone & Hrest).
      split; [done|]. intros i w Hw. case_decide as Hi.
      * exists (Z.of_nat i). split; [done|]. apply Hdone; [lia | done].
      * apply lookup_lt_Some in Hw. lia.
    + lia.
    + split; [done|]. split; [intros; lia | done].
    + intros j t t' _ Hj (Hl & Hdone & Hrest) Hb. simpl in Hb.
      destruct (t !! j) as [w|] eqn:Hw; simpl in Hb; [|done].
      match type of Hb with (?read ≫= _) = _ =>
        destruct read as [uv|] eqn:Hread; simpl in Hb; [|done] end.
      apply checked_uv_read in Hread. subst uv.
      destruct (set_UV _ _ w) as [w'|] eqn:Hset; simpl in Hb; [|done].
      apply set_UV_inv in Hset as [_ ->].
      apply array_set_inv in Hb as [? ->].
      rewrite length_insert. split; [done|]. split.
      * intros i w0 Hi Hw0. destruct (decide (i = j)) as [->|Hne].
        -- rewrite list_lookup_insert_eq by lia.
           rewrite Hrest in Hw by lia. by simplify_eq.
        -- rewrite list_lookup_insert_ne by lia. apply Hdone; [lia | done].
      * intros i Hi. rewrite list_lookup_insert_ne by lia. apply Hrest. lia.
Qed.

Lemma texture_coordinates_written_witness :
  ∃ vs',
    attributes texturedPrimitive !! "TEXCOORD_0" = Some 2%Z ∧
    (∅ : gmap Z Z) !! uint32 2 = None ∧
    status (viewVector2 texturedModel 2) = Valid ∧
    updateTextureCoordinates texturedModel texturedPrimitive true
      (replicate 3 defaultVertex) [2; 7; 0]%Z "TEXCOORD_0" ∅
    = Some (0%Z, vs', {[2%Z := 0%Z]}) ∧
    vs' !! 0 = Some (withUV 0 (MkVector2 float_zero float_one) defaultVertex) ∧
    vs' !! 1 = Some (withUV 0 zero2 defaultVertex) ∧
    0%Z = uint32 (Z.of_nat (size (∅ : gmap Z Z))) ∧
    length vs' = length (replicate 3 defaultVertex).
Proof.
  destruct (updateTextureCoordinates texturedModel texturedPrimitive true
              (replicate 3 defaultVertex) [2; 7; 0]%Z "TEXCOORD_0" ∅)
    as [[[k vs'] m']|] eqn:Hu; [|vm_compute in Hu; discriminate].
  pose proof (texture_coordinates_written texturedModel texturedPrimitive true
                (replicate 3 defaultVertex) [2; 7; 0]%Z "TEXCOORD_0" ∅
                2%Z k vs' m' eq_refl eq_refl eq_refl Hu)
    as (Hk & Hm & Hl & Hall).
  exists vs'. split; [reflexivity|]. split; [reflexivity|].
  split; [reflexivity|].
  assert (k = 0%Z) as -> by (rewrite Hk; reflexivity).
  assert (m' = {[2%Z := 0%Z]}) as -> by (rewrite Hm; reflexivity).
  split; [reflexivity|].
  split; [|split; [|split; [reflexivity | exact Hl]]].
  - destruct (Hall 0 defaultVertex eq_refl) as (src & Hsrc & Hv).
    injection Hsrc as <-. exact Hv.
  - destruct (Hall 1 defaultVertex eq_refl) as (src & Hsrc & Hv).
    injection Hsrc as <-. exact Hv.
Defined.

(** ** The water mask *)

(** X13.  The water flags of a loaded primitive.  Without two boolean extras
    [OnlyWater] and [OnlyLand] the primitive is land only and has no water
    mask; with them it carries their values; and a water-mask texture is
    loaded only for a primitive that is neither only water nor only land,
    from a [WaterMaskTex] that, cut to 32 bits, is the index of a texture of
    the model. *)
Theorem water_mask_flags E options model primitive acc view ix r :
  loadPrimitive E options model primitive acc view ix = Some (Loaded r) →
  ((∀ b, extras primitive !! "OnlyWater" ≠ Some (JsonBool b)) ∨
   (∀ b, extras primitive !! "OnlyLand" ≠ Some (JsonBool b)) →
   res_onlyWater r = false ∧ res_onlyLand r = true ∧
   res_waterMaskTexture r = false) ∧
  (∀ onlyWater onlyLand,
     extras primitive !! "OnlyWater" = Some (JsonBool onlyWater) →
     extras primitive !! "OnlyLand" = Some (JsonBool onlyLand) →
     res_onlyWater r = onlyWater ∧ res_onlyLand r = onlyLand) ∧
  (res_waterMaskTexture r = true →
   res_onlyWater r = false ∧ res_onlyLand r = false ∧
   ∃ z texture,
     extras primitive !! "WaterMaskTex" = Some (JsonInt64 z) ∧
     getSafe (textures model) (int32 z) = Some texture ∧
     loadTextureAnyThreadPart E model texture = true).
Proof.
  intros Hload.
  pose proof (loadPrimitive_fields _ _ _ _ _ _ _ _ Hload)
    as (_ & _ & _ & _ & _ & _ & _ & _ & _ & _ & _ & Hland).
  apply loadPrimitive_Loaded in Hload
    as (_ & _ & _ & _ & _ & _ & _ & _ & _ & _ & _ & _ & _ & Hwater & Htex).
  rewrite Hwater, Hland, Htex. clear. unfold applyWaterMask.
  destruct (extras primitive !! "OnlyWater") as [ow|];
    [|split; [done | split; [done | done]]].
  destruct (extras primitive !! "OnlyLand") as [ol|];
    [|split; [done | split; [done | done]]].
  destruct ow as [|ow| | | | |];
    try (split; [done | split; [done | done]]).
  destruct ol as [|ol| | | | |];
    try (split; [done | split; [done | done]]).
  simpl. split; [intros [H|H]; [by destruct (H ow) | by destruct (H ol)]|].
  split; [by intros ?? [= <-] [= <-]|].
  destruct ow, ol; simpl; try done.
  destruct (extras primitive !! "WaterMaskTex") as [[| |z| | | |]|];
    simpl; try done.
  case_decide as Hrange; [|done].
  unfold loadTexture. simpl.
  destruct (getSafe (textures model) (int32 z)) as [texture|] eqn:Ht; [|done].
  intros Hloaded. split; [done|]. split; [done|]. by exists z, texture.
Qed.

Lemma water_mask_flags_witness :
  loadPrimitive sampleEngine chaosOptions sampleModel flatPrimitive
    sampleAccessor samplePositions sampleIndices = Some (Loaded flatResult) ∧
  res_onlyWater flatResult = false ∧ res_onlyLand flatResult = true ∧
  res_waterMaskTexture flatResult = false.
Proof.
  split; [vm_compute; reflexivity|].
  apply (water_mask_flags sampleEngine chaosOptions sampleModel flatPrimitive
           sampleAccessor samplePositions sampleIndices flatResult);
    [vm_compute; reflexivity|].
  left. intros b. vm_compute. discriminate.
Defined.

(** ** Primitives without an index accessor *)

Lemma synthetic_indices_uint32 n :
  (Z.of_nat n ≤ 2 ^ 32)%Z →
  uint32 <$> (Z.of_nat <$> seq 0 n) = Z.of_nat <$> seq 0 n.
Proof.
  intros Hn. rewrite <- list_fmap_compose. apply list_fmap_ext.
  intros i x [-> Hx]%lookup_seq. simpl. apply uint32_small. lia.
Qed.

(** X14.  A TRIANGLES primitive whose [indices] is no accessor of the model
    is drawn in accessor order.  With fewer than 2^32 positions, the count
    that the 32-bit indices made for it can number, vertex [k] is position
    [k] of the accessor, duplicated or not, and triangle [t] is emitted as
    (3t+2, 3t+1, 3t). *)
Theorem non_indexed_primitive E options model primitive positionAccessorID r :
  attributes primitive !! "POSITION" = Some positionAccessorID →
  (indices_id primitive < 0
   ∨ Z.of_nat (length (accessors model)) ≤ indices_id primitive)%Z →
  mode primitive = TRIANGLES →
  (view_size (viewVector3 model positionAccessorID) < 2 ^ 32)%Z →
  loadMeshPrimitive E options model primitive = Some (Loaded r) →
  Position <$> res_vertices r = elements (viewVector3 model positionAccessorID) ∧
  length (res_indices r)
    = length (elements (viewVector3 model positionAccessorID)) ∧
  ∀ t, 3 * t + 2 < length (res_indices r) →
    res_indices r !! (3 * t) = Some (Z.of_nat (3 * t + 2)) ∧
    res_indices r !! (3 * t + 1) = Some (Z.of_nat (3 * t + 1)) ∧
    res_indices r !! (3 * t + 2) = Some (Z.of_nat (3 * t)).
Proof.
  intros Hpos Hix Hmode Hsize Hload.
  unfold loadMeshPrimitive in Hload. rewrite Hpos in Hload.
  destruct (getSafe (accessors model) positionAccessorID) as [acc|]; [|done].
  rewrite decide_True in Hload by done.
  set (view := viewVector3 model positionAccessorID) in *.
  set (n := length (elements view)) in *.
  pose proof (loadPrimitive_Loaded _ _ _ _ _ _ _ _ Hload)
    as (_ & idx & uv & _ & _ & _ & _ & Hidx & Hbv & Hvs & Hrev & _).
  unfold normalizedIndices, copyIndices in Hidx. rewrite Hmode in Hidx.
  simpl in Hidx. rewrite copyTriangleIndices_spec in Hidx.
  rewrite synthetic_indices_uint32 in Hidx by (unfold view_size in Hsize; lia).
  apply (inj Some) in Hidx. subst idx.
  assert (∀ i, i < n → (Z.of_nat <$> seq 0 n) !! i = Some (Z.of_nat i)) as Hsyn.
  { intros i Hi. rewrite list_lookup_fmap, lookup_seq_lt by done. done. }
  assert (length (Z.of_nat <$> seq 0 n) = n) as Hlen
    by by rewrite length_fmap, length_seq.
  rewrite Hvs.
  destruct (duplicateVertices E options model primitive) eqn:Hdup.
  - destruct (reverseWinding_duplicated (Z.of_nat <$> seq 0 n))
      as (out & Hout & Hl & Hall).
    rewrite Hout in Hrev. apply (inj Some) in Hrev. subst out.
    apply buildVertices_duplicated in Hbv as [Hlv Hp]; [|done].
    rewrite Hl, Hlen. split; [|split; [done|]].
    + apply list_eq. intros i. rewrite list_lookup_fmap.
      destruct (decide (i < n)) as [Hi|Hi].
      * destruct (Hp i _ (Hsyn i Hi)) as (p & Hat & Hi').
        rewrite Hi'. unfold view_at in Hat.
        rewrite decide_True, Nat2Z.id in Hat by lia. done.
      * rewrite !lookup_ge_None_2; [done | fold n; lia |].
        rewrite Hlv, Hlen. lia.
    + intros t Ht. apply Hall. lia.
  - destruct (reverseWinding_shared (Z.of_nat <$> seq 0 n))
      as (out & Hout & Hl & Hall).
    rewrite Hout in Hrev. apply (inj Some) in Hrev. subst out.
    apply buildVertices_shared in Hbv; [|done].
    rewrite Hl, Hlen. split; [done|]. split; [done|].
    intros t Ht. destruct (Hall t) as (H0 & H1 & H2); [lia|].
    rewrite H0, H1, H2, !Hsyn by lia. done.
Qed.

Lemma non_indexed_primitive_witness :
  attributes flatPrimitive !! "POSITION" = Some 0%Z ∧
  loadMeshPrimitive sampleEngine chaosOptions sampleModel flatPrimitive
    = Some (Loaded flatResult) ∧
  Position <$> res_vertices flatResult = elements (viewVector3 sampleModel 0) ∧
  length (res_indices flatResult)
    = length (elements (viewVector3 sampleModel 0)) ∧
  ∀ t, 3 * t + 2 < length (res_indices flatResult) →
    res_indices flatResult !! (3 * t) = Some (Z.of_nat (3 * t + 2)) ∧
    res_indices flatResult !! (3 * t + 1) = Some (Z.of_nat (3 * t + 1)) ∧
    res_indices flatResult !! (3 * t + 2) = Some (Z.of_nat (3 * t)).
Proof.
  split; [reflexivity|].
  split; [vm_compute; reflexivity|].
  apply (non_indexed_primitive sampleEngine chaosOptions sampleModel
           flatPrimitive 0%Z flatResult).
  - reflexivity.
  - left. vm_compute. reflexivity.
  - reflexivity.
  - vm_compute. reflexivity.
  - vm_compute. reflexivity.
Defined.

(** ** Tangents *)

Lemma foldl_option_None {St A} (f : St → A → option St) (l : list A) :
  foldl (λ acc a, t ← acc; f t a) None l = None.
Proof. induction l as [|a l IH]; simpl; [done | exact IH]. Qed.

Lemma foldl_option_app {St A} (f : St → A → option St) (l1 l2 : list A) s s' :
  foldl (λ acc a, t ← acc; f t a) (Some s) (l1 ++ l2) = Some s' →
  ∃ t, foldl (λ acc a, t ← acc; f t a) (Some s) l1 = Some t ∧
       foldl (λ acc a, t ← acc; f t a) (Some t) l2 = Some s'.
Proof.
  rewrite foldl_app.
  destruct (foldl _ (Some s) l1) as [t|]; [by exists t|].
  by rewrite foldl_option_None.
Qed.

Lemma mikkSetTSpaceBasic_inv E vs call vs' :
  mikkSetTSpaceBasic E vs call = Some vs' →
  ∃ w, vs !! tsTarget call = Some w ∧
       vs' = <[tsTarget call := withTSpace E call w]> vs.
Proof.
  unfold mikkSetTSpaceBasic, tsTarget. intros H.
  destruct (vs !! _) as [w|] eqn:Hw; simpl in H; [|done].
  apply array_set_inv in H as [_ ->]. by exists w.
Qed.

Lemma tangent_callbacks_frame E calls vs vs' :
  foldl (λ acc call, t ← acc; mikkSetTSpaceBasic E t call) (Some vs) calls
    = Some vs' →
  same_on vertex_frame vs vs'.
Proof.
  apply (foldl_option_preserves (same_on vertex_frame));
    [done | apply same_on_trans |].
  intros t call t' (w & Hw & ->)%mikkSetTSpaceBasic_inv.
  by eapply same_on_insert.
Qed.

Lemma tangent_callbacks_elsewhere E calls vs vs' k :
  foldl (λ acc call, t ← acc; mikkSetTSpaceBasic E t call) (Some vs) calls
    = Some vs' →
  (∀ call, call ∈ calls → tsTarget call ≠ k) →
  vs' !! k = vs !! k.
Proof.
  revert vs. induction calls as [|c calls IH]; intros vs; simpl.
  - by intros [= <-].
  - destruct (mikkSetTSpaceBasic E vs c) as [t|] eqn:Hc;
      [|by rewrite foldl_option_None].
    intros Hrun Hne. rewrite (IH t Hrun).
    + apply mikkSetTSpaceBasic_inv in Hc as (w & _ & ->).
      rewrite list_lookup_insert_ne; [done|].
      apply Hne. by left.
    + intros call Hcall. apply Hne. by right.
Qed.

Lemma same_on_frame_lookup vs vs' i w w' :
  same_on vertex_frame vs vs' → vs !! i = Some w → vs' !! i = Some w' →
  Position w' = Position w ∧ TangentZ w' = TangentZ w ∧
  UVs w' = UVs w ∧ Color w' = Color w.
Proof.
  intros Hsame Hw Hw'.
  pose proof (same_on_lookup _ _ _ i Hsame) as Hi.
  rewrite Hw, Hw' in Hi. unfold vertex_frame in Hi. simpl in Hi.
  by simplify_eq.
Qed.

(** X15.  Tangent generation writes tangents and bitangents only.  Whatever
    callbacks mikktspace makes, a vertex array that comes back has the
    length, the positions, the normals, the texture coordinates and the
    colours it had, and every callback addressed a vertex of the array. *)
Theorem tangent_space_keeps_frame E vs vs' :
  computeTangentSpace E vs = Some vs' →
  length vs' = length vs ∧
  (∀ i w w', vs !! i = Some w → vs' !! i = Some w' →
     Position w' = Position w ∧ TangentZ w' = TangentZ w ∧
     UVs w' = UVs w ∧ Color w' = Color w) ∧
  ∀ call, call ∈ tangentCallbacks E vs → tsTarget call < length vs.
Proof.
  unfold computeTangentSpace. fold (tangentCallbacks E vs). intros H.
  pose proof (tangent_callbacks_frame _ _ _ _ H) as Hsame.
  split; [by apply (same_on_length vertex_frame)|].
  split; [intros i w w'; by apply same_on_frame_lookup|].
  intros call (before & after & Hsplit)%list_elem_of_split.
  rewrite Hsplit in H.
  apply foldl_option_app in H as (t & Hbefore & Hafter). simpl in Hafter.
  destruct (mikkSetTSpaceBasic E t call) as [t'|] eqn:Hcall;
    [|by rewrite foldl_option_None in Hafter].
  apply mikkSetTSpaceBasic_inv in Hcall as (w & Hw & _).
  apply lookup_lt_Some in Hw.
  apply tangent_callbacks_frame in Hbefore.
  by rewrite (same_on_length _ _ _ Hbefore) in Hw.
Qed.

Lemma tangent_space_keeps_frame_witness :
  ∃ vs',
    computeTangentSpace tangentEngine (res_vertices flatResult) = Some vs' ∧
    length vs' = length (res_vertices flatResult) ∧
    (∀ i w w', res_vertices flatResult !! i = Some w → vs' !! i = Some w' →
       Position w' = Position w ∧ TangentZ w' = TangentZ w ∧
       UVs w' = UVs w ∧ Color w' = Color w) ∧
    ∀ call, call ∈ tangentCallbacks tangentEngine (res_vertices flatResult) →
      tsTarget call < length (res_vertices flatResult).
Proof.
  destruct (computeTangentSpace tangentEngine (res_vertices flatResult))
    as [vs'|] eqn:Hrun; [|vm_compute in Hrun; discriminate].
  exists vs'. split; [reflexivity|].
  exact (tangent_space_keeps_frame tangentEngine (res_vertices flatResult)
           vs' Hrun).
Defined.

(** X16.  The last callback for a vertex decides its tangent space: the vertex
    ends with the callback's tangent and with the cross product of its
    normal and that tangent, scaled by the callback's sign, as bitangent. *)
Theorem tangent_space_last_callback E vs vs' before call after :
  computeTangentSpace E vs = Some vs' →
  tangentCallbacks E vs = before ++ call :: after →
  (∀ later, later ∈ after → tsTarget later ≠ tsTarget call) →
  ∃ w, vs !! tsTarget call = Some w ∧
       vs' !! tsTarget call = Some (withTSpace E call w).
Proof.
  unfold computeTangentSpace. fold (tangentCallbacks E vs).
  intros H Hsplit Hlast. rewrite Hsplit in H.
  apply foldl_option_app in H as (t & Hbefore & Hafter). simpl in Hafter.
  destruct (mikkSetTSpaceBasic E t call) as [t'|] eqn:Hcall;
    [|by rewrite foldl_option_None in Hafter].
  apply mikkSetTSpaceBasic_inv in Hcall as (w1 & Hw1 & ->).
  rewrite (tangent_callbacks_elsewhere _ _ _ _ _ Hafter Hlast).
  apply tangent_callbacks_frame in Hbefore.
  pose proof (lookup_lt_Some _ _ _ Hw1) as Hlt.
  rewrite (same_on_length _ _ _ Hbefore) in Hlt.
  destruct (lookup_lt_is_Some_2 vs (tsTarget call) Hlt) as [w Hw].
  exists w. split; [done|].
  rewrite list_lookup_insert_eq by (by apply lookup_lt_Some in Hw1).
  destruct (same_on_frame_lookup _ _ _ _ _ Hbefore Hw Hw1)
    as (Hp & Hz & Hu & Hc).
  unfold withTSpace. by rewrite Hp, Hz, Hu, Hc.
Qed.

Lemma tangent_space_last_callback_witness :
  ∃ vs' before call after w,
    computeTangentSpace tangentEngine (res_vertices flatResult) = Some vs' ∧
    tangentCallbacks tangentEngine (res_vertices flatResult)
      = before ++ call :: after ∧
    tsTarget call = 0 ∧
    tsTangent call = MkVector3 float_zero float_one float_zero ∧
    res_vertices flatResult !! 0 = Some w ∧
    vs' !! 0 = Some (withTSpace tangentEngine call w).
Proof.
  destruct (computeTangentSpace tangentEngine (res_vertices flatResult))
    as [vs'|] eqn:Hrun; [|vm_compute in Hrun; discriminate].
  destruct (tangent_space_last_callback tangentEngine
              (res_vertices flatResult) vs'
              (take 2 sampleCallbacks)
              (MkTSpaceCall (MkVector3 float_zero float_one float_zero)
                 float_half 0 0)
              [] Hrun eq_refl) as (w & Hw & Hw').
  { intros later Hlater. by apply elem_of_nil in Hlater. }
  exists vs', (take 2 sampleCallbacks),
    (MkTSpaceCall (MkVector3 float_zero float_one float_zero) float_half 0 0),
    [], w.
  split; [reflexivity|]. split; [reflexivity|]. split; [reflexivity|].
  split; [reflexivity|]. split; [exact Hw | exact Hw'].
Defined.

(** ** The tangent-space pass of a build *)

(** What [computeTangentSpace] does with the callbacks that mikktspace
    makes for a vertex array. *)
Lemma computeTangentSpace_callbacks E vs vs' :
  computeTangentSpace E vs = Some vs' →
  same_on vertex_frame vs vs' ∧
  (∀ before call after,
     tangentCallbacks E vs = before ++ call :: after →
     (∀ later, later ∈ after → tsTarget later ≠ tsTarget call) →
     ∃ w, vs !! tsTarget call = Some w ∧
          vs' !! tsTarget call = Some (withTSpace E call w)) ∧
  (∀ k, (∀ call, call ∈ tangentCallbacks E vs → tsTarget call ≠ k) →
     vs' !! k = vs !! k).
Proof.
  unfold computeTangentSpace. fold (tangentCallbacks E vs). intros H.
  split; [by eapply tangent_callbacks_frame|]. split.
  - intros before call after Hsplit Hlast. rewrite Hsplit in H.
    apply foldl_option_app in H as (t & Hbefore & Hafter). simpl in Hafter.
    destruct (mikkSetTSpaceBasic E t call) as [t'|] eqn:Hcall;
      [|by rewrite foldl_option_None in Hafter].
    apply mikkSetTSpaceBasic_inv in Hcall as (w1 & Hw1 & ->).
    rewrite (tangent_callbacks_elsewhere _ _ _ _ _ Hafter Hlast).
    apply tangent_callbacks_frame in Hbefore.
    pose proof (lookup_lt_Some _ _ _ Hw1) as Hlt.
    rewrite (same_on_length _ _ _ Hbefore) in Hlt.
    destruct (lookup_lt_is_Some_2 vs (tsTarget call) Hlt) as [w Hw].
    exists w. split; [done|].
    rewrite list_lookup_insert_eq by (by apply lookup_lt_Some in Hw1).
    destruct (same_on_frame_lookup _ _ _ _ _ Hbefore Hw Hw1)
      as (Hp & Hz & Hu & Hc).
    unfold withTSpace. by rewrite Hp, Hz, Hu, Hc.
  - intros k Hk. by eapply tangent_callbacks_elsewhere.
Qed.

(** C8.  Tangents are required exactly when the normal-map texture of the
    material resolves to a texture and an image, or the caller asks for
    tangents always, or the water mask is active (the primitive is only
    water, or a water-mask texture was loaded).  The scope of the
    tangent-space pass is entered exactly when tangents are required and no
    valid TANGENT accessor exists.  The pass then runs over the duplicated
    vertices, one per index: the vertices of the result are what
    [computeTangentSpace] makes of the vertex array of the earlier passes.
    That array has the positions, normals, texture coordinates and colours
    of the result; every vertex that mikktspace calls back for carries the
    tangent of its last callback and the bitangent computed from it, and
    every other vertex is as the earlier passes left it. *)
Theorem tangent_requirement E options model primitive acc view ix r :
  loadPrimitive E options model primitive acc view ix = Some (Loaded r) →
  (needsTangents E options model primitive = true ↔
   normal_map_resolves model primitive ∨
   alwaysIncludeTangents options = true ∨
   res_onlyWater r = true ∨
   res_waterMaskTexture r = true) ∧
  ("compute tangents" ∈ res_trace r ↔
   needsTangents E options model primitive = true ∧
   hasTangents model primitive = false) ∧
  (needsTangents E options model primitive = true →
   hasTangents model primitive = false →
   duplicateVertices E options model primitive = true ∧
   ∃ vertices,
     length vertices = length (res_indices r) ∧
     same_on vertex_frame vertices (res_vertices r) ∧
     computeTangentSpace E vertices = Some (res_vertices r) ∧
     (∀ before call after,
        tangentCallbacks E vertices = before ++ call :: after →
        (∀ later, later ∈ after → tsTarget later ≠ tsTarget call) →
        ∃ w, vertices !! tsTarget call = Some w ∧
             res_vertices r !! tsTarget call
             = Some (withTSpace E call w)) ∧
     (∀ k, (∀ call, call ∈ tangentCallbacks E vertices →
              tsTarget call ≠ k) →
        res_vertices r !! k = vertices !! k)).
Proof.
  intros Hload.
  pose proof (vertex_count_of_duplicated E options model primitive acc view
                ix r Hload) as Hcount.
  destruct (loadPrimitive_Loaded _ _ _ _ _ _ _ _ Hload)
    as (aaBox & idx & uv & _ & _ & _ & _ & Hidx & Hbv & Hvs & Hrev & _ &
        Htrace & Hwater & Htex).
  split; [|split].
  - rewrite needsTangents_true, hasNormalMap_resolves, Hwater, Htex. done.
  - rewrite Htrace. apply compute_tangents_traced.
  - intros Hneeds Hhas.
    assert (duplicateVertices E options model primitive = true) as Hdup.
    { unfold duplicateVertices. rewrite Hneeds, Hhas.
      by destruct (hasNormals model primitive). }
    split; [done|].
    apply buildVertices_passes in Hbv
      as (vs0 & vs1 & vs2 & uv0 & vs3 & vs4 & _ & _ & _ & _ & _ & _ & Hrun
          & _).
    rewrite Hneeds, Hhas in Hrun. simpl in Hrun. rewrite <- Hvs in Hrun.
    destruct (computeTangentSpace_callbacks E vs4 (res_vertices r) Hrun)
      as (Hframe & Hlast & Helse).
    exists vs4. split.
    { rewrite <- (same_on_length _ _ _ Hframe). by apply Hcount. }
    split; [done|]. split; [done|]. split; [exact Hlast | exact Helse].
Qed.

Lemma tangent_requirement_witness :
  loadPrimitive tangentEngine tangentOptions sampleModel flatPrimitive
    sampleAccessor samplePositions sampleIndices
  = Some (Loaded generatedTangentResult) ∧
  needsTangents tangentEngine tangentOptions sampleModel flatPrimitive = true ∧
  hasTangents sampleModel flatPrimitive = false ∧
  "compute tangents" ∈ res_trace generatedTangentResult ∧
  duplicateVertices tangentEngine tangentOptions sampleModel flatPrimitive
  = true ∧
  TangentX <$> res_vertices generatedTangentResult !! 0
  = Some (MkVector3 float_zero float_one float_zero) ∧
  ∃ vertices,
    length vertices = length (res_indices generatedTangentResult) ∧
    same_on vertex_frame vertices (res_vertices generatedTangentResult) ∧
    computeTangentSpace tangentEngine vertices
    = Some (res_vertices generatedTangentResult).
Proof.
  assert (needsTangents tangentEngine tangentOptions sampleModel flatPrimitive
          = true) as Hneeds by (vm_compute; reflexivity).
  assert (hasTangents sampleModel flatPrimitive = false) as Hhas
    by (vm_compute; reflexivity).
  destruct (tangent_requirement tangentEngine tangentOptions sampleModel
              flatPrimitive sampleAccessor samplePositions sampleIndices
              generatedTangentResult)
    as (_ & Htrace & Hpass); [vm_compute; reflexivity|].
  destruct (Hpass Hneeds Hhas)
    as (Hdup & vertices & Hlen & Hframe & Hrun & _).
  split; [vm_compute; reflexivity|]. split; [exact Hneeds|].
  split; [exact Hhas|]. split; [by apply Htrace|]. split; [exact Hdup|].
  split; [vm_compute; reflexivity|].
  exists vertices. split; [exact Hlen|]. split; [exact Hframe | exact Hrun].
Defined.

(** ** Tangents read from the accessor *)

Lemma copyTangents_spec E (dup : bool) view (idx : list Z)
    (vs vs' : list FStaticMeshBuildVertex) :
  copyTangents E dup view idx vs = Some vs' →
  length vs' = length vs ∧
  ∀ i, i < (if dup then length idx else length vs) →
    ∃ src tangent w,
      (if dup then idx !! i = Some src else src = Z.of_nat i) ∧
      view_at view src = Some tangent ∧
      vs !! i = Some w ∧
      vs' !! i
      = Some (set_TangentY
                (vscale E (v4W tangent)
                   (CrossProduct E (TangentZ w) (tangentXYZ tangent)))
                (set_TangentX (tangentXYZ tangent) w)).
Proof.
  unfold copyTangents. destruct dup; intros H.
  - apply (for_loop_partial
      (λ j t, length t = length vs ∧
         (∀ i, i < j →
            ∃ src tangent w, idx !! i = Some src ∧
              view_at view src = Some tangent ∧ vs !! i = Some w ∧
              t !! i
              = Some (set_TangentY
                        (vscale E (v4W tangent)
                           (CrossProduct E (TangentZ w) (tangentXYZ tangent)))
                        (set_TangentX (tangentXYZ tangent) w))) ∧
         ∀ i, j ≤ i → t !! i = vs !! i))
      in H as (j & _ & Hj & Hl & Hall & _).
    + split; [done|]. intros i Hi. apply Hall. lia.
    + lia.
    + split; [done|]. split; [intros; lia | done].
    + intros j t t' _ Hj (Hlen & Hall & Hrest) Hb. simpl in Hb.
      destruct (t !! j) as [w|] eqn:Hw; simpl in Hb; [|done].
      destruct (idx !! j) as [src|] eqn:Hsrc; simpl in Hb; [|done].
      destruct (view_at view src) as [tangent|] eqn:Ht; simpl in Hb; [|done].
      apply array_set_inv in Hb as [Hjt ->].
      rewrite length_insert. split; [done|]. split.
      * intros i Hi. destruct (decide (i = j)) as [->|Hne].
        -- exists src, tangent, w. rewrite list_lookup_insert_eq by done.
           rewrite <- Hrest by lia. done.
        -- rewrite list_lookup_insert_ne by done. apply Hall. lia.
      * intros i Hi. rewrite list_lookup_insert_ne by lia. apply Hrest. lia.
  - apply (for_loop_partial
      (λ j t, length t = length vs ∧
         (∀ i, i < j →
            ∃ src tangent w, src = Z.of_nat i ∧
              view_at view src = Some tangent ∧ vs !! i = Some w ∧
              t !! i
              = Some (set_TangentY
                        (vscale E (v4W tangent)
                           (CrossProduct E (TangentZ w) (tangentXYZ tangent)))
                        (set_TangentX (tangentXYZ tangent) w))) ∧
         ∀ i, j ≤ i → t !! i = vs !! i))
      in H as (j & _ & Hj & Hl & Hall & _).
    + split; [done|]. intros i Hi. apply Hall. lia.
    + lia.
    + split; [done|]. split; [intros; lia | done].
    + intros j t t' _ Hj (Hlen & Hall & Hrest) Hb. simpl in Hb.
      destruct (t !! j) as [w|] eqn:Hw; simpl in Hb; [|done].
      destruct (view_at view (Z.of_nat j)) as [tangent|] eqn:Ht;
        simpl in Hb; [|done].
      apply array_set_inv in Hb as [Hjt ->].
      rewrite length_insert. split; [done|]. split.
      * intros i Hi. destruct (decide (i = j)) as [->|Hne].
        -- exists (Z.of_nat j), tangent, w.
           rewrite list_lookup_insert_eq by done.
           rewrite <- Hrest by lia. done.
        -- rewrite list_lookup_insert_ne by done. apply Hall. lia.
      * intros i Hi. rewrite list_lookup_insert_ne by lia. apply Hrest. lia.
Qed.

(** X17.  With a valid TANGENT view every vertex of a loaded primitive has the
    first three components of the accessor's tangent at its source index as
    tangent, and as bitangent the cross product of its normal and that
    tangent scaled by the fourth component; no tangent is generated. *)
Theorem tangents_copied E options model primitive acc view ix r :
  loadPrimitive E options model primitive acc view ix = Some (Loaded r) →
  hasTangents model primitive = true →
  ∃ idx,
    normalizedIndices primitive ix = Some idx ∧
    ∀ i w, res_vertices r !! i = Some w →
      ∃ src tangent,
        (if duplicateVertices E options model primitive
         then idx !! i = Some src else src = Z.of_nat i) ∧
        view_at (tangentAccessor model primitive) src = Some tangent ∧
        TangentX w = tangentXYZ tangent ∧
        TangentY w
        = vscale E (v4W tangent) (CrossProduct E (TangentZ w) (TangentX w)).
Proof.
  intros Hload Ht.
  apply loadPrimitive_Loaded in Hload
    as (_ & idx & uv & _ & _ & _ & _ & Hidx & Hbv & Hvs & _).
  exists idx. split; [done|].
  assert (duplicateVertices E options model primitive = true →
          length (uv_vertices uv) = length idx) as Hdupl.
  { intros Hdup.
    by destruct (buildVertices_duplicated _ _ _ _ _ _ _ _ _ _ Hdup Hbv). }
  apply buildVertices_passes in Hbv
    as (vs0 & vs1 & vs2 & uv0 & vs3 & vs4 & _ & _ & _ & _ & _ & H5 & H6 & _).
  rewrite Ht in H5, H6. rewrite andb_false_r in H6.
  rewrite Hvs, H6 in *. clear H6.
  apply copyTangents_spec in H5 as [Hlen Hall].
  intros i w Hw.
  assert (i < (if duplicateVertices E options model primitive
               then length idx else length vs3)) as Hi.
  { apply lookup_lt_Some in Hw.
    destruct (duplicateVertices E options model primitive); lia. }
  destruct (Hall i Hi) as (src & tangent & w0 & Hsrc & Hview & Hw0 & Hw').
  rewrite Hw in Hw'. simplify_eq. by exists src, tangent.
Qed.

Lemma tangents_copied_witness :
  loadPrimitive sampleEngine chaosOptions tangentModel tangentPrimitive
    sampleAccessor samplePositions sampleIndices
  = Some (Loaded copiedTangentResult) ∧
  hasTangents tangentModel tangentPrimitive = true ∧
  ∃ idx,
    normalizedIndices tangentPrimitive sampleIndices = Some idx ∧
    ∀ i w, res_vertices copiedTangentResult !! i = Some w →
      ∃ src tangent,
        (if duplicateVertices sampleEngine chaosOptions tangentModel
              tangentPrimitive
         then idx !! i = Some src else src = Z.of_nat i) ∧
        view_at (tangentAccessor tangentModel tangentPrimitive) src
          = Some tangent ∧
        TangentX w = tangentXYZ tangent ∧
        TangentY w
        = vscale sampleEngine (v4W tangent)
            (CrossProduct sampleEngine (TangentZ w) (TangentX w)).
Proof.
  split; [vm_compute; reflexivity|].
  split; [vm_compute; reflexivity|].
  apply (tangents_copied sampleEngine chaosOptions tangentModel
           tangentPrimitive sampleAccessor samplePositions sampleIndices
           copiedTangentResult);
    vm_compute; reflexivity.
Defined.

(** ** The mikktspace getters *)

(** X18.  The getters stay inside the vertex array for every face and corner
    that they advertise: a face below [mikkGetNumFaces] has three corners,
    any other face none, and corner [v] of face [f] is vertex [3 f + v]. *)
Theorem mikk_getters_in_range (vs : list FStaticMeshBuildVertex)
    (FaceIdx VertIdx : nat) :
  mikkGetNumVertsOfFace vs FaceIdx
    = (if decide (FaceIdx < mikkGetNumFaces vs) then 3 else 0) ∧
  3 * mikkGetNumFaces vs ≤ length vs ∧
  (VertIdx < mikkGetNumVertsOfFace vs FaceIdx →
   ∃ w, vs !! (3 * FaceIdx + VertIdx) = Some w ∧
        mikkGetPosition vs FaceIdx VertIdx = Some (Position w) ∧
        mikkGetNormal vs FaceIdx VertIdx = Some (TangentZ w) ∧
        mikkGetTexCoord vs FaceIdx VertIdx = UVs w !! 0).
Proof.
  unfold mikkGetNumVertsOfFace, mikkGetNumFaces, mikkGetPosition,
    mikkGetNormal, mikkGetTexCoord.
  pose proof (Nat.Div0.mul_div_le (length vs) 3) as Hle.
  split; [done|]. split; [done|].
  case_decide as Hf; [|lia]. intros Hv.
  destruct (lookup_lt_is_Some_2 vs (3 * FaceIdx + VertIdx)) as [w Hw]; [lia|].
  exists w. replace (FaceIdx * 3 + VertIdx) with (3 * FaceIdx + VertIdx) by lia.
  rewrite Hw. done.
Qed.

(** ** Bounds *)

Lemma SFltb_not_nan x y : SFltb x y = true → x ≠ S754_nan.
Proof. by destruct x. Qed.

Lemma running_min_not_nan (l : list double) seed :
  seed ≠ S754_nan → foldl glm_min seed l ≠ S754_nan.
Proof.
  revert seed. induction l as [|y l IH]; intros seed Hseed; simpl; [done|].
  apply IH. unfold glm_min.
  destruct (SFltb y seed) eqn:Hlt; [by eapply SFltb_not_nan | done].
Qed.

Lemma running_max_not_nan (l : list double) seed :
  seed ≠ S754_nan → foldl glm_max seed l ≠ S754_nan.
Proof.
  revert seed. induction l as [|y l IH]; intros seed Hseed; simpl; [done|].
  apply IH. unfold glm_max.
  destruct (SFltb seed y) eqn:Hlt; [|done].
  destruct y; try done. by destruct seed.
Qed.

(** X19.  A box computed from the positions never has a NaN bound, whatever
    the coordinates are: a comparison with a NaN is false and the running
    bound stays.  Over an empty accessor the bounds stay at their seeds,
    the largest double as minimum and the lowest as maximum. *)
Theorem computed_box_has_no_nan acc view :
  length (min acc) ≠ 3 ∨ length (max acc) ≠ 3 →
  ∃ box,
    computeAABox acc view = Some box ∧
    box_without_nan box ∧
    (elements view = [] →
     box = MkBox (MkDvec3 DBL_MAX DBL_MAX DBL_MAX)
                 (MkDvec3 DBL_LOWEST DBL_LOWEST DBL_LOWEST)).
Proof.
  intros Hdeclared. eexists. split; [by apply computeAABox_computed|].
  split.
  - unfold box_without_nan. simpl.
    split_and!; (apply running_min_not_nan || apply running_max_not_nan);
      by rewrite ?DBL_MAX_eq, ?DBL_LOWEST_eq.
  - by intros ->.
Qed.

Lemma computed_box_has_no_nan_witness :
  ∃ box,
    computeAABox sampleAccessor
      (MkView Valid [MkVector3 S754_nan float_one S754_nan]) = Some box ∧
    box_without_nan box.
Proof.
  destruct (computed_box_has_no_nan sampleAccessor
              (MkView Valid [MkVector3 S754_nan float_one S754_nan]))
    as (box & Hbox & Hnan & _).
  - left. vm_compute. discriminate.
  - exists box. split; [exact Hbox | exact Hnan].
Defined.

Lemma copyPositions_radius E (dup : bool) view (idx : list Z) origin vs0 vs radius :
  length vs0 = (if dup then length idx else length (elements view)) →
  copyPositions E dup view idx origin vs0 = Some (vs, radius) →
  radius = sphereRadius E origin (Position <$> vs).
Proof.
  unfold copyPositions, sphereRadius. intros Hlen H.
  set (grow := λ (radius : float) (p : TMeshVector3),
                 growRadius E p origin radius).
  destruct dup.
  - apply (for_loop_partial
      (λ j '(t, rad), length t = length vs0 ∧
         rad = foldl grow float_zero (Position <$> take j t))) in H.
    + destruct H as (j & _ & Hj & Hl & ->).
      by rewrite take_ge by lia.
    + lia.
    + done.
    + intros j [t rad] [t' rad'] _ Hj [Hl ->] Hb. simpl in Hb.
      destruct (t !! j) as [w|] eqn:Hw; simpl in Hb; [|done].
      destruct (idx !! j) as [vi|]; simpl in Hb; [|done].
      destruct (view_at view vi) as [p|]; simpl in Hb; [|done].
      destruct (set_UV 0 _ _) as [w1|] eqn:H1; simpl in Hb; [|done].
      destruct (set_UV 2 _ _) as [w2|] eqn:H2; simpl in Hb; [|done].
      destruct (array_set t j w2) as [t2|] eqn:Hset; simpl in Hb; [|done].
      apply array_set_inv in Hset as [Hjt ->]. simplify_eq.
      rewrite length_insert. split; [done|].
      rewrite Nat.add_1_r.
      erewrite take_S_r by (by apply list_lookup_insert_eq).
      rewrite take_insert_ge by lia.
      rewrite fmap_app, foldl_app. done.
  - apply (for_loop_partial
      (λ j '(t, rad), length t = length vs0 ∧
         rad = foldl grow float_zero (Position <$> take j t))) in H.
    + destruct H as (j & _ & Hj & Hl & ->).
      by rewrite take_ge by lia.
    + lia.
    + done.
    + intros j [t rad] [t' rad'] _ Hj [Hl ->] Hb. simpl in Hb.
      destruct (t !! j) as [w|] eqn:Hw; simpl in Hb; [|done].
      destruct (view_at view (Z.of_nat j)) as [p|]; simpl in Hb; [|done].
      destruct (set_UV 0 _ _) as [w1|] eqn:H1; simpl in Hb; [|done].
      destruct (set_UV 2 _ _) as [w2|] eqn:H2; simpl in Hb; [|done].
      destruct (array_set t j w2) as [t2|] eqn:Hset; simpl in Hb; [|done].
      apply array_set_inv in Hset as [Hjt ->]. simplify_eq.
      rewrite length_insert. split; [done|].
      rewrite Nat.add_1_r.
      erewrite take_S_r by (by apply list_lookup_insert_eq).
      rewrite take_insert_ge by lia.
      rewrite fmap_app, foldl_app. done.
Qed.

(** X20.  The bounding sphere of a loaded primitive is grown from radius 0
    around the centre of the box over the position of every emitted vertex,
    in order; a position that several duplicated vertices carry is visited
    once for each of them. *)
Theorem sphere_radius_over_vertices E options model primitive acc view ix r :
  loadPrimitive E options model primitive acc view ix = Some (Loaded r) →
  SphereRadius (res_Bounds r)
  = sphereRadius E (Origin (res_Bounds r)) (Position <$> res_vertices r).
Proof.
  intros (_ & idx & uv & _ & _ & _ & _ & _ & Hbv & Hvs & _)%loadPrimitive_Loaded.
  apply buildVertices_inv in Hbv as (vs0 & vs1 & H0 & H1 & Hsame).
  rewrite Hvs, Hsame.
  eapply copyPositions_radius; [|exact H1].
  apply SetNum_length in H0. unfold view_size in H0.
  destruct (duplicateVertices E options model primitive); lia.
Qed.

Lemma sphere_radius_over_vertices_witness :
  loadPrimitive sampleEngine chaosOptions sampleModel flatPrimitive
    sampleAccessor samplePositions sampleIndices = Some (Loaded flatResult) ∧
  SphereRadius (res_Bounds flatResult)
  = sphereRadius sampleEngine (Origin (res_Bounds flatResult))
      (Position <$> res_vertices flatResult).
Proof.
  split; [vm_compute; reflexivity|].
  apply (sphere_radius_over_vertices sampleEngine chaosOptions sampleModel
           flatPrimitive sampleAccessor samplePositions sampleIndices
           flatResult).
  vm_compute; reflexivity.
Defined.

(** ** Names *)

Lemma size_t_small z : (0 ≤ z < 2 ^ 64)%Z → size_t z = z.
Proof. intros. unfold size_t. by rewrite Z.mod_small. Qed.

(** What [constrainLength] returns, case by case. *)
Lemma constrainLength_cases (s : std_string) (maxLength : Z) :
  (0 ≤ maxLength < 2 ^ 64)%Z →
  (str_length s < 2 ^ 64)%Z →
  ∃ r,
    constrainLength s maxLength = Some r ∧
    ((str_length s ≤ maxLength)%Z → r = s) ∧
    ((maxLength < str_length s)%Z → (maxLength ≤ 3)%Z →
     r = take (Z.to_nat maxLength) s) ∧
    ((maxLength < str_length s)%Z → (3 < maxLength)%Z →
     r = take (Z.to_nat ((maxLength - 2) / 2)) s ++ ellipsis
         ++ drop (length s - Z.to_nat ((maxLength - 3) / 2)) s).
Proof.
  unfold constrainLength, substr, str_length. intros Hmax Hs.
  destruct (decide (Z.of_nat (length s) ≤ maxLength)%Z) as [Hfit|Hlong].
  { exists s. split; [done|]. split; [done|]. split; intros; lia. }
  destruct (decide (maxLength ≤ 3)%Z) as [Hsmall|Hbig].
  { rewrite decide_True by lia. eexists. split; [done|]. rewrite drop_0.
    split; [intros; lia|]. split; [done | intros; lia]. }
  change (Z.of_nat (length ellipsis)) with 3%Z.
  rewrite (size_t_small (maxLength - 3)) by lia.
  rewrite (size_t_small (maxLength - 3 + 1)) by lia.
  assert (0 ≤ (maxLength - 3) / 2 ≤ maxLength - 3)%Z as Hq.
  { split; [apply Z.div_pos; lia|]. apply Z.div_le_upper_bound; lia. }
  rewrite size_t_small by lia.
  rewrite !decide_True by lia. simpl.
  eexists. split; [done|]. split; [intros; lia|]. split; [intros; lia|].
  intros _ _. rewrite drop_0, <- app_assoc.
  replace (maxLength - 3 + 1)%Z with (maxLength - 2)%Z by lia.
  rewrite Z2Nat.inj_sub, Nat2Z.id by lia.
  rewrite (take_ge (drop _ s)) by (rewrite length_drop; lia). reflexivity.
Qed.

Lemma constrainLength_total (s : std_string) (maxLength : Z) :
  (0 ≤ maxLength < 2 ^ 64)%Z →
  (str_length s < 2 ^ 64)%Z →
  ∃ r,
    constrainLength s maxLength = Some r ∧
    str_length r = Z.min (str_length s) maxLength ∧
    ((str_length s ≤ maxLength)%Z → r = s).
Proof.
  intros Hmax Hs.
  destruct (constrainLength_cases s maxLength Hmax Hs)
    as (r & Hr & Hfit & Hsmall & Hbig).
  exists r. split; [done|]. split; [|done].
  unfold str_length in *.
  destruct (decide (Z.of_nat (length s) ≤ maxLength)%Z) as [H1|H1].
  { rewrite Hfit by done. lia. }
  destruct (decide (maxLength ≤ 3)%Z) as [H2|H2].
  { rewrite Hsmall by lia. rewrite length_take. lia. }
  rewrite Hbig by lia.
  rewrite !length_app, length_take, length_drop.
  change (length ellipsis) with 3.
  pose proof (Z.div_mod (maxLength - 3) 2 ltac:(lia)) as Hq2.
  pose proof (Z.mod_pos_bound (maxLength - 3) 2 ltac:(lia)) as Hr2.
  pose proof (Z.div_mod (maxLength - 2) 2 ltac:(lia)) as Hp2.
  pose proof (Z.mod_pos_bound (maxLength - 2) 2 ltac:(lia)) as Hpr2.
  lia.
Qed.

(** X21.  [constrainLength] never throws.  It returns a string as it is when
    it is at most [maxLength] long and a string of exactly [maxLength]
    characters otherwise, and constraining the result again changes
    nothing. *)
Theorem constrainLength_length (s : std_string) (maxLength : Z) :
  (0 ≤ maxLength < 2 ^ 64)%Z →
  (str_length s < 2 ^ 64)%Z →
  ∃ r,
    constrainLength s maxLength = Some r ∧
    str_length r = Z.min (str_length s) maxLength ∧
    ((str_length s ≤ maxLength)%Z → r = s) ∧
    constrainLength r maxLength = Some r.
Proof.
  intros Hmax Hs.
  destruct (constrainLength_total s maxLength Hmax Hs) as (r & Hr & Hlen & Hfit).
  exists r. split; [done|]. split; [done|]. split; [done|].
  unfold constrainLength. rewrite decide_True; [done | lia].
Qed.

Lemma constrainLength_length_witness :
  ∃ r,
    constrainLength (String.list_ascii_of_string "Cesium3DTiles") 8 = Some r ∧
    str_length r
      = Z.min (str_length (String.list_ascii_of_string "Cesium3DTiles")) 8 ∧
    r = String.list_ascii_of_string "Ces...es".
Proof.
  destruct (constrainLength_length
              (String.list_ascii_of_string "Cesium3DTiles") 8)
    as (r & Hr & Hlen & _); [lia | vm_compute; reflexivity |].
  exists r. split; [exact Hr|]. split; [exact Hlen|].
  vm_compute in Hr. by injection Hr as <-.
Defined.

(** X22.  A string longer than a limit above three keeps both of its ends: the
    result is a prefix of the string, the ellipsis and a suffix of the
    string, the prefix as long as the suffix or one character longer. *)
Theorem constrainLength_keeps_ends (s : std_string) (maxLength : Z) :
  (3 < maxLength < 2 ^ 64)%Z →
  (maxLength < str_length s < 2 ^ 64)%Z →
  ∃ p q : nat,
    (Z.of_nat p + 3 + Z.of_nat q = maxLength)%Z ∧
    q ≤ p ≤ q + 1 ∧
    constrainLength s maxLength
    = Some (take p s ++ ellipsis ++ drop (length s - q) s).
Proof.
  intros Hmax Hs.
  destruct (constrainLength_cases s maxLength) as (r & Hr & _ & _ & Hbig);
    [lia | lia |].
  exists (Z.to_nat ((maxLength - 2) / 2)), (Z.to_nat ((maxLength - 3) / 2)).
  rewrite Hr, Hbig by lia.
  pose proof (Z.div_mod (maxLength - 3) 2 ltac:(lia)) as Hq2.
  pose proof (Z.mod_pos_bound (maxLength - 3) 2 ltac:(lia)) as Hr2.
  pose proof (Z.div_mod (maxLength - 2) 2 ltac:(lia)) as Hp2.
  pose proof (Z.mod_pos_bound (maxLength - 2) 2 ltac:(lia)) as Hpr2.
  split; [lia|]. split; [lia | done].
Qed.

Lemma constrainLength_keeps_ends_witness :
  ∃ p q : nat,
    (Z.of_nat p + 3 + Z.of_nat q = 8)%Z ∧
    q ≤ p ≤ q + 1 ∧
    constrainLength (String.list_ascii_of_string "Cesium3DTiles") 8
    = Some (take p (String.list_ascii_of_string "Cesium3DTiles") ++ ellipsis
            ++ drop (length (String.list_ascii_of_string "Cesium3DTiles") - q)
                 (String.list_ascii_of_string "Cesium3DTiles")).
Proof.
  apply (constrainLength_keeps_ends
           (String.list_ascii_of_string "Cesium3DTiles") 8);
    vm_compute; split; (reflexivity || discriminate).
Defined.

Lemma c_str_length s : length (c_str s) ≤ length s.
Proof.
  induction s as [|c s IH]; simpl; [done|]. case_decide; simpl; lia.
Qed.

Lemma c_str_id s : Ascii.zero ∉ s → c_str s = s.
Proof.
  induction s as [|c s IH]; simpl; [done|].
  intros Hnul. rewrite decide_False.
  - f_equal. apply IH. intros Hin. apply Hnul. by right.
  - intros ->. apply Hnul. by left.
Qed.

Lemma constrainLength_sublist s maxLength r c :
  (0 ≤ maxLength < 2 ^ 64)%Z → (str_length s < 2 ^ 64)%Z →
  constrainLength s maxLength = Some r →
  c ∈ r → c ∈ s ∨ c ∈ ellipsis.
Proof.
  intros Hmax Hs Hr Hc.
  destruct (constrainLength_cases s maxLength Hmax Hs)
    as (r' & Hr' & Hfit & Hsmall & Hbig).
  rewrite Hr in Hr'. injection Hr' as <-.
  destruct (decide (str_length s ≤ maxLength)%Z) as [H1|H1].
  { rewrite Hfit in Hc by done. by left. }
  destruct (decide (maxLength ≤ 3)%Z) as [H2|H2].
  { rewrite Hsmall in Hc by lia. left. by eapply subseteq_take. }
  rewrite Hbig in Hc by lia.
  apply elem_of_app in Hc as [Hc|Hc]; [left; by eapply subseteq_take|].
  apply elem_of_app in Hc as [Hc|Hc]; [by right|].
  left. by eapply subseteq_drop.
Qed.

(** The name before its conversion to a C string. *)
Lemma createSafeName_combined (prefix suffix : std_string) (maxLength : Z) :
  (0 ≤ maxLength < 2 ^ 64)%Z →
  (str_length suffix ≤ maxLength)%Z →
  (str_length prefix < 2 ^ 64)%Z →
  ∃ c,
    constrainLength prefix (maxLength - str_length suffix) = Some c ∧
    createSafeName prefix suffix maxLength = Some (c_str (c ++ suffix)) ∧
    str_length (c ++ suffix)
      = Z.min (str_length prefix + str_length suffix) maxLength ∧
    ((str_length prefix + str_length suffix ≤ maxLength)%Z → c = prefix) ∧
    (Ascii.zero ∉ prefix → Ascii.zero ∉ suffix →
     c_str (c ++ suffix) = c ++ suffix).
Proof.
  intros Hmax Hsuffix Hprefix. unfold createSafeName.
  assert (0 ≤ str_length suffix)%Z by (unfold str_length; lia).
  rewrite size_t_small by lia.
  destruct (constrainLength_total prefix (maxLength - str_length suffix))
    as (c & Hc & Hlen & Hfit); [lia | done |].
  rewrite Hc. simpl. exists c. split; [done|]. split; [done|].
  split; [|split].
  - unfold str_length in *. rewrite length_app. lia.
  - intros Hall. apply Hfit. lia.
  - intros Hp Hs. apply c_str_id. intros Hin.
    apply elem_of_app in Hin as [Hin|Hin]; [|done].
    destruct (constrainLength_sublist prefix
                (maxLength - str_length suffix) c Ascii.zero)
      as [Hin'|Hin']; [lia | done | done | done | done |].
    apply list_elem_of_In in Hin'. simpl in Hin'.
    by repeat destruct Hin' as [Hin'|Hin'].
Qed.

(** X23.  A name made of a prefix and a suffix that fits the limit is at most
    [maxLength] long.  When neither part holds a NUL it is exactly as long as
    the limit allows, equals prefix and suffix together when they fit, and
    always ends with the whole suffix: only the prefix is shortened. *)
Theorem createSafeName_within_limit (prefix suffix : std_string)
    (maxLength : Z) :
  (0 ≤ maxLength < 2 ^ 64)%Z →
  (str_length suffix ≤ maxLength)%Z →
  (str_length prefix < 2 ^ 64)%Z →
  ∃ r,
    createSafeName prefix suffix maxLength = Some r ∧
    (str_length r ≤ maxLength)%Z ∧
    (Ascii.zero ∉ prefix → Ascii.zero ∉ suffix →
     str_length r = Z.min (str_length prefix + str_length suffix) maxLength ∧
     suffix `suffix_of` r ∧
     ((str_length prefix + str_length suffix ≤ maxLength)%Z →
      r = prefix ++ suffix)).
Proof.
  intros Hmax Hsuffix Hprefix.
  destruct (createSafeName_combined prefix suffix maxLength Hmax Hsuffix
              Hprefix) as (c & _ & Hr & Hlen & Hfit & Hnul).
  eexists. split; [exact Hr|]. split.
  - pose proof (c_str_length (c ++ suffix)). unfold str_length in *. lia.
  - intros Hp Hs. rewrite Hnul by done.
    split; [done|]. split; [by exists c|].
    intros Hall. by rewrite Hfit.
Qed.

Lemma createSafeName_within_limit_witness :
  ∃ r,
    createSafeName (String.list_ascii_of_string "Cesium3DTiles")
      (String.list_ascii_of_string "_Texture") 16 = Some r ∧
    (str_length r ≤ 16)%Z ∧
    r = String.list_ascii_of_string "Ces...es_Texture".
Proof.
  destruct (createSafeName_within_limit
              (String.list_ascii_of_string "Cesium3DTiles")
              (String.list_ascii_of_string "_Texture") 16)
    as (r & Hr & Hlen & _);
    [lia | vm_compute; discriminate | vm_compute; reflexivity |].
  exists r. split; [exact Hr|]. split; [exact Hlen|].
  vm_compute in Hr. by injection Hr as <-.
Defined.

(** X24.  A suffix longer than the limit is not caught: the unsigned
    subtraction [maxLength - suffix.length()] wraps, the prefix is kept
    whole, and the name is longer than [maxLength]. *)
Theorem createSafeName_suffix_beyond_limit (prefix suffix : std_string)
    (maxLength : Z) :
  (0 ≤ maxLength < str_length suffix)%Z →
  (str_length suffix < 2 ^ 64)%Z →
  (str_length prefix + str_length suffix ≤ 2 ^ 64 + maxLength)%Z →
  Ascii.zero ∉ prefix ++ suffix →
  createSafeName prefix suffix maxLength = Some (prefix ++ suffix) ∧
  (maxLength < str_length (prefix ++ suffix))%Z.
Proof.
  intros Hmax Hsuffix Hsum Hnul. unfold createSafeName, constrainLength.
  assert (size_t (maxLength - str_length suffix)
          = (maxLength - str_length suffix + 2 ^ 64)%Z) as ->.
  { unfold size_t.
    rewrite <- (Z.mod_add _ 1) by lia. apply Z.mod_small. lia. }
  rewrite decide_True by lia. simpl. rewrite c_str_id by done.
  split; [done|].
  unfold str_length in *. rewrite length_app. lia.
Qed.

Lemma createSafeName_suffix_beyond_limit_witness :
  createSafeName (String.list_ascii_of_string "Cesium3DTiles")
    (String.list_ascii_of_string "_Texture") 4
  = Some (String.list_ascii_of_string "Cesium3DTiles_Texture") ∧
  (4 < str_length (String.list_ascii_of_string "Cesium3DTiles_Texture"))%Z.
Proof.
  apply (createSafeName_suffix_beyond_limit
           (String.list_ascii_of_string "Cesium3DTiles")
           (String.list_ascii_of_string "_Texture") 4);
    [ vm_compute; split; [discriminate | reflexivity]
    | vm_compute; reflexivity
    | vm_compute; discriminate
    | ].
  intros Hin. apply list_elem_of_In in Hin. simpl in Hin.
  by repeat destruct Hin as [Hin|Hin].
Defined.

Lemma last_two_of_suffix (c s : std_string) :
  2 ≤ length s →
  drop (length (c ++ s) - 2) (c ++ s) = drop (length s - 2) s.
Proof.
  intros Hs. rewrite length_app, drop_app_ge by lia. f_equal. lia.
Qed.

(** X25.  The names of the three material parameters of one overlay are made
    of different character strings, however long the name of the overlay
    is: the name of the overlay is shortened and each parameter keeps its
    own suffix. *)
Theorem overlay_parameter_names_distinct (overlayName : std_string)
    (suffix1 suffix2 : std_string) :
  (str_length overlayName < 2 ^ 64)%Z →
  Ascii.zero ∉ overlayName →
  suffix1 ∈ overlaySuffixes → suffix2 ∈ overlaySuffixes →
  suffix1 ≠ suffix2 →
  ∃ name1 name2,
    createSafeName overlayName suffix1 defaultMaxLength = Some name1 ∧
    createSafeName overlayName suffix2 defaultMaxLength = Some name2 ∧
    name1 ≠ name2.
Proof.
  intros Hlen Hnul H1 H2 Hne.
  assert (∀ suffix, suffix ∈ overlaySuffixes →
            ∃ c, createSafeName overlayName suffix defaultMaxLength
                 = Some (c ++ suffix)) as Hname.
  { intros suffix Hs.
    destruct (createSafeName_combined overlayName suffix defaultMaxLength)
      as (c & _ & Hr & _ & _ & Hc); [done | | done |].
    - unfold overlaySuffixes in Hs.
      repeat (apply elem_of_cons in Hs as [->|Hs]);
        [vm_compute; discriminate.. | by apply elem_of_nil in Hs].
    - exists c. rewrite Hr, Hc; [done | done |].
      unfold overlaySuffixes in Hs.
      repeat (apply elem_of_cons in Hs as [->|Hs]);
        [| | | by apply elem_of_nil in Hs];
        intros Hin; apply list_elem_of_In in Hin; simpl in Hin;
        by repeat destruct Hin as [Hin|Hin]. }
  destruct (Hname suffix1 H1) as (c1 & Hn1).
  destruct (Hname suffix2 H2) as (c2 & Hn2).
  exists (c1 ++ suffix1), (c2 ++ suffix2).
  split; [done|]. split; [done|]. intros Heq.
  assert (drop (length (c1 ++ suffix1) - 2) (c1 ++ suffix1)
          = drop (length (c2 ++ suffix2) - 2) (c2 ++ suffix2)) as Hlast
    by by rewrite Heq.
  unfold overlaySuffixes in H1, H2.
  repeat (apply elem_of_cons in H1 as [->|H1]);
    [| | | by apply elem_of_nil in H1];
    repeat (apply elem_of_cons in H2 as [->|H2]);
    try (by apply elem_of_nil in H2); try done;
    rewrite !last_two_of_suffix in Hlast by (simpl; lia);
    by vm_compute in Hlast.
Qed.

Lemma overlay_parameter_names_distinct_witness :
  ∃ name1 name2,
    createSafeName (String.list_ascii_of_string "Bing Maps Aerial")
      (String.list_ascii_of_string "_Texture") defaultMaxLength
    = Some name1 ∧
    createSafeName (String.list_ascii_of_string "Bing Maps Aerial")
      (String.list_ascii_of_string "_TranslationScale") defaultMaxLength
    = Some name2 ∧
    name1 ≠ name2.
Proof.
  apply (overlay_parameter_names_distinct
           (String.list_ascii_of_string "Bing Maps Aerial")
           (String.list_ascii_of_string "_Texture")
           (String.list_ascii_of_string "_TranslationScale")).
  - vm_compute. reflexivity.
  - intros Hin. apply list_elem_of_In in Hin. simpl in Hin.
    by repeat destruct Hin as [Hin|Hin].
  - by left.
  - right. by left.
  - discriminate.
Defined.

(** ** The traversal of the scene graph *)

Lemma loadNode_S fuel E G options graph results transform node :
  loadNode (S fuel) E G options graph results transform node
  = (meshResult ←
       loadNodeMesh E G options graph (nodeTransform G transform node) node;
     foldl (loadChild fuel E G options graph (nodeTransform G transform node))
       (Returned (results ++ [MkNodeResult meshResult]))
       (children node)).
Proof. reflexivity. Qed.

Lemma loadNodeMesh_fuel E G options graph T node :
  loadNodeMesh E G options graph T node ≠ OutOfFuel.
Proof.
  unfold loadNodeMesh. case_decide; [|done].
  destruct (meshes graph !! _) as [m|]; simpl; [|done].
  destruct (loadMesh _ _ _ _ _ _); done.
Qed.

Lemma loadChild_stuck fuel E G options graph T
    (acc : Run (list (LoadNodeResult G))) l :
  (∀ r, acc ≠ Returned r) →
  foldl (loadChild fuel E G options graph T) acc l = acc.
Proof.
  intros Hacc. induction l as [|c l IH]; simpl; [done|].
  destruct acc as [r| |]; [by destruct (Hacc r) | exact IH | exact IH].
Qed.

Lemma loadNode_cyclic_stuck E G options graph (cyclic : nat → Prop) :
  (∀ id node, cyclic id → nodes graph !! id = Some node →
     ∃ child, child ∈ children node ∧ (0 ≤ child)%Z ∧
       cyclic (Z.to_nat child) ∧ Z.to_nat child < length (nodes graph)) →
  ∀ fuel id node results transform r,
    cyclic id → nodes graph !! id = Some node →
    loadNode fuel E G options graph results transform node ≠ Returned r.
Proof.
  intros Hcycle fuel.
  induction fuel as [|fuel IH]; intros id node results transform r Hid Hnode;
    [done|].
  rewrite loadNode_S.
  destruct (loadNodeMesh _ _ _ _ _ _) as [meshResult| |]; simpl; [|done..].
  destruct (Hcycle id node Hid Hnode) as (child & Hchild & Hpos & Hcyc & Hlt).
  apply list_elem_of_split in Hchild as (before & after & ->).
  rewrite foldl_app. simpl.
  set (acc := foldl _ _ before).
  rewrite loadChild_stuck; [|intros r'].
  - destruct acc as [r1| |]; simpl; [|done..].
    rewrite decide_True by lia.
    destruct (lookup_lt_is_Some_2 _ _ Hlt) as [cn Hcn].
    rewrite Hcn. simpl. by eapply IH.
  - destruct acc as [r1| |]; simpl; [|done..].
    rewrite decide_True by lia.
    destruct (lookup_lt_is_Some_2 _ _ Hlt) as [cn Hcn].
    rewrite Hcn. simpl. by eapply IH.
Qed.

(** More depth than a run needs changes nothing. *)
Lemma loadNode_fuel_S E G options graph fuel :
  ∀ results transform node,
    loadNode fuel E G options graph results transform node ≠ OutOfFuel →
    loadNode (S fuel) E G options graph results transform node
    = loadNode fuel E G options graph results transform node.
Proof.
  induction fuel as [|fuel IH]; intros results transform node Hrun; [done|].
  rewrite (loadNode_S (S fuel)). rewrite loadNode_S in Hrun |- *.
  destruct (loadNodeMesh _ _ _ _ _ _) as [meshResult| |]; simpl in *; [|done..].
  revert Hrun. generalize (Returned (results ++ [MkNodeResult meshResult])).
  induction (children node) as [|c l IHl]; intros acc Hrun; simpl in *; [done|].
  assert (loadChild (S fuel) E G options graph
            (nodeTransform G transform node) acc c
          = loadChild fuel E G options graph
              (nodeTransform G transform node) acc c) as ->; [|by apply IHl].
  destruct acc as [r| |]; simpl; [|done..].
  case_decide; [|done].
  destruct (nodes graph !! _) as [cn|] eqn:Hcn; simpl; [|done].
  apply IH. intros Hout. apply Hrun.
  unfold loadChild at 2. simpl. rewrite decide_True by done.
  rewrite Hcn. simpl. rewrite Hout.
  by apply loadChild_stuck.
Qed.

Lemma loadNode_fuel_le E G options graph fuel fuel' results transform node :
  fuel ≤ fuel' →
  loadNode fuel E G options graph results transform node ≠ OutOfFuel →
  loadNode fuel' E G options graph results transform node
  = loadNode fuel E G options graph results transform node.
Proof.
  induction 1 as [|fuel' Hle IH]; intros Hrun; [done|].
  rewrite loadNode_fuel_S; [by apply IH|]. by rewrite IH.
Qed.

(** X26.  Over a node graph without cycles [loadNode] ends.  When the children
    of every node lie at a smaller depth than the node, a recursion depth
    above the depth of a node is enough for it, and any greater depth gives
    the same run. *)
Theorem loadNode_acyclic_returns E G options graph (depth : nat → nat) :
  (∀ id node child, nodes graph !! id = Some node → child ∈ children node →
     (0 ≤ child)%Z → Z.to_nat child < length (nodes graph) →
     depth (Z.to_nat child) < depth id) →
  ∀ fuel id node results transform,
    nodes graph !! id = Some node → depth id < fuel →
    loadNode fuel E G options graph results transform node ≠ OutOfFuel ∧
    loadNode fuel E G options graph results transform node
    = loadNode (S (depth id)) E G options graph results transform node.
Proof.
  intros Hdepth.
  assert (∀ fuel id node results transform,
            nodes graph !! id = Some node → depth id < fuel →
            loadNode fuel E G options graph results transform node
            ≠ OutOfFuel) as Hends.
  { intros fuel.
    induction fuel as [|fuel IH]; intros id node results transform Hnode Hfuel;
      [lia|].
    rewrite loadNode_S.
    pose proof (loadNodeMesh_fuel E G options graph
                  (nodeTransform G transform node) node) as Hmesh.
    destruct (loadNodeMesh _ _ _ _ _ _) as [meshResult| |]; simpl; [|done..].
    assert (∀ child, child ∈ children node → (0 ≤ child)%Z →
              Z.to_nat child < length (nodes graph) →
              depth (Z.to_nat child) < fuel) as Hchildren.
    { intros child Hc H0 Hlt.
      pose proof (Hdepth id node child Hnode Hc H0 Hlt). lia. }
    clear Hmesh Hnode.
    assert (Returned (results ++ [MkNodeResult meshResult])
            ≠ (OutOfFuel : Run (list (LoadNodeResult G)))) as Hacc by done.
    revert Hacc Hchildren.
    generalize (Returned (results ++ [MkNodeResult meshResult])).
    induction (children node) as [|c l IHl]; intros acc Hacc Hchildren;
      simpl; [done|].
    apply IHl.
    - destruct acc as [r| |]; simpl; [|done..].
      case_decide as Hrange; [|done].
      destruct (nodes graph !! _) as [cn|] eqn:Hcn; simpl; [|done].
      eapply IH; [exact Hcn|]. apply Hchildren; [by left | lia | lia].
    - intros child Hc. apply Hchildren. by right. }
  intros fuel id node results transform Hnode Hfuel.
  split; [by eapply Hends|].
  apply loadNode_fuel_le; [lia|]. eapply Hends; [done | lia].
Qed.

Lemma treeGraph_depth id node child :
  nodes treeGraph !! id = Some node → child ∈ children node →
  (0 ≤ child)%Z → Z.to_nat child < length (nodes treeGraph) →
  treeDepth (Z.to_nat child) < treeDepth id.
Proof.
  intros Hnode Hchild Hpos Hlt.
  destruct id as [|[|[|[|id]]]]; simpl in Hnode; [| | | |done];
    injection Hnode as <-; simpl in Hchild.
  - apply elem_of_cons in Hchild as [->|Hchild]; [simpl; lia|].
    apply elem_of_cons in Hchild as [->|Hchild]; [simpl in Hlt; lia|].
    apply elem_of_cons in Hchild as [->|Hchild]; [simpl; lia|].
    by apply elem_of_nil in Hchild.
  - by apply elem_of_nil in Hchild.
  - apply elem_of_cons in Hchild as [->|Hchild]; [simpl; lia|].
    by apply elem_of_nil in Hchild.
  - by apply elem_of_nil in Hchild.
Qed.

Lemma loadNode_acyclic_returns_witness :
  nodes treeGraph !! 0 = Some (MkNode [] [] [] [] 0 [1; 7; 2]%Z) ∧
  treeDepth 0 < 5 ∧
  loadNode 5 sampleEngine sampleGlm chaosOptions treeGraph [] tt
    (MkNode [] [] [] [] 0 [1; 7; 2]%Z) ≠ OutOfFuel ∧
  loadNode 5 sampleEngine sampleGlm chaosOptions treeGraph [] tt
    (MkNode [] [] [] [] 0 [1; 7; 2]%Z)
  = loadNode (S (treeDepth 0)) sampleEngine sampleGlm chaosOptions treeGraph
      [] tt (MkNode [] [] [] [] 0 [1; 7; 2]%Z).
Proof.
  split; [reflexivity|]. split; [simpl; lia|].
  exact (loadNode_acyclic_returns sampleEngine sampleGlm chaosOptions
           treeGraph treeDepth treeGraph_depth 5 0
           (MkNode [] [] [] [] 0 [1; 7; 2]%Z) [] tt eq_refl
           (ltac:(simpl; lia) : treeDepth 0 < 5)).
Defined.

Example treeGraph_loaded :
  loadNode 5 sampleEngine sampleGlm chaosOptions treeGraph [] tt
    (MkNode [] [] [] [] 0 [1; 7; 2]%Z)
  = Returned [ MkNodeResult (Some [@MkSlot sampleGlm tt (Loaded flatResult)]);
               MkNodeResult None; MkNodeResult None; MkNodeResult None ].
Proof. vm_compute. reflexivity. Qed.

(** The results that a run appends do not depend on the results it was
    given. *)
Lemma loadNode_results_appended E G options graph fuel :
  ∀ results transform node,
    loadNode fuel E G options graph results transform node
    = (results ++.) <$> loadNode fuel E G options graph [] transform node.
Proof.
  induction fuel as [|fuel IH]; intros results transform node; [done|].
  rewrite !loadNode_S.
  destruct (loadNodeMesh _ _ _ _ _ _) as [meshResult| |]; simpl; [|done..].
  set (T := nodeTransform G transform node).
  assert (∀ l acc,
            foldl (loadChild fuel E G options graph T)
              (Returned (results ++ acc)) l
            = (results ++.) <$>
                foldl (loadChild fuel E G options graph T) (Returned acc) l)
    as Hfold.
  { induction l as [|c l IHl]; intros acc; simpl; [done|].
    case_decide; [|apply IHl].
    destruct (nodes graph !! _) as [child|]; simpl;
      [|by rewrite !loadChild_stuck].
    rewrite (IH (results ++ acc)), (IH acc).
    destruct (loadNode fuel E G options graph [] T child) as [part| |];
      simpl; [|by rewrite !loadChild_stuck..].
    rewrite <- app_assoc. apply IHl. }
  apply (Hfold (children node) [MkNodeResult meshResult]).
Qed.

(** The results of the children of a node, child by child. *)
Lemma loadChildren_parts E G options graph fuel T :
  ∀ l acc r,
    foldl (loadChild fuel E G options graph T) (Returned acc) l = Returned r →
    ∃ parts,
      r = acc ++ concat parts ∧
      Forall2
        (λ childNodeId part,
           ∃ child,
             nodes graph !! Z.to_nat childNodeId = Some child ∧
             loadNode fuel E G options graph [] T child = Returned part)
        (filter (λ id, (0 ≤ id < Z.of_nat (length (nodes graph)))%Z) l)
        parts.
Proof.
  induction l as [|c l IHl]; intros acc r; simpl.
  - intros [= <-]. exists []. simpl. by rewrite app_nil_r.
  - case_decide as Hrange.
    + rewrite filter_cons_True by done.
      destruct (nodes graph !! _) as [child|] eqn:Hchild; simpl;
        [|by rewrite loadChild_stuck].
      rewrite loadNode_results_appended.
      destruct (loadNode fuel E G options graph [] T child) as [part| |]
        eqn:Hpart; simpl; [|by rewrite loadChild_stuck..].
      intros (parts & -> & Hparts)%IHl.
      exists (part :: parts). simpl. rewrite <- app_assoc.
      split; [done|]. constructor; [by exists child | done].
    + rewrite filter_cons_False by done. apply IHl.
Qed.

(** X27.  The results of a node come in pre-order.  A run of [loadNode] that
    returns keeps the results it was given, puts the result of the node
    right behind them and after it, child by child in the order of
    [children], the results of a run of [loadNode] from each child that is
    a node of the model, under the transform of the node; a child id that
    is no node contributes nothing.  The node has a mesh result exactly
    when its mesh id is a mesh of the model, and that result has one entry
    per primitive of the mesh, in order, each with the outcome of loading
    the primitive and the transform of the node. *)
Theorem loadNode_results_in_order fuel E G options graph results transform
    node r :
  loadNode fuel E G options graph results transform node = Returned r →
  ∃ own parts,
    r = results ++ own :: concat parts ∧
    Forall2
      (λ childNodeId part,
         ∃ child,
           nodes graph !! Z.to_nat childNodeId = Some child ∧
           loadNode fuel E G options graph []
             (nodeTransform G transform node) child
           = Returned part)
      (filter (λ id, (0 ≤ id < Z.of_nat (length (nodes graph)))%Z)
         (children node))
      parts ∧
    (meshResult own = None
     ↔ ¬ (0 ≤ mesh node < Z.of_nat (length (meshes graph)))%Z) ∧
    ∀ slots, meshResult own = Some slots →
      ∃ m,
        meshes graph !! Z.to_nat (mesh node) = Some m ∧
        length slots = length (primitives m) ∧
        ∀ k primitive, primitives m !! k = Some primitive →
          ∃ outcome,
            loadMeshPrimitive E options (graph_model graph) primitive
              = Some outcome ∧
            slots !! k
              = Some (MkSlot (nodeTransform G transform node) outcome).
Proof.
  destruct fuel as [|fuel]; [done|]. rewrite loadNode_S.
  destruct (loadNodeMesh _ _ _ _ _ _) as [mr| |] eqn:Hmesh; simpl; [|done..].
  intros (parts & -> & Hparts)%loadChildren_parts.
  exists (MkNodeResult mr), parts. split; [by rewrite <- app_assoc|].
  split.
  { eapply Forall2_impl; [exact Hparts|].
    intros id part (child & Hchild & Hrun). exists child. split; [done|].
    pose proof (loadNode_fuel_S E G options graph fuel []
                  (nodeTransform G transform node) child) as Hdeeper.
    rewrite Hrun in Hdeeper. by apply Hdeeper. }
  simpl. unfold loadNodeMesh in Hmesh.
  destruct (decide (0 ≤ mesh node < Z.of_nat (length (meshes graph)))%Z)
    as [Hrange|Hrange]; [|by simplify_eq].
  destruct (meshes graph !! _) as [m|] eqn:Hm; simpl in Hmesh; [|done].
  destruct (loadMesh _ _ _ _ _ _) as [slots|] eqn:Hslots; simpl in Hmesh;
    [|done].
  simplify_eq. split; [done|]. intros ? [= <-].
  exists m. split; [done|].
  unfold loadMesh in Hslots. apply mapM_Some in Hslots.
  split; [symmetry; by eapply Forall2_length|].
  intros k primitive Hk.
  destruct (Forall2_lookup_l _ _ _ _ _ Hslots Hk) as (slot & Hslot & Hload).
  destruct (loadMeshPrimitive _ _ _ _) as [outcome|]; simpl in Hload; [|done].
  exists outcome. by simplify_eq.
Qed.

Lemma loadNode_results_in_order_witness :
  loadNode 5 sampleEngine sampleGlm chaosOptions treeGraph [] tt
    (MkNode [] [] [] [] 0 [1; 7; 2]%Z)
  = Returned [ MkNodeResult (Some [@MkSlot sampleGlm tt (Loaded flatResult)]);
               MkNodeResult None; MkNodeResult None; MkNodeResult None ] ∧
  ∃ own parts,
    [ MkNodeResult (Some [@MkSlot sampleGlm tt (Loaded flatResult)]);
      MkNodeResult None; MkNodeResult None; MkNodeResult None ]
    = [] ++ own :: concat parts ∧
    Forall2
      (λ childNodeId part,
         ∃ child,
           nodes treeGraph !! Z.to_nat childNodeId = Some child ∧
           loadNode 5 sampleEngine sampleGlm chaosOptions treeGraph []
             (nodeTransform sampleGlm tt (MkNode [] [] [] [] 0 [1; 7; 2]%Z))
             child
           = Returned part)
      (filter (λ id, (0 ≤ id < Z.of_nat (length (nodes treeGraph)))%Z)
         (children (MkNode [] [] [] [] 0 [1; 7; 2]%Z)))
      parts ∧
    (meshResult own = None
     ↔ ¬ (0 ≤ 0 < Z.of_nat (length (meshes treeGraph)))%Z).
Proof.
  split; [vm_compute; reflexivity|].
  destruct (loadNode_results_in_order 5 sampleEngine sampleGlm chaosOptions
              treeGraph [] tt (MkNode [] [] [] [] 0 [1; 7; 2]%Z)
              [ MkNodeResult (Some [@MkSlot sampleGlm tt (Loaded flatResult)]);
                MkNodeResult None; MkNodeResult None; MkNodeResult None ])
    as (own & parts & Hr & Hparts & Hnone & _); [vm_compute; reflexivity|].
  exists own, parts. split; [exact Hr|]. split; [exact Hparts | exact Hnone].
Defined.

(** ** Loading a model *)

Lemma loadModelAnyThreadPart_shown fuel E G options graph transform sc :
  shownScene graph = Some sc →
  loadModelAnyThreadPart fuel E G options graph transform
  = loadSceneNodes fuel E G options graph (rootTransform G graph transform) sc.
Proof.
  unfold shownScene, loadModelAnyThreadPart, rootTransform.
  case_decide.
  - by intros ->.
  - destruct (scenes graph); [done|]. by intros [= ->].
Qed.

Lemma loadSceneNodes_stuck fuel E G options graph T
    (acc : Run (list (LoadNodeResult G))) l :
  (∀ r, acc ≠ Returned r) →
  foldl
    (λ acc nodeId,
       nodeResults ← acc;
       node ← run_option (if decide (0 ≤ nodeId)%Z
                          then nodes graph !! Z.to_nat nodeId else None);
       loadNode fuel E G options graph nodeResults T node)
    acc l = acc.
Proof.
  intros Hacc. induction l as [|c l IH]; simpl; [done|].
  destruct acc as [r| |]; [by destruct (Hacc r) | exact IH | exact IH].
Qed.

(** X28.  A cycle in the node graph is not detected.  When every node of a set
    has a child in the set, [loadNode] does not return for any node of the
    set, however deep the recursion is allowed to go; and a model whose
    shown scene has such a node among its roots is never loaded. *)
Theorem loadNode_cycle_never_returns E G options graph (cyclic : nat → Prop) :
  (∀ id node, cyclic id → nodes graph !! id = Some node →
     ∃ child, child ∈ children node ∧ (0 ≤ child)%Z ∧
       cyclic (Z.to_nat child) ∧ Z.to_nat child < length (nodes graph)) →
  (∀ fuel id node results transform r,
     cyclic id → nodes graph !! id = Some node →
     loadNode fuel E G options graph results transform node ≠ Returned r) ∧
  (∀ fuel sc root transform r,
     shownScene graph = Some sc → root ∈ scene_nodes sc → (0 ≤ root)%Z →
     cyclic (Z.to_nat root) → Z.to_nat root < length (nodes graph) →
     loadModelAnyThreadPart fuel E G options graph transform ≠ Returned r).
Proof.
  intros Hcycle.
  pose proof (loadNode_cyclic_stuck E G options graph cyclic Hcycle) as Hnode.
  split; [exact Hnode|].
  intros fuel sc root transform r Hshown Hroot Hpos Hcyc Hlt.
  rewrite (loadModelAnyThreadPart_shown _ _ _ _ _ _ _ Hshown).
  unfold loadSceneNodes.
  apply list_elem_of_split in Hroot as (before & after & ->).
  rewrite foldl_app. simpl.
  set (acc := foldl _ _ before).
  assert (∀ r', (nodeResults ← acc;
                 node ← run_option (if decide (0 ≤ root)%Z
                                    then nodes graph !! Z.to_nat root
                                    else None);
                 loadNode fuel E G options graph nodeResults
                   (rootTransform G graph transform) node) ≠ Returned r')
    as Hstuck.
  { intros r'. destruct acc as [r1| |]; simpl; [|done..].
    rewrite decide_True by done.
    destruct (lookup_lt_is_Some_2 _ _ Hlt) as [node Hn].
    rewrite Hn. simpl. by eapply Hnode. }
  rewrite loadSceneNodes_stuck; [apply Hstuck | exact Hstuck].
Qed.

Lemma cyclicGraph_cycle id node :
  id = 0 → nodes cyclicGraph !! id = Some node →
  ∃ child, child ∈ children node ∧ (0 ≤ child)%Z ∧
    Z.to_nat child = 0 ∧ Z.to_nat child < length (nodes cyclicGraph).
Proof.
  intros -> [= <-]. exists 0%Z.
  split; [by left|]. split; [lia|]. split; [reflexivity|]. simpl. lia.
Qed.

Lemma loadNode_cycle_never_returns_witness :
  nodes cyclicGraph !! 0 = Some selfNode ∧
  shownScene cyclicGraph = Some (MkScene [0%Z]) ∧
  (∀ fuel results r,
     loadNode fuel sampleEngine sampleGlm chaosOptions cyclicGraph results tt
       selfNode ≠ Returned r) ∧
  (∀ fuel r,
     loadModelAnyThreadPart fuel sampleEngine sampleGlm chaosOptions
       cyclicGraph tt ≠ Returned r).
Proof.
  split; [reflexivity|]. split; [reflexivity|].
  destruct (loadNode_cycle_never_returns sampleEngine sampleGlm chaosOptions
              cyclicGraph (λ id, id = 0) cyclicGraph_cycle) as [Hnode Hmodel].
  split.
  - intros fuel results r. by apply (Hnode fuel 0).
  - intros fuel r.
    apply (Hmodel fuel (MkScene [0%Z]) 0%Z tt r);
      [reflexivity | by left | lia | reflexivity | simpl; lia].
Defined.

(** X29.  The root ids of a scene are not checked against the nodes of the
    model, unlike the child ids of a node: a load that returns has found
    every root of the shown scene among the nodes, and an id outside them
    leaves defined behaviour instead of being passed over. *)
Theorem scene_roots_are_not_checked fuel E G options graph transform sc :
  shownScene graph = Some sc →
  (∀ r, loadModelAnyThreadPart fuel E G options graph transform = Returned r →
     ∀ root, root ∈ scene_nodes sc →
       (0 ≤ root < Z.of_nat (length (nodes graph)))%Z) ∧
  (∀ root rest, scene_nodes sc = root :: rest →
     ¬ (0 ≤ root < Z.of_nat (length (nodes graph)))%Z →
     loadModelAnyThreadPart fuel E G options graph transform = Undefined).
Proof.
  intros Hshown.
  rewrite (loadModelAnyThreadPart_shown _ _ _ _ _ _ _ Hshown).
  unfold loadSceneNodes. split.
  - intros r Hrun root (before & after & Hsplit)%list_elem_of_split.
    rewrite Hsplit, foldl_app in Hrun. simpl in Hrun.
    destruct (decide (0 ≤ root < Z.of_nat (length (nodes graph)))%Z)
      as [|Hout]; [done|].
    rewrite loadSceneNodes_stuck in Hrun.
    + destruct (foldl _ _ before) as [r1| |]; simpl in Hrun; [|done..].
      case_decide; [|done].
      rewrite lookup_ge_None_2 in Hrun by lia. done.
    + intros r'. destruct (foldl _ _ before) as [r1| |]; simpl; [|done..].
      case_decide; [|done].
      rewrite lookup_ge_None_2 by lia. done.
  - intros root rest -> Hout. simpl.
    assert ((if decide (0 ≤ root)%Z then nodes graph !! Z.to_nat root
             else None) = None) as ->.
    { case_decide; [|done]. apply lookup_ge_None_2. lia. }
    simpl. by apply loadSceneNodes_stuck.
Qed.

Lemma scene_roots_are_not_checked_witness :
  shownScene treeGraph = Some (MkScene [0%Z]) ∧
  ∀ r, loadModelAnyThreadPart 5 sampleEngine sampleGlm chaosOptions treeGraph
         tt = Returned r →
    ∀ root, root ∈ scene_nodes (MkScene [0%Z]) →
      (0 ≤ root < Z.of_nat (length (nodes treeGraph)))%Z.
Proof.
  split; [reflexivity|].
  apply (scene_roots_are_not_checked 5 sampleEngine sampleGlm chaosOptions
           treeGraph tt (MkScene [0%Z])).
  reflexivity.
Defined.

(** X30.  A model without scenes and without nodes shows every mesh: the load
    needs no recursion, and when it returns there is one node result per
    mesh of the model, in order, holding the entries of that mesh under the
    root transform. *)
Theorem meshes_without_nodes fuel E G options graph transform :
  scenes graph = [] → nodes graph = [] →
  loadModelAnyThreadPart fuel E G options graph transform ≠ OutOfFuel ∧
  ∀ r, loadModelAnyThreadPart fuel E G options graph transform = Returned r →
    length r = length (meshes graph) ∧
    ∀ k m, meshes graph !! k = Some m →
      ∃ slots,
        loadMesh E G options graph (rootTransform G graph transform) m
          = Some slots ∧
        r !! k = Some (MkNodeResult (Some slots)).
Proof.
  intros Hscenes Hnodes. unfold loadModelAnyThreadPart.
  rewrite Hscenes, Hnodes. rewrite decide_False by (simpl; lia).
  fold (rootTransform G graph transform).
  set (step := λ (acc : Run (list (LoadNodeResult G))) (m : Mesh),
         nodeResults ← acc;
         slots ← run_option
                   (loadMesh E G options graph
                      (rootTransform G graph transform) m);
         Returned (nodeResults ++ [MkNodeResult (Some slots)])).
  assert (∀ l acc,
            foldl step (Returned acc) l ≠ OutOfFuel ∧
            ∀ r, foldl step (Returned acc) l = Returned r →
              length r = length acc + length l ∧
              (∀ k, k < length acc → r !! k = acc !! k) ∧
              ∀ k m, l !! k = Some m →
                ∃ slots,
                  loadMesh E G options graph
                    (rootTransform G graph transform) m = Some slots ∧
                  r !! (length acc + k) = Some (MkNodeResult (Some slots)))
    as Hfold.
  { assert (∀ l, foldl step Undefined l = Undefined) as Hundef.
    { intros l. induction l as [|m l IH]; simpl; [done | exact IH]. }
    intros l. induction l as [|m l IH]; intros acc; simpl.
    - split; [done|]. intros r [= <-].
      split; [lia|]. split; [done|]. intros k m Hk. done.
    - destruct (loadMesh E G options graph _ m) as [slots|] eqn:Hslots;
        simpl; [|rewrite Hundef; done].
      destruct (IH (acc ++ [MkNodeResult (Some slots)])) as [Hfuel Hres].
      split; [done|]. intros r Hr.
      destruct (Hres r Hr) as (Hlen & Hkeep & Hall).
      rewrite length_app in Hlen, Hkeep, Hall. simpl in *.
      split; [lia|]. split.
      + intros k Hk. rewrite Hkeep by lia. by rewrite lookup_app_l by lia.
      + intros [|k] m' Hm'; simpl in Hm'.
        * simplify_eq. exists slots. split; [done|].
          rewrite Nat.add_0_r, Hkeep by lia.
          rewrite lookup_app_r by lia. by rewrite Nat.sub_diag.
        * destruct (Hall k m' Hm') as (slots' & Hs' & Hk').
          exists slots'. split; [done|].
          by replace (length acc + S k) with (length acc + 1 + k) by lia. }
  destruct (Hfold (meshes graph) []) as [Hfuel Hres].
  split; [done|]. intros r Hr.
  destruct (Hres r Hr) as (Hlen & _ & Hall). split; [done|]. exact Hall.
Qed.

Lemma meshes_without_nodes_witness :
  scenes meshGraph = [] ∧ nodes meshGraph = [] ∧
  loadModelAnyThreadPart 0 sampleEngine sampleGlm chaosOptions meshGraph tt
  = Returned [ MkNodeResult (Some [@MkSlot sampleGlm tt (Loaded flatResult)]);
               MkNodeResult (Some []) ] ∧
  loadModelAnyThreadPart 0 sampleEngine sampleGlm chaosOptions meshGraph tt
  ≠ OutOfFuel.
Proof.
  split; [reflexivity|]. split; [reflexivity|].
  split; [vm_compute; reflexivity|].
  apply (meshes_without_nodes 0 sampleEngine sampleGlm chaosOptions meshGraph
           tt); reflexivity.
Defined.
